(** * GoToSocial: account deletion cascade, media repository, admin media entry points

    A shallow embedding of
      - internal/processing/account/delete.go
      - internal/db/bundb/media.go
      - internal/processing/admin/media.go
    together with the properties their specification states about them.

    Conventions.
      - Go pointers that may be nil are [option]; a nil slice and an empty
        slice are both [[]].
      - A Go function that mutates its pointer argument returns the mutated
        record next to its ordinary results.
      - The persistent store, the worker queue, the cache, the media manager,
        the random source and bcrypt are collaborators outside these files:
        they are interfaces (records of operations) and every theorem holds
        for every implementation of them.
      - Every store call is logged in a trace, so that "no store call was
        made" is a statement about the trace. *)

From Stdlib Require Import ZArith Lia Strings.Byte.
From stdpp Require Import base option list gmap strings pretty.

Open Scope Z_scope.

(* ===================================================================== *)
(** * Data model (package gtsmodel, fields the three files use)          *)
(* ===================================================================== *)

Module gtsmodel.

(** time.Time, as an offset from Go's zero instant: [time.Time{}] is 0. *)
Definition Time := Z.
Definition never : Time := 0.

(** net.IP is a byte slice; [net.IPv4zero] is the 16-byte form of 0.0.0.0. *)
Definition IP := list byte.
Definition IPv4zero : IP :=
  [x00; x00; x00; x00; x00; x00; x00; x00; x00; x00; xff; xff;
   x00; x00; x00; x00].

Record Emoji := { EmojiID : string; Shortcode : string }.
Record Field := { FieldName : string; FieldValue : string }.

Record Account := {
  ID : string;
  Username : string;
  Domain : string;
  FetchedAt : Time;
  AvatarMediaAttachmentID : string;
  AvatarRemoteURL : string;
  HeaderMediaAttachmentID : string;
  HeaderRemoteURL : string;
  DisplayName : string;
  EmojiIDs : list string;
  Emojis : list Emoji;
  Fields : list Field;
  Note : string;
  NoteRaw : string;
  Memorial : option bool;
  AlsoKnownAs : string;
  MovedToAccountID : string;
  Reason : string;
  Discoverable : option bool;
  StatusContentType : string;
  CustomCSS : string;
  SuspendedAt : Time;
  SuspensionOrigin : string;
  HideCollections : option bool;
  EnableRSS : option bool
}.

(** Modelled from the spec: [Account.IsLocal] lives in gtsmodel, outside
    the three files; the spec's data model says "empty domain denotes a
    local account". *)
Definition IsLocal (a : Account) : bool := bool_decide (Domain a = "").

Record User := {
  UserID : string;
  UserAccountID : string;
  Email : string;
  EncryptedPassword : string;
  SignUpIP : IP;
  CurrentSignInAt : Time;
  CurrentSignInIP : IP;
  LastSignInAt : Time;
  LastSignInIP : IP;
  SignInCount : Z;
  Locale : string;
  CreatedByApplicationID : string;
  LastEmailedAt : Time;
  ConfirmationToken : string;
  ConfirmationSentAt : Time;
  ResetPasswordToken : string;
  ResetPasswordSentAt : Time
}.

Record Token := {
  TokenID : string;
  TokenClientID : string;
  TokenUserID : string
}.

Record Follow := {
  FollowID : string;
  FollowURI : string;
  FollowAccountID : string;
  FollowAccount : option Account;
  FollowTargetAccountID : string;
  FollowTargetAccount : option Account
}.

Record FollowRequest := {
  FollowRequestID : string;
  FollowRequestURI : string;
  FollowRequestAccountID : string;
  FollowRequestAccount : option Account;
  FollowRequestTargetAccountID : string;
  FollowRequestTargetAccount : option Account
}.

Record Status := {
  StatusID : string;
  StatusAccountID : string;
  StatusAccount : option Account;
  StatusBoostOfID : string
}.

Record MediaAttachment := {
  MediaID : string;
  MediaStatusID : string;
  MediaURL : string;
  MediaUpdatedAt : Time
}.

End gtsmodel.
Export gtsmodel.

(* ===================================================================== *)
(** * Errors                                                             *)
(* ===================================================================== *)

(** Go error values: the store's sentinel [db.ErrNoEntries], any other
    leaf error, and [fmt.Errorf("<msg>: %w", err)] wrapping. *)
Inductive error :=
| ErrNoEntries
| ErrNew (msg : string)
| Errorf (msg : string) (wrapped : error).

(** [errors.Is(err, db.ErrNoEntries)]: walks the chain of wrapped errors. *)
Fixpoint isErrNoEntries (err : error) : bool :=
  match err with
  | ErrNoEntries => true
  | ErrNew _ => false
  | Errorf _ wrapped => isErrNoEntries wrapped
  end.

(** [err != nil && !errors.Is(err, db.ErrNoEntries)] *)
Definition realError (err : option error) : option error :=
  match err with
  | Some e => if isErrNoEntries e then None else Some e
  | None => None
  end.

(** gtserror.WithCode, by constructor used. *)
Inductive WithCode :=
| ErrorInternalError (err : error)
| ErrorBadRequest (err : error) (helpText : string).

(* ===================================================================== *)
(** * Messages to the client API worker (packages ap, messages)          *)
(* ===================================================================== *)

Module ap.
(** The ActivityStreams type names the files refer to. *)
Inductive APType :=
| ActorPerson
| ObjectNote
| ActivityDelete
| ActivityFollow
| ActivityUndo
| ActivityAnnounce.
End ap.

Module messages.
Inductive GTSModel :=
| NoModel
| FollowModel (follow : Follow)
| StatusModel (status : Status).

Record FromClientAPI := {
  APObjectType : ap.APType;
  APActivityType : ap.APType;
  GTSModelOf : GTSModel;
  OriginAccount : option Account;
  TargetAccount : option Account
}.
End messages.
Export messages.


(* ===================================================================== *)
(** * The collaborators of the processor, as interfaces                   *)
(* ===================================================================== *)

Module db.

(** The calls [p.state.DB] receives from delete.go, with their arguments. *)
Inductive Call :=
| CGetUserByAccountID (accountID : string)
| CGetWhere_Token (userID : string)
| CDeleteByID_Client (id : string)
| CDeleteWhere_Application (clientID : string)
| CDeleteByID_Token (id : string)
| CUpdateUser (user : User) (columns : list string)
| CGetAccountFollowers (accountID : string)
| CGetAccountFollowRequests (accountID : string)
| CGetAccountFollows (accountID : string)
| CGetAccountFollowRequesting (accountID : string)
| CDeleteFollowByID (id : string)
| CDeleteFollowRequestByID (id : string)
| CDeleteAccountBlocks (accountID : string)
| CGetAccountStatuses (accountID : string) (limit : Z) (maxID : string)
| CGetStatusReblogs (status : Status)
| CGetAccountByID (id : string)
| CDeleteNotifications (targetAccountID originAccountID : string)
| CDeleteStatusBookmarks (accountID targetAccountID : string)
| CDeleteStatusFaves (accountID targetAccountID : string)
| CUpdateAccount (account : Account) (columns : list string).

(** The persistent store behind [p.state.DB], over any type [St] of store
    contents.  A read answers from the contents; a write answers and
    leaves new contents.  A lookup of one record answers the record or an
    error; a listing answers a slice and an error value, as in Go. *)
Record DB (St : Type) := {
  GetUserByAccountID : string -> St -> error + User;
  GetWhere_Token : string -> St -> list Token * option error;
  DeleteByID_Client : string -> St -> option error * St;
  DeleteWhere_Application : string -> St -> option error * St;
  DeleteByID_Token : string -> St -> option error * St;
  UpdateUser : User -> list string -> St -> option error * St;
  GetAccountFollowers : string -> St -> list Follow * option error;
  GetAccountFollowRequests : string -> St -> list FollowRequest * option error;
  GetAccountFollows : string -> St -> list Follow * option error;
  GetAccountFollowRequesting : string -> St -> list FollowRequest * option error;
  DeleteFollowByID : string -> St -> option error * St;
  DeleteFollowRequestByID : string -> St -> option error * St;
  DeleteAccountBlocks : string -> St -> option error * St;
  GetAccountStatuses :
    string -> Z -> bool -> bool -> string -> string -> bool -> bool ->
    St -> list Status * option error;
  GetStatusReblogs : Status -> St -> list Status * option error;
  GetAccountByID : string -> St -> error + Account;
  DeleteNotifications : string -> string -> St -> option error * St;
  DeleteStatusBookmarks : string -> string -> St -> option error * St;
  DeleteStatusFaves : string -> string -> St -> option error * St;
  UpdateAccount : Account -> list string -> St -> option error * St
}.

End db.
Export db.

Arguments GetUserByAccountID {St}.
Arguments GetWhere_Token {St}.
Arguments DeleteByID_Client {St}.
Arguments DeleteWhere_Application {St}.
Arguments DeleteByID_Token {St}.
Arguments UpdateUser {St}.
Arguments GetAccountFollowers {St}.
Arguments GetAccountFollowRequests {St}.
Arguments GetAccountFollows {St}.
Arguments GetAccountFollowRequesting {St}.
Arguments DeleteFollowByID {St}.
Arguments DeleteFollowRequestByID {St}.
Arguments DeleteAccountBlocks {St}.
Arguments GetAccountStatuses {St}.
Arguments GetStatusReblogs {St}.
Arguments GetAccountByID {St}.
Arguments DeleteNotifications {St}.
Arguments DeleteStatusBookmarks {St}.
Arguments DeleteStatusFaves {St}.
Arguments UpdateAccount {St}.

(** The random source and the password hash of stubbifyUser:
    [uuid.New().MarshalBinary()] and [bcrypt.GenerateFromPassword], each
    answering bytes or an error; the [nat] is the state of the entropy
    source at the call. *)
Record Crypto := {
  uuid_New_MarshalBinary : nat -> error + list byte;
  bcrypt_GenerateFromPassword : nat -> list byte -> Z -> error + list byte
}.

(** bcrypt.DefaultCost *)
Definition bcrypt_DefaultCost : Z := 10.

(* ===================================================================== *)
(** * The processor's world and its monad                                 *)
(* ===================================================================== *)

(** What a call of the processor can observe and change: the store, the
    log of store calls (oldest first), the batches handed to
    [Workers.EnqueueClientAPI] (oldest first), the clock and the entropy
    source. *)
Record World (St : Type) := mkWorld {
  store : St;
  trace : list Call;
  queue : list (list FromClientAPI);
  clock : Time;
  entropy : nat
}.
Arguments mkWorld {St}.
Arguments store {St}.
Arguments trace {St}.
Arguments queue {St}.
Arguments clock {St}.
Arguments entropy {St}.

(** How a call ends: a value, an early [return err], or a loop bound
    reached (the model's bound on the unbounded [for]). *)
Inductive Res (E A : Type) :=
| Ok (a : A)
| Fail (e : E)
| OutOfFuel.
Arguments Ok {E A}.
Arguments Fail {E A}.
Arguments OutOfFuel {E A}.

(** Computations over a world [W] that end in [Res]. *)
Definition M (W E A : Type) := W -> Res E A * W.

Definition fail {W E A} (e : E) : M W E A := fun w => (Fail e, w).
Definition outOfFuel {W E A} : M W E A := fun w => (OutOfFuel, w).

#[global] Instance M_ret {W E} : MRet (M W E) :=
  fun A (a : A) w => (Ok a, w).

(** Sequencing: an early return or an exhausted bound skips the rest and
    keeps the world as it is at that point (nothing is rolled back). *)
#[global] Instance M_bind {W E} : MBind (M W E) :=
  fun A B (k : A -> M W E B) (m : M W E A) w =>
    match m w with
    | (Ok a, w') => k a w'
    | (Fail e, w') => (Fail e, w')
    | (OutOfFuel, w') => (OutOfFuel, w')
    end.

(** [if err != nil { return wrap(err) }] *)
Definition check {W E} (err : option error) (wrap : error -> E) : M W E unit :=
  match err with
  | Some e => fail (wrap e)
  | None => mret tt
  end.

(** The callee's error re-wrapped by the caller. *)
Definition mapErr {W E E' A} (f : E -> E') (m : M W E A) : M W E' A :=
  fun w =>
    match m w with
    | (Ok a, w') => (Ok a, w')
    | (Fail e, w') => (Fail (f e), w')
    | (OutOfFuel, w') => (OutOfFuel, w')
    end.

(** [v, err := f(); if err != nil { ... }] where the caller goes on. *)
Definition try {W E E' A} (m : M W E A) : M W E' (E + A) :=
  fun w =>
    match m w with
    | (Ok a, w') => (Ok (inr a), w')
    | (Fail e, w') => (Ok (inl e), w')
    | (OutOfFuel, w') => (OutOfFuel, w')
    end.

(** A store read: logged, contents unchanged. *)
Definition dbRead {St E A} (c : Call) (q : St -> A) : M (World St) E A :=
  fun w => (Ok (q (store w)),
            mkWorld (store w) (trace w ++ [c]) (queue w) (clock w) (entropy w)).

(** A store write: logged, contents replaced. *)
Definition dbWrite {St E} (c : Call) (q : St -> option error * St)
  : M (World St) E (option error) :=
  fun w => let '(err, s') := q (store w) in
           (Ok err, mkWorld s' (trace w ++ [c]) (queue w) (clock w) (entropy w)).

(** [p.state.Workers.EnqueueClientAPI(ctx, msgs...)]: one batch accepted. *)
Definition EnqueueClientAPI {St E} (msgs : list FromClientAPI)
  : M (World St) E unit :=
  fun w => (Ok tt,
            mkWorld (store w) (trace w) (queue w ++ [msgs]) (clock w) (entropy w)).

(** [time.Now()] *)
Definition time_Now {St E} : M (World St) E Time := fun w => (Ok (clock w), w).

(** One draw from the entropy source. *)
Definition drawEntropy {St E} : M (World St) E nat :=
  fun w => (Ok (entropy w),
            mkWorld (store w) (trace w) (queue w) (clock w) (S (entropy w))).

(** [for _, x := range xs { acc = body(acc, x) }] with early return. *)
Fixpoint forRange {W E A B} (xs : list A) (acc : B) (body : B -> A -> M W E B)
  : M W E B :=
  match xs with
  | [] => mret acc
  | x :: rest => acc' ← body acc x; forRange rest acc' body
  end.

(* ===================================================================== *)
(** * internal/processing/account/delete.go                              *)
(* ===================================================================== *)

Definition deleteSelectLimit : Z := 50.

(** stubbifyAccount: the account pointer's fields after the call and the
    returned column names.  [now] is the value [time.Now()] gave. *)
Definition stubbifyAccount (now : Time) (account : Account) (origin : string)
  : Account * list string :=
  ({| ID := ID account;
      Username := Username account;
      Domain := Domain account;
      FetchedAt := never;
      AvatarMediaAttachmentID := "";
      AvatarRemoteURL := "";
      HeaderMediaAttachmentID := "";
      HeaderRemoteURL := "";
      DisplayName := "";
      EmojiIDs := [];
      Emojis := [];
      Fields := [];
      Note := "";
      NoteRaw := "";
      Memorial := Some false;
      AlsoKnownAs := "";
      MovedToAccountID := "";
      Reason := "";
      Discoverable := Some false;
      StatusContentType := "";
      CustomCSS := "";
      SuspendedAt := now;
      SuspensionOrigin := origin;
      HideCollections := Some true;
      EnableRSS := Some false |},
   [ "fetched_at";
     "avatar_media_attachment_id";
     "avatar_remote_url";
     "header_media_attachment_id";
     "header_remote_url";
     "display_name";
     "emojis";
     "fields";
     "note";
     "note_raw";
     "memorial";
     "also_known_as";
     "moved_to_account_id";
     "reason";
     "discoverable";
     "status_content_type";
     "custom_css";
     "suspended_at";
     "suspension_origin";
     "hide_collections";
     "enable_rss" ]).

(** stubbifyUser: the user pointer's fields after the call, the returned
    column names and the returned error.  On either early return the user
    has not been touched and the column slice is nil. *)
Definition stubbifyUser (cr : Crypto) (seed : nat) (user : User)
  : User * list string * option error :=
  match uuid_New_MarshalBinary cr seed with
  | inl err => (user, [], Some err)
  | inr uuid =>
    match bcrypt_GenerateFromPassword cr seed uuid bcrypt_DefaultCost with
    | inl err => (user, [], Some err)
    | inr dummyPassword =>
      ({| UserID := UserID user;
          UserAccountID := UserAccountID user;
          Email := Email user;
          EncryptedPassword := String.string_of_list_byte dummyPassword;
          SignUpIP := IPv4zero;
          CurrentSignInAt := never;
          CurrentSignInIP := IPv4zero;
          LastSignInAt := never;
          LastSignInIP := IPv4zero;
          SignInCount := 1;
          Locale := "";
          CreatedByApplicationID := "";
          LastEmailedAt := never;
          ConfirmationToken := "";
          ConfirmationSentAt := never;
          ResetPasswordToken := "";
          ResetPasswordSentAt := never |},
       [ "encrypted_password";
         "sign_up_ip";
         "current_sign_in_at";
         "current_sign_in_ip";
         "last_sign_in_at";
         "last_sign_in_ip";
         "sign_in_count";
         "locale";
         "created_by_application_id";
         "last_emailed_at";
         "confirmation_token";
         "confirmation_sent_at";
         "reset_password_token";
         "reset_password_sent_at" ],
       None)
    end
  end.

(** The policy closure of unfollowSideEffectsFunc: chosen once from the
    deleted account, then applied to [(account, follow)] per edge. *)
Definition unfollowSideEffectsFunc (deletedAccount : Account)
  : Account -> Follow -> option FromClientAPI :=
  if negb (IsLocal deletedAccount) then
    fun account follow => None
  else
    fun account follow =>
      match FollowTargetAccount follow with
      | None => None
      | Some targetAccount =>
        if IsLocal targetAccount then None
        else Some {| APObjectType := ap.ActivityFollow;
                     APActivityType := ap.ActivityUndo;
                     GTSModelOf := FollowModel follow;
                     OriginAccount := Some account;
                     TargetAccount := Some targetAccount |}
      end.

(** The follow that deleteAccountFollows dummies out of a follow request. *)
Definition dummyFollow (followRequest : FollowRequest) : Follow :=
  {| FollowID := "";
     FollowURI := FollowRequestURI followRequest;
     FollowAccountID := FollowRequestAccountID followRequest;
     FollowAccount := FollowRequestAccount followRequest;
     FollowTargetAccountID := FollowRequestTargetAccountID followRequest;
     FollowTargetAccount := FollowRequestTargetAccount followRequest |}.

(** [status.Account = account] *)
Definition setStatusAccount (status : Status) (account : Account) : Status :=
  {| StatusID := StatusID status;
     StatusAccountID := StatusAccountID status;
     StatusAccount := Some account;
     StatusBoostOfID := StatusBoostOfID status |}.

Definition deleteNoteMsg (status : Status) (account : Account) : FromClientAPI :=
  {| APObjectType := ap.ObjectNote;
     APActivityType := ap.ActivityDelete;
     GTSModelOf := StatusModel status;
     OriginAccount := Some account;
     TargetAccount := Some account |}.

Definition undoAnnounceMsg (status : Status) (boostAccount : option Account)
  (account : Account) : FromClientAPI :=
  {| APObjectType := ap.ActivityAnnounce;
     APActivityType := ap.ActivityUndo;
     GTSModelOf := StatusModel status;
     OriginAccount := boostAccount;
     TargetAccount := Some account |}.

Section Processor.
Context {St : Type} (DB : db.DB St) (cr : Crypto).

(** The body of [for _, t := range tokens]. *)
Definition deleteTokens (t : Token) : M (World St) error unit :=
  err ← dbWrite (CDeleteByID_Client (TokenClientID t))
                (DeleteByID_Client DB (TokenClientID t));
  check err (Errorf "deleteUserAndTokensForAccount: db error deleting client");;
  err ← dbWrite (CDeleteWhere_Application (TokenClientID t))
                (DeleteWhere_Application DB (TokenClientID t));
  check err (Errorf "deleteUserAndTokensForAccount: db error deleting application");;
  err ← dbWrite (CDeleteByID_Token (TokenID t))
                (DeleteByID_Token DB (TokenID t));
  check err (Errorf "deleteUserAndTokensForAccount: db error deleting token").

Definition deleteUserAndTokensForAccount (account : Account) : M (World St) error unit :=
  r ← dbRead (CGetUserByAccountID (ID account))
             (GetUserByAccountID DB (ID account));
  match r with
  | inl err =>
    fail (Errorf "deleteUserAndTokensForAccount: db error getting user" err)
  | inr user =>
    '(tokens, err) ← dbRead (CGetWhere_Token (UserID user))
                            (GetWhere_Token DB (UserID user));
    check err (Errorf "deleteUserAndTokensForAccount: db error getting tokens");;
    forRange tokens tt (fun _ t => deleteTokens t);;
    seed ← drawEntropy;
    let '(user', columns, err) := stubbifyUser cr seed user in
    check err (Errorf "deleteUserAndTokensForAccount: error stubbifying user");;
    err ← dbWrite (CUpdateUser user' columns) (UpdateUser DB user' columns);
    check err (Errorf "deleteUserAndTokensForAccount: db error updating user")
  end.

Definition deleteAccountFollows (account : Account) : M (World St) error unit :=
  (* Delete follows targeting this account. *)
  '(followedBy, err) ← dbRead (CGetAccountFollowers (ID account))
                              (GetAccountFollowers DB (ID account));
  check (realError err)
    (Errorf ("deleteAccountFollows: db error getting follows targeting account "
             +:+ ID account));;
  forRange followedBy tt (fun _ follow =>
    err ← dbWrite (CDeleteFollowByID (FollowID follow))
                  (DeleteFollowByID DB (FollowID follow));
    check err
      (Errorf "deleteAccountFollows: db error unfollowing account followedBy"));;
  (* Delete follow requests targeting this account. *)
  '(followRequestedBy, err) ← dbRead (CGetAccountFollowRequests (ID account))
                                     (GetAccountFollowRequests DB (ID account));
  check (realError err)
    (Errorf ("deleteAccountFollows: db error getting follow requests targeting account "
             +:+ ID account));;
  forRange followRequestedBy tt (fun _ followRequest =>
    err ← dbWrite (CDeleteFollowRequestByID (FollowRequestID followRequest))
                  (DeleteFollowRequestByID DB (FollowRequestID followRequest));
    check err
      (Errorf "deleteAccountFollows: db error unfollowing account followRequestedBy"));;
  let msgs : list FromClientAPI := [] in
  let unfollowSideEffects := unfollowSideEffectsFunc account in
  (* Delete follows originating from this account. *)
  '(following, err) ← dbRead (CGetAccountFollows (ID account))
                             (GetAccountFollows DB (ID account));
  check (realError err)
    (Errorf ("deleteAccountFollows: db error getting follows owned by account "
             +:+ ID account));;
  msgs ← forRange following msgs (fun msgs follow =>
    err ← dbWrite (CDeleteFollowByID (FollowID follow))
                  (DeleteFollowByID DB (FollowID follow));
    check err (Errorf "deleteAccountFollows: db error unfollowing account");;
    match unfollowSideEffects account follow with
    | Some msg => mret (msgs ++ [msg])
    | None => mret msgs
    end);
  (* Delete follow requests originating from this account. *)
  '(followRequesting, err) ← dbRead (CGetAccountFollowRequesting (ID account))
                                    (GetAccountFollowRequesting DB (ID account));
  check (realError err)
    (Errorf ("deleteAccountFollows: db error getting follow requests owned by account "
             +:+ ID account));;
  msgs ← forRange followRequesting msgs (fun msgs followRequest =>
    err ← dbWrite (CDeleteFollowRequestByID (FollowRequestID followRequest))
                  (DeleteFollowRequestByID DB (FollowRequestID followRequest));
    check err
      (Errorf "deleteAccountFollows: db error unfollowingRequesting account");;
    let follow := dummyFollow followRequest in
    match unfollowSideEffects account follow with
    | Some msg => mret (msgs ++ [msg])
    | None => mret msgs
    end);
  (* Process accreted messages asynchronously. *)
  EnqueueClientAPI msgs.

Definition deleteAccountBlocks (account : Account) : M (World St) error unit :=
  err ← dbWrite (CDeleteAccountBlocks (ID account))
                (DeleteAccountBlocks DB (ID account));
  check err
    (Errorf ("deleteAccountBlocks: db error deleting account blocks for "
             +:+ ID account)).

(** The body of [for _, boost := range boosts]. *)
Definition boostStep (account : Account) (status : Status)
  (msgs : list FromClientAPI) (boost : Status) : M (World St) error (list FromClientAPI) :=
  match StatusAccount boost with
  | Some boostAcc =>
    mret (msgs ++ [undoAnnounceMsg status (Some boostAcc) account])
  | None =>
    (* Fetch the relevant account for this status boost. *)
    r ← dbRead (CGetAccountByID (StatusAccountID boost))
               (GetAccountByID DB (StatusAccountID boost));
    match r with
    | inl err =>
      if isErrNoEntries err then
        mret msgs (* warn, continue *)
      else
        fail (Errorf ("deleteAccountStatuses: error fetching boosted status account for "
                      +:+ StatusAccountID boost) err)
    | inr boostAcc =>
      mret (msgs ++ [undoAnnounceMsg status (Some boostAcc) account])
    end
  end.

(** The body of [for _, status := range statuses]. *)
Definition statusStep (account : Account)
  (msgs : list FromClientAPI) (status : Status) : M (World St) error (list FromClientAPI) :=
  let status := setStatusAccount status account in
  let msgs := msgs ++ [deleteNoteMsg status account] in
  (* Look for any boosts of this status in DB. *)
  '(boosts, err) ← dbRead (CGetStatusReblogs status) (GetStatusReblogs DB status);
  check (realError err)
    (Errorf ("deleteAccountStatuses: error fetching status reblogs for "
             +:+ StatusID status));;
  forRange boosts msgs (boostStep account status).

(** [statusLoop: for { ... }], bounded by [fuel] iterations. *)
Fixpoint statusLoop (fuel : nat) (account : Account) (maxID : string)
  (msgs : list FromClientAPI) : M (World St) error (list FromClientAPI) :=
  match fuel with
  | O => outOfFuel
  | S fuel' =>
    (* Page through account's statuses. *)
    '(statuses, err) ← dbRead
        (CGetAccountStatuses (ID account) deleteSelectLimit maxID)
        (GetAccountStatuses DB (ID account) deleteSelectLimit
                            false false maxID "" false false);
    check (realError err) (fun e => e);;
    match last statuses with
    | None => mret msgs (* len(statuses) == 0: break statusLoop *)
    | Some lastStatus =>
      (* Update next maxID from last status. *)
      let maxID := StatusID lastStatus in
      msgs ← forRange statuses msgs (statusStep account);
      statusLoop fuel' account maxID msgs
    end
  end.

Definition deleteAccountStatuses (fuel : nat) (account : Account)
  : M (World St) error unit :=
  msgs ← statusLoop fuel account "" [];
  (* Batch process all accreted messages. *)
  EnqueueClientAPI msgs.

Definition deleteAccountNotifications (account : Account) : M (World St) error unit :=
  (* Delete all notifications of all types targeting given account. *)
  err ← dbWrite (CDeleteNotifications (ID account) "")
                (DeleteNotifications DB (ID account) "");
  check (realError err) (fun e => e);;
  (* Delete all notifications of all types originating from given account. *)
  err ← dbWrite (CDeleteNotifications "" (ID account))
                (DeleteNotifications DB "" (ID account));
  check (realError err) (fun e => e).

Definition deleteAccountPeripheral (account : Account) : M (World St) error unit :=
  (* Delete all bookmarks owned by given account. *)
  err ← dbWrite (CDeleteStatusBookmarks (ID account) "")
                (DeleteStatusBookmarks DB (ID account) "");
  check (realError err) (fun e => e);;
  (* Delete all bookmarks targeting given account. *)
  err ← dbWrite (CDeleteStatusBookmarks "" (ID account))
                (DeleteStatusBookmarks DB "" (ID account));
  check (realError err) (fun e => e);;
  (* Delete all faves owned by given account. *)
  err ← dbWrite (CDeleteStatusFaves (ID account) "")
                (DeleteStatusFaves DB (ID account) "");
  check (realError err) (fun e => e);;
  (* Delete all faves targeting given account. *)
  err ← dbWrite (CDeleteStatusFaves "" (ID account))
                (DeleteStatusFaves DB "" (ID account));
  check (realError err) (fun e => e).

(** Delete and DeleteSelf return a gtserror.WithCode: a nil return is [Ok],
    an error return is [Fail] with the coded error.  Delete's [Ok] carries
    the account as the pointer holds it afterwards. *)
Definition Delete (fuel : nat) (account : Account) (origin : string)
  : M (World St) WithCode Account :=
  (if IsLocal account
   then mapErr ErrorInternalError (deleteUserAndTokensForAccount account)
   else mret tt);;
  mapErr ErrorInternalError (deleteAccountFollows account);;
  mapErr ErrorInternalError (deleteAccountBlocks account);;
  mapErr ErrorInternalError (deleteAccountStatuses fuel account);;
  mapErr ErrorInternalError (deleteAccountNotifications account);;
  mapErr ErrorInternalError (deleteAccountPeripheral account);;
  now ← time_Now;
  let '(account', columns) := stubbifyAccount now account origin in
  err ← dbWrite (CUpdateAccount account' columns)
                (UpdateAccount DB account' columns);
  check err ErrorInternalError;;
  mret account'.

Definition DeleteSelf (account : Account) : M (World St) WithCode unit :=
  let fromClientAPIMessage :=
    {| APObjectType := ap.ActorPerson;
       APActivityType := ap.ActivityDelete;
       GTSModelOf := NoModel;
       OriginAccount := Some account;
       TargetAccount := Some account |} in
  (* Process the delete side effects asynchronously. *)
  EnqueueClientAPI [fromClientAPIMessage];;
  mret tt.

End Processor.

(* ===================================================================== *)
(** * internal/db/bundb/media.go                                         *)
(* ===================================================================== *)

Module bundb.

(** The statements [m.conn] executes for this file's point operations. *)
Inductive Query :=
| QSelectByID (id : string)
| QInsert (media : MediaAttachment)
| QUpdate (media : MediaAttachment) (columns : list string)
| QDelete (id : string).

(** The connection [m.conn] over store contents [St]; each answer is the
    statement's error after [ProcessError]. *)
Record DBConn (St : Type) := {
  SelectByID : string -> St -> error + MediaAttachment;
  Insert : MediaAttachment -> St -> option error * St;
  Update : MediaAttachment -> list string -> St -> option error * St;
  DeleteRow : string -> St -> option error * St
}.

(** The state behind a [mediaDB]: store contents, the log of statements
    (oldest first), the media cache with the log of its [Load] calls
    (oldest first), and the clock.  A cache entry is indexed by lookup
    name and key. *)
Record MediaWorld (St : Type) := mkMediaWorld {
  contents : St;
  statements : list Query;
  cache : gmap (string * string) MediaAttachment;
  loads : list (string * string);
  wallclock : Time
}.

End bundb.
Export bundb.

Arguments SelectByID {St}.
Arguments Insert {St}.
Arguments Update {St}.
Arguments DeleteRow {St}.
Arguments mkMediaWorld {St}.
Arguments contents {St}.
Arguments statements {St}.
Arguments cache {St}.
Arguments loads {St}.
Arguments wallclock {St}.

Section MediaCache.
Context {St : Type}.

Definition connRead {E A} (q : Query) (f : St -> A) : M (MediaWorld St) E A :=
  fun w => (Ok (f (contents w)),
            mkMediaWorld (contents w) (statements w ++ [q]) (cache w)
                         (loads w) (wallclock w)).

Definition connExec {E} (q : Query) (f : St -> option error * St)
  : M (MediaWorld St) E (option error) :=
  fun w => let '(err, s') := f (contents w) in
           (Ok err,
            mkMediaWorld s' (statements w ++ [q]) (cache w)
                         (loads w) (wallclock w)).

Definition cacheGet {E} (key : string * string)
  : M (MediaWorld St) E (option MediaAttachment) :=
  fun w => (Ok (cache w !! key), w).

Definition cachePut {E} (key : string * string) (v : MediaAttachment)
  : M (MediaWorld St) E unit :=
  fun w => (Ok tt,
            mkMediaWorld (contents w) (statements w) (<[key := v]> (cache w))
                         (loads w) (wallclock w)).

Definition cacheDrop {E} (key : string * string) : M (MediaWorld St) E unit :=
  fun w => (Ok tt,
            mkMediaWorld (contents w) (statements w) (delete key (cache w))
                         (loads w) (wallclock w)).

Definition logLoad {E} (key : string * string) : M (MediaWorld St) E unit :=
  fun w => (Ok tt,
            mkMediaWorld (contents w) (statements w) (cache w)
                         (loads w ++ [key]) (wallclock w)).

Definition media_time_Now {E} : M (MediaWorld St) E Time :=
  fun w => (Ok (wallclock w), w).

(** Modelled from the spec: the cache behind [m.state.Caches.GTS.Media()]
    is not among the three files.  [Load]: "On hit, returns the cached
    value.  On miss, invokes loaderFn against the Persistent Store; ...
    On success the result is cached and returned; on failure nothing is
    cached and the error propagates." *)
Definition Cache_Load (lookup : string) (loaderFn : M (MediaWorld St) error MediaAttachment)
  (keyPart : string) : M (MediaWorld St) error MediaAttachment :=
  logLoad (lookup, keyPart);;
  hit ← cacheGet (lookup, keyPart);
  match hit with
  | Some v => mret v
  | None =>
    v ← loaderFn;
    cachePut (lookup, keyPart) v;;
    mret v
  end.

(** Modelled from the spec: [Store]: "executes persistFn (insert or update)
    against the Persistent Store first; only on success does it write the
    value into the cache, keyed by primary id." *)
Definition Cache_Store (entity : MediaAttachment) (persistFn : M (MediaWorld St) error unit)
  : M (MediaWorld St) error unit :=
  persistFn;;
  cachePut ("ID", MediaID entity) entity.

(** Modelled from the spec: [Invalidate]: "invalidates any cache entries
    indexed by the given key". *)
Definition Cache_Invalidate (lookup key : string) : M (MediaWorld St) error unit :=
  cacheDrop (lookup, key).

End MediaCache.

Section MediaDB.
Context {St : Type} (conn : DBConn St).

Definition getAttachment (lookup : string)
  (dbQuery : M (MediaWorld St) error MediaAttachment) (keyPart : string)
  : M (MediaWorld St) error MediaAttachment :=
  Cache_Load lookup dbQuery keyPart.

Definition GetAttachmentByID (id : string) : M (MediaWorld St) error MediaAttachment :=
  getAttachment "ID"
    (r ← connRead (QSelectByID id) (SelectByID conn id);
     match r with
     | inl err => fail err
     | inr attachment => mret attachment
     end)
    id.

(** The result is the returned slice; the returned error is nil on [Ok]. *)
Definition GetAttachmentsByIDs (ids : list string)
  : M (MediaWorld St) error (list MediaAttachment) :=
  forRange ids [] (fun attachments id =>
    (* Attempt fetch from DB *)
    r ← try (GetAttachmentByID id);
    match r with
    | inl err => mret attachments (* log.Errorf, continue *)
    | inr attachment => mret (attachments ++ [attachment])
    end).

Definition PutAttachment (media : MediaAttachment) : M (MediaWorld St) error unit :=
  Cache_Store media
    (err ← connExec (QInsert media) (Insert conn media);
     check err (fun e => e)).

Definition setUpdatedAt (media : MediaAttachment) (t : Time) : MediaAttachment :=
  {| MediaID := MediaID media;
     MediaStatusID := MediaStatusID media;
     MediaURL := MediaURL media;
     MediaUpdatedAt := t |}.

(** UpdateAttachment: the media pointer's fields after the call next to
    the returned error. *)
Definition UpdateAttachment (media : MediaAttachment) (columns : list string)
  : M (MediaWorld St) error (MediaAttachment * option error) :=
  now ← media_time_Now;
  let media := setUpdatedAt media now in
  let columns :=
    if bool_decide (0 < length columns)%nat
    then columns ++ ["updated_at"] (* ensure "updated_at" is included *)
    else columns in
  r ← try (Cache_Store media
             (err ← connExec (QUpdate media columns) (Update conn media columns);
              check err (fun e => e)));
  match r with
  | inl err => mret (media, Some err)
  | inr _ => mret (media, None)
  end.

Definition DeleteAttachment (id : string) : M (MediaWorld St) error unit :=
  (* Attempt to delete from database. *)
  err ← connExec (QDelete id) (DeleteRow conn id);
  check err (fun e => e);;
  (* Invalidate this media item from the cache. *)
  Cache_Invalidate "ID" id.

End MediaDB.

(* ===================================================================== *)
(** * internal/processing/admin/media.go                                 *)
(* ===================================================================== *)

Module admin.

(** The media manager behind [p.mediaManager], over its own state [Mg]:
    [PruneAll(ctx, mediaRemoteCacheDays, dry)]. *)
Record Manager (Mg : Type) := {
  PruneAll : Z -> bool -> Mg -> option error * Mg
}.

(** The manager's state and the log of [PruneAll] calls (oldest first). *)
Record AdminWorld (Mg : Type) := mkAdminWorld {
  manager : Mg;
  pruneCalls : list (Z * bool)
}.

End admin.
Export admin.

Arguments PruneAll {Mg}.
Arguments mkAdminWorld {Mg}.
Arguments manager {Mg}.
Arguments pruneCalls {Mg}.

Section Admin.
Context {Mg : Type} (mediaManager : Manager Mg).

Definition callPruneAll {E} (mediaRemoteCacheDays : Z) (dry : bool)
  : M (AdminWorld Mg) E (option error) :=
  fun w => let '(err, m') := PruneAll mediaManager mediaRemoteCacheDays dry (manager w) in
           (Ok err, mkAdminWorld m' (pruneCalls w ++ [(mediaRemoteCacheDays, dry)])).

(** MediaPrune: a nil return is [Ok tt], an error return is [Fail].
    [mediaRemoteCacheDays] is a Go int; the function only compares it
    with 0 and prints it. *)
Definition MediaPrune (mediaRemoteCacheDays : Z) : M (AdminWorld Mg) WithCode unit :=
  if bool_decide (mediaRemoteCacheDays < 0) then
    let msg := "MediaPrune: invalid value for mediaRemoteCacheDays prune: value was "
               +:+ pretty mediaRemoteCacheDays +:+ ", cannot be less than 0" in
    fail (ErrorBadRequest (ErrNew msg) msg)
  else
    err ← callPruneAll mediaRemoteCacheDays false;
    check err (fun e => ErrorInternalError (Errorf "MediaPrune" e)).

End Admin.

(* ===================================================================== *)
(** * The store's listing contract and a reference store                  *)
(* ===================================================================== *)

(** [id1 < id2] on ids, the lexical order of Go strings. *)
Definition idLt (id1 id2 : string) : bool := String.ltb id1 id2.

(** Modelled from the spec: the statement behind [GetAccountStatuses] is
    not among the three files.  "paginated listing with cursor and
    limit": over the account's rows in descending id order, "an optional
    exclusive-upper-bound cursor (strictly less than a given id,
    descending order) and an optional row limit (zero meaning
    unlimited)". *)
Definition statusPage (rows : list Status) (limit : Z) (maxID : string)
  : list Status :=
  let below :=
    filter (fun s => maxID = "" ∨ idLt (StatusID s) maxID = true) rows in
  if bool_decide (limit = 0) then below else take (Z.to_nat limit) below.

(** Rows are in strictly descending id order. *)
Fixpoint descending (rows : list Status) : bool :=
  match rows with
  | [] => true
  | s :: rest =>
    forallb (fun s' => idLt (StatusID s') (StatusID s)) rest && descending rest
  end.

(** No row has the empty id (the empty string is "no cursor"). *)
Definition idsNonEmpty (rows : list Status) : bool :=
  forallb (fun s => negb (bool_decide (StatusID s = ""))) rows.

Module memstore.

(** Modelled from the spec: a store in memory that meets the Persistent
    Store interface of spec section 6 ("point lookups by id, filtered
    lookups ..., paginated listing with cursor and limit, ... partial-column
    update, delete-by-id, delete-by-filter; must expose a distinguishable
    no matching rows result").  It holds the tables the cascade reads rows
    from; status rows are kept in descending id order.  Blocks,
    notifications, bookmarks and faves are not held: deleting them by
    filter matches no row. *)
Record MemStore := mkMemStore {
  users : list User;
  tokens : list Token;
  follows : list Follow;
  followRequests : list FollowRequest;
  statuses : list Status;
  accounts : list Account
}.

(** A listing that matched nothing answers no matching rows. *)
Definition listing {A} (rows : list A) : list A * option error :=
  match rows with
  | [] => ([], Some ErrNoEntries)
  | _ => (rows, None)
  end.

Definition memDB : DB MemStore := {|
  GetUserByAccountID accountID s :=
    match filter (fun u => UserAccountID u = accountID) (users s) with
    | u :: _ => inr u
    | [] => inl ErrNoEntries
    end;
  GetWhere_Token userID s :=
    (filter (fun t => TokenUserID t = userID) (tokens s), None);
  DeleteByID_Client id s := (None, s);
  DeleteWhere_Application clientID s := (None, s);
  DeleteByID_Token id s :=
    (None,
     mkMemStore (users s) (filter (fun t => TokenID t ≠ id) (tokens s))
                (follows s) (followRequests s) (statuses s) (accounts s));
  UpdateUser user columns s :=
    (None,
     mkMemStore
       (user :: filter (fun u => UserID u ≠ UserID user) (users s))
       (tokens s) (follows s) (followRequests s) (statuses s) (accounts s));
  GetAccountFollowers accountID s :=
    listing (filter (fun f => FollowTargetAccountID f = accountID) (follows s));
  GetAccountFollowRequests accountID s :=
    listing (filter (fun f => FollowRequestTargetAccountID f = accountID)
                    (followRequests s));
  GetAccountFollows accountID s :=
    listing (filter (fun f => FollowAccountID f = accountID) (follows s));
  GetAccountFollowRequesting accountID s :=
    listing (filter (fun f => FollowRequestAccountID f = accountID)
                    (followRequests s));
  DeleteFollowByID id s :=
    (None,
     mkMemStore (users s) (tokens s)
                (filter (fun f => FollowID f ≠ id) (follows s))
                (followRequests s) (statuses s) (accounts s));
  DeleteFollowRequestByID id s :=
    (None,
     mkMemStore (users s) (tokens s) (follows s)
                (filter (fun f => FollowRequestID f ≠ id) (followRequests s))
                (statuses s) (accounts s));
  DeleteAccountBlocks accountID s := (None, s);
  GetAccountStatuses accountID limit excludeReplies excludeReblogs
                     maxID minID mediaOnly publicOnly s :=
    listing (statusPage
               (filter (fun st => StatusAccountID st = accountID) (statuses s))
               limit maxID);
  GetStatusReblogs status s :=
    listing (filter (fun st => StatusBoostOfID st = StatusID status) (statuses s));
  GetAccountByID id s :=
    match filter (fun a => ID a = id) (accounts s) with
    | a :: _ => inr a
    | [] => inl ErrNoEntries
    end;
  DeleteNotifications targetAccountID originAccountID s := (Some ErrNoEntries, s);
  DeleteStatusBookmarks accountID targetAccountID s := (Some ErrNoEntries, s);
  DeleteStatusFaves accountID targetAccountID s := (Some ErrNoEntries, s);
  UpdateAccount account columns s :=
    (None,
     mkMemStore (users s) (tokens s) (follows s) (followRequests s) (statuses s)
                (account :: filter (fun a => ID a ≠ ID account) (accounts s)))
|}.

(** An entropy source whose draws succeed and one whose draws fail. *)
Definition okCrypto : Crypto := {|
  uuid_New_MarshalBinary seed := inr (replicate 16 x2a);
  bcrypt_GenerateFromPassword seed password cost :=
    inr (String.list_byte_of_string "$2a$10$stub")
|}.

Definition brokenCrypto : Crypto := {|
  uuid_New_MarshalBinary seed := inr (replicate 16 x2a);
  bcrypt_GenerateFromPassword seed password cost :=
    inl (ErrNew "bcrypt: cost out of range")
|}.

Definition mkAccount (id username domain : string) : Account :=
  {| ID := id; Username := username; Domain := domain;
     FetchedAt := 1700000000;
     AvatarMediaAttachmentID := "av"; AvatarRemoteURL := "";
     HeaderMediaAttachmentID := "hd"; HeaderRemoteURL := "";
     DisplayName := username;
     EmojiIDs := ["e1"]; Emojis := [ {| EmojiID := "e1"; Shortcode := "blob" |} ];
     Fields := [ {| FieldName := "site"; FieldValue := "example.org" |} ];
     Note := "<p>hi</p>"; NoteRaw := "hi";
     Memorial := Some false; AlsoKnownAs := ""; MovedToAccountID := "";
     Reason := "because"; Discoverable := Some true;
     StatusContentType := "text/plain"; CustomCSS := "";
     SuspendedAt := never; SuspensionOrigin := "";
     HideCollections := Some false; EnableRSS := Some true |}.

Definition mkUser (id accountID email : string) : User :=
  {| UserID := id; UserAccountID := accountID; Email := email;
     EncryptedPassword := "$2a$10$original";
     SignUpIP := [x7f; x00; x00; x01];
     CurrentSignInAt := 1700000100; CurrentSignInIP := [x7f; x00; x00; x01];
     LastSignInAt := 1700000050; LastSignInIP := [x7f; x00; x00; x01];
     SignInCount := 7; Locale := "en"; CreatedByApplicationID := "app";
     LastEmailedAt := 1700000000;
     ConfirmationToken := "ct"; ConfirmationSentAt := 1690000000;
     ResetPasswordToken := ""; ResetPasswordSentAt := never |}.

Definition mkFollow (id : string) (source target : Account) : Follow :=
  {| FollowID := id; FollowURI := "https://example.org/follow/" +:+ id;
     FollowAccountID := ID source; FollowAccount := Some source;
     FollowTargetAccountID := ID target; FollowTargetAccount := Some target |}.

Definition mkStatus (id accountID boostOfID : string) : Status :=
  {| StatusID := id; StatusAccountID := accountID; StatusAccount := None;
     StatusBoostOfID := boostOfID |}.

Definition mkWorldOf (s : MemStore) : World MemStore :=
  mkWorld s [] [] 1700001000 0.

Definition alice : Account := mkAccount "01ALICE" "alice" "".
Definition bob : Account := mkAccount "01BOB" "bob" "".
Definition remo : Account := mkAccount "01REMO" "remo" "remote.example".

(** [n] status rows of [accountID] with ids "1<n-1>" down to "1000". *)
Definition statusRows (accountID : string) (n : nat) : list Status :=
  (fun i => mkStatus (pretty (1000 + i)%nat) accountID "") <$> reverse (seq 0 n).

End memstore.

(* ===================================================================== *)
(** * Fields and their db columns                                         *)
(* ===================================================================== *)

Inductive AccountField :=
| F_ID | F_Username | F_Domain | F_FetchedAt
| F_AvatarMediaAttachmentID | F_AvatarRemoteURL
| F_HeaderMediaAttachmentID | F_HeaderRemoteURL
| F_DisplayName | F_EmojiIDs | F_Emojis | F_Fields | F_Note | F_NoteRaw
| F_Memorial | F_AlsoKnownAs | F_MovedToAccountID | F_Reason
| F_Discoverable | F_StatusContentType | F_CustomCSS
| F_SuspendedAt | F_SuspensionOrigin | F_HideCollections | F_EnableRSS.

(** Modelled from the spec: the column tags of gtsmodel.Account are not
    among the three files.  A field's column is named as stubbifyAccount's
    return list names it, the snake case of the field name; the emoji ids
    and the emojis hydrated from them are the emoji references of the one
    "emojis" column. *)
Definition accountColumn (f : AccountField) : string :=
  match f with
  | F_ID => "id"
  | F_Username => "username"
  | F_Domain => "domain"
  | F_FetchedAt => "fetched_at"
  | F_AvatarMediaAttachmentID => "avatar_media_attachment_id"
  | F_AvatarRemoteURL => "avatar_remote_url"
  | F_HeaderMediaAttachmentID => "header_media_attachment_id"
  | F_HeaderRemoteURL => "header_remote_url"
  | F_DisplayName => "display_name"
  | F_EmojiIDs => "emojis"
  | F_Emojis => "emojis"
  | F_Fields => "fields"
  | F_Note => "note"
  | F_NoteRaw => "note_raw"
  | F_Memorial => "memorial"
  | F_AlsoKnownAs => "also_known_as"
  | F_MovedToAccountID => "moved_to_account_id"
  | F_Reason => "reason"
  | F_Discoverable => "discoverable"
  | F_StatusContentType => "status_content_type"
  | F_CustomCSS => "custom_css"
  | F_SuspendedAt => "suspended_at"
  | F_SuspensionOrigin => "suspension_origin"
  | F_HideCollections => "hide_collections"
  | F_EnableRSS => "enable_rss"
  end.

(** Field [f] holds the same value in [a] and [b]. *)
Definition accountFieldSame (f : AccountField) (a b : Account) : Prop :=
  match f with
  | F_ID => ID a = ID b
  | F_Username => Username a = Username b
  | F_Domain => Domain a = Domain b
  | F_FetchedAt => FetchedAt a = FetchedAt b
  | F_AvatarMediaAttachmentID =>
    AvatarMediaAttachmentID a = AvatarMediaAttachmentID b
  | F_AvatarRemoteURL => AvatarRemoteURL a = AvatarRemoteURL b
  | F_HeaderMediaAttachmentID =>
    HeaderMediaAttachmentID a = HeaderMediaAttachmentID b
  | F_HeaderRemoteURL => HeaderRemoteURL a = HeaderRemoteURL b
  | F_DisplayName => DisplayName a = DisplayName b
  | F_EmojiIDs => EmojiIDs a = EmojiIDs b
  | F_Emojis => Emojis a = Emojis b
  | F_Fields => Fields a = Fields b
  | F_Note => Note a = Note b
  | F_NoteRaw => NoteRaw a = NoteRaw b
  | F_Memorial => Memorial a = Memorial b
  | F_AlsoKnownAs => AlsoKnownAs a = AlsoKnownAs b
  | F_MovedToAccountID => MovedToAccountID a = MovedToAccountID b
  | F_Reason => Reason a = Reason b
  | F_Discoverable => Discoverable a = Discoverable b
  | F_StatusContentType => StatusContentType a = StatusContentType b
  | F_CustomCSS => CustomCSS a = CustomCSS b
  | F_SuspendedAt => SuspendedAt a = SuspendedAt b
  | F_SuspensionOrigin => SuspensionOrigin a = SuspensionOrigin b
  | F_HideCollections => HideCollections a = HideCollections b
  | F_EnableRSS => EnableRSS a = EnableRSS b
  end.

(** Modelled from the spec: the column tags of gtsmodel.User are not
    among the three files; the email column is named by the same rule. *)
Definition emailColumn : string := "email".

(** The world after one entropy draw, and after the store calls [cs]. *)
Definition bumpEntropy {St} (w : World St) : World St :=
  mkWorld (store w) (trace w) (queue w) (clock w) (S (entropy w)).

Definition logged {St} (w : World St) (cs : list Call) : World St :=
  mkWorld (store w) (trace w ++ cs) (queue w) (clock w) (entropy w).

Section BatchReadSpec.
Context {St : Type} (conn : DBConn St).

(** One load in the spec's words: a hit answers the cached value; a miss
    queries the store, caches a success and propagates a failure with
    nothing cached.  The answer and the world afterwards. *)
Definition loadOne (id : string) (w : MediaWorld St)
  : (error + MediaAttachment) * MediaWorld St :=
  let loads' := loads w ++ [("ID", id)] in
  match cache w !! ("ID", id) with
  | Some v =>
    (inr v, mkMediaWorld (contents w) (statements w) (cache w) loads' (wallclock w))
  | None =>
    let statements' := statements w ++ [QSelectByID id] in
    match SelectByID conn id (contents w) with
    | inr v =>
      (inr v, mkMediaWorld (contents w) statements' (<[("ID", id) := v]> (cache w))
                           loads' (wallclock w))
    | inl e =>
      (inl e, mkMediaWorld (contents w) statements' (cache w) loads' (wallclock w))
    end
  end.

(** The batch read in the spec's words: "issues one Load per id": the
    answer to each id's load, in the order of the ids, and the world after
    the last. *)
Fixpoint loadEach (ids : list string) (w : MediaWorld St)
  : list (error + MediaAttachment) * MediaWorld St :=
  match ids with
  | [] => ([], w)
  | id :: rest =>
    let '(out, w1) := loadOne id w in
    let '(outs, w2) := loadEach rest w1 in
    (out :: outs, w2)
  end.

(** "any individual failure is logged and the id is skipped" *)
Definition loaded (out : error + MediaAttachment) : option MediaAttachment :=
  match out with
  | inr attachment => Some attachment
  | inl _ => None
  end.

End BatchReadSpec.

(* ===================================================================== *)
(** * Stores on which a deletion has nothing left to do                   *)
(* ===================================================================== *)

(** A listing that answered nothing: no row, and a nil error or no
    matching rows. *)
Definition emptyListing {A} (r : list A * option error) : Prop :=
  r.1 = [] /\ realError r.2 = None.

Section Retry.
Context {St : Type} (DB : db.DB St).

(** The account's rows are gone: whatever the contents, each listing of
    the cascade answers nothing and each deletion by filter answers nil or
    no matching rows. *)
Record rowsGone (account : Account) : Prop := {
  gone_followers :
    forall s, emptyListing (GetAccountFollowers DB (ID account) s);
  gone_followRequests :
    forall s, emptyListing (GetAccountFollowRequests DB (ID account) s);
  gone_follows :
    forall s, emptyListing (GetAccountFollows DB (ID account) s);
  gone_followRequesting :
    forall s, emptyListing (GetAccountFollowRequesting DB (ID account) s);
  gone_statuses :
    forall s maxID,
      emptyListing (GetAccountStatuses DB (ID account) deleteSelectLimit
                                       false false maxID "" false false s);
  gone_notifications :
    forall s target origin,
      realError (DeleteNotifications DB target origin s).1 = None;
  gone_bookmarks :
    forall s owner target,
      realError (DeleteStatusBookmarks DB owner target s).1 = None;
  gone_faves :
    forall s owner target,
      realError (DeleteStatusFaves DB owner target s).1 = None
}.

(** The calls whose error is returned as it is answer nil. *)
Record writesSucceed (account : Account) : Prop := {
  ok_blocks : forall s, (DeleteAccountBlocks DB (ID account) s).1 = None;
  ok_account : forall a columns s, (UpdateAccount DB a columns s).1 = None
}.

(** The user of a local account is still there, has no token left, and
    can be stubbed and written. *)
Record userLeft (cr : Crypto) (account : Account) (user : User) : Prop := {
  left_user : forall s, GetUserByAccountID DB (ID account) s = inr user;
  left_tokens : forall s, GetWhere_Token DB (UserID user) s = ([], None);
  left_stub : forall seed, (stubbifyUser cr seed user).2 = None;
  left_update : forall u columns s, (UpdateUser DB u columns s).1 = None
}.

End Retry.

(** The store calls of a Delete that finds nothing left, after the user
    step: four listings of the follow step, the block deletion, one page of
    statuses, two notification deletions, four bookmark and fave
    deletions, and the account update. *)
Definition quietCalls (account account' : Account) (columns : list string)
  : list Call :=
  [ CGetAccountFollowers (ID account);
    CGetAccountFollowRequests (ID account);
    CGetAccountFollows (ID account);
    CGetAccountFollowRequesting (ID account);
    CDeleteAccountBlocks (ID account);
    CGetAccountStatuses (ID account) deleteSelectLimit "";
    CDeleteNotifications (ID account) "";
    CDeleteNotifications "" (ID account);
    CDeleteStatusBookmarks (ID account) "";
    CDeleteStatusBookmarks "" (ID account);
    CDeleteStatusFaves (ID account) "";
    CDeleteStatusFaves "" (ID account);
    CUpdateAccount account' columns ].

(** From [w] to [w']: the store calls [calls] were made and the batches
    [batches] enqueued, in that order, and the clock reads the same. *)
Definition advances {St} (w w' : World St) (calls : list Call)
  (batches : list (list FromClientAPI)) : Prop :=
  trace w' = trace w ++ calls /\
  queue w' = queue w ++ batches /\
  clock w' = clock w.

(* ===================================================================== *)
(** * What the status step is expected to emit                            *)
(* ===================================================================== *)

Section StatusEvents.
Context {St : Type} (DB : db.DB St).

(** The account a boost is attributed to: the one attached to the row,
    else the one the store finds by the row's account id, if any. *)
Definition booster (s : St) (boost : Status) : option Account :=
  match StatusAccount boost with
  | Some boostAcc => Some boostAcc
  | None =>
    match GetAccountByID DB (StatusAccountID boost) s with
    | inr boostAcc => Some boostAcc
    | inl _ => None
    end
  end.

(** The events of one status, in the spec's words: a "delete note" event
    (origin = target = the deleted account) and, for every existing reblog
    whose booster account is there, an "undo announce" event attributed to
    the booster account, targeting the deleted account. *)
Definition statusEvents (s : St) (account : Account) (status : Status)
  : list FromClientAPI :=
  let status := setStatusAccount status account in
  deleteNoteMsg status account
  :: omap (fun boost =>
             (fun boostAcc => undoAnnounceMsg status (Some boostAcc) account)
               <$> booster s boost)
          (GetStatusReblogs DB status s).1.

(** The store pages over [rows] for the account: every page query of the
    status step answers the page of [rows] below the cursor, with a nil
    error or no matching rows. *)
Definition pagesOver (s : St) (account : Account) (rows : list Status) : Prop :=
  forall maxID,
    (GetAccountStatuses DB (ID account) deleteSelectLimit
                        false false maxID "" false false s).1
      = statusPage rows deleteSelectLimit maxID /\
    realError (GetAccountStatuses DB (ID account) deleteSelectLimit
                                  false false maxID "" false false s).2 = None.

(** The reblogs of [rows] can be read: the listing gives no real error,
    and fetching the account of a boost that has none attached gives the
    account or no matching rows. *)
Definition reblogsReadable (s : St) (account : Account) (rows : list Status)
  : Prop :=
  forall status, status ∈ rows ->
    realError (GetStatusReblogs DB (setStatusAccount status account) s).2 = None /\
    forall boost,
      boost ∈ (GetStatusReblogs DB (setStatusAccount status account) s).1 ->
      StatusAccount boost = None ->
      match GetAccountByID DB (StatusAccountID boost) s with
      | inl err => isErrNoEntries err = true
      | inr _ => True
      end.

End StatusEvents.

Definition isPageCall (c : Call) : bool :=
  match c with
  | CGetAccountStatuses _ _ _ => true
  | _ => false
  end.

(** The page queries among the store calls [calls], in order. *)
Definition pageCalls (calls : list Call) : list Call :=
  filter (fun c => isPageCall c = true) calls.

Definition isDeleteNote (msg : FromClientAPI) : Prop :=
  APObjectType msg = ap.ObjectNote /\ APActivityType msg = ap.ActivityDelete.

Definition isUndoAnnounce (msg : FromClientAPI) : Prop :=
  APObjectType msg = ap.ActivityAnnounce /\ APActivityType msg = ap.ActivityUndo.

#[global] Instance APType_eq_dec : EqDecision ap.APType.
Proof. solve_decision. Defined.

#[global] Instance isDeleteNote_dec msg : Decision (isDeleteNote msg).
Proof. unfold isDeleteNote. apply _. Defined.

#[global] Instance isUndoAnnounce_dec msg : Decision (isUndoAnnounce msg).
Proof. unfold isUndoAnnounce. apply _. Defined.

(** Where the cursor stands after the rows [pre] have been paged: at the
    id of the last of them, and nowhere before the first page. *)
Definition cursorAfter (pre : list Status) : string :=
  match last pre with
  | Some lastStatus => StatusID lastStatus
  | None => ""
  end.

(** From [w] to [w'] only reads were made, none of them a page query:
    contents and queue are as before. *)
Definition readsOnly {St} (w w' : World St) : Prop :=
  store w' = store w /\ queue w' = queue w /\
  exists calls, trace w' = trace w ++ calls /\ pageCalls calls = [].

(** The cursors of the page queries the status loop makes within [fuel]
    further iterations, once [pre] has been paged and [post] is left. *)
Fixpoint pageCursors (fuel : nat) (pre post : list Status) : list string :=
  cursorAfter pre ::
  match fuel, post with
  | S fuel', _ :: _ =>
    pageCursors fuel' (pre ++ take (Z.to_nat deleteSelectLimit) post)
                (drop (Z.to_nat deleteSelectLimit) post)
  | _, _ => []
  end.

Section Reblogs.
Context {St : Type} (DB : db.DB St).

(** The existing reblogs of a status of the deleted account. *)
Definition existingReblogs (s : St) (account : Account) (status : Status)
  : list Status :=
  (GetStatusReblogs DB (setStatusAccount status account) s).1.

(** The booster accounts of those reblogs whose account is there. *)
Definition resolvedBoosts (s : St) (account : Account) (status : Status)
  : list Account :=
  omap (booster DB s) (existingReblogs s account status).

End Reblogs.

(** A computation that leaves the worker queue as it is, however it ends;
    and one that does so unless it returns normally. *)
Definition keepsQueue {St E A} (m : M (World St) E A) : Prop :=
  forall w r w', m w = (r, w') -> queue w' = queue w.

Definition enqueuesOnlyOnReturn {St E A} (m : M (World St) E A) : Prop :=
  forall w r w', m w = (r, w') -> queue w' = queue w \/ exists a, r = Ok a.

(* ===================================================================== *)
(** * Stores, accounts and rows to run the code on                       *)
(* ===================================================================== *)

Module fixtures.
Import memstore.

(** Alice (local) with her user row and one token. *)
Definition aliceStore : MemStore :=
  mkMemStore [mkUser "01USER" "01ALICE" "alice@example.org"]
             [ {| TokenID := "01TOKEN"; TokenClientID := "01CLIENT";
                  TokenUserID := "01USER" |} ]
             [] [] [] [alice].

End fixtures.

Module follow_fixtures.
Import memstore.

(** A follow whose target account record is missing. *)
Definition danglingFollow (id : string) (source : Account) : Follow :=
  {| FollowID := id; FollowURI := "https://example.org/follow/" +:+ id;
     FollowAccountID := ID source; FollowAccount := Some source;
     FollowTargetAccountID := "01GONE"; FollowTargetAccount := None |}.

Definition requestToRemo : FollowRequest :=
  {| FollowRequestID := "01R1";
     FollowRequestURI := "https://example.org/follow/01R1";
     FollowRequestAccountID := ID alice; FollowRequestAccount := Some alice;
     FollowRequestTargetAccountID := ID remo;
     FollowRequestTargetAccount := Some remo |}.

(** Alice follows remo (remote), bob (local) and a vanished account, has
    asked to follow remo, and is followed by bob. *)
Definition followStore : MemStore :=
  mkMemStore []
             []
             [ mkFollow "01F1" alice remo; mkFollow "01F2" alice bob;
               danglingFollow "01F3" alice; mkFollow "01F4" bob alice ]
             [ requestToRemo ]
             [] [alice; bob; remo].

(** Remo (remote) follows alice and bob; this server also knows that. *)
Definition remoteFollowStore : MemStore :=
  mkMemStore [] []
             [ mkFollow "01F5" remo alice; mkFollow "01F6" remo bob ]
             [] [] [alice; bob; remo].

End follow_fixtures.

Module media_fixtures.

(** A connection over a table of attachments held as a list; a select
    that matches no row answers no matching rows, an update of a missing
    row too. *)
Definition listConn : DBConn (list MediaAttachment) := {|
  SelectByID id rows :=
    match filter (fun m => MediaID m = id) rows with
    | m :: _ => inr m
    | [] => inl ErrNoEntries
    end;
  Insert media rows := (None, media :: rows);
  Update media columns rows :=
    match filter (fun m => MediaID m = MediaID media) rows with
    | [] => (Some ErrNoEntries, rows)
    | _ => (None, media :: filter (fun m => MediaID m ≠ MediaID media) rows)
    end;
  DeleteRow id rows := (None, filter (fun m => MediaID m ≠ id) rows)
|}.

Definition mkMedia (id : string) : MediaAttachment :=
  {| MediaID := id; MediaStatusID := ""; MediaURL := "https://example.org/" +:+ id;
     MediaUpdatedAt := 1600000000 |}.

Definition mediaWorld (rows : list MediaAttachment) : MediaWorld (list MediaAttachment) :=
  mkMediaWorld rows [] ∅ [] 1700002000.

End media_fixtures.

Module admin_fixtures.

(** A manager that counts the prunes it was asked for and never fails. *)
Definition countingManager : Manager nat := {|
  PruneAll mediaRemoteCacheDays dry n := (None, S n)
|}.

End admin_fixtures.

Module gone_fixtures.

(** A store without rows, holding at most one user row: every listing
    and every deletion by filter answers no matching rows, a lookup of a
    missing record too; the other calls answer nil. *)
Definition goneDB (user : option User) : DB unit := {|
  GetUserByAccountID accountID s :=
    match user with Some u => inr u | None => inl ErrNoEntries end;
  GetWhere_Token userID s := ([], None);
  DeleteByID_Client id s := (None, s);
  DeleteWhere_Application clientID s := (None, s);
  DeleteByID_Token id s := (None, s);
  UpdateUser user columns s := (None, s);
  GetAccountFollowers accountID s := ([], Some ErrNoEntries);
  GetAccountFollowRequests accountID s := ([], Some ErrNoEntries);
  GetAccountFollows accountID s := ([], Some ErrNoEntries);
  GetAccountFollowRequesting accountID s := ([], Some ErrNoEntries);
  DeleteFollowByID id s := (None, s);
  DeleteFollowRequestByID id s := (None, s);
  DeleteAccountBlocks accountID s := (None, s);
  GetAccountStatuses accountID limit excludeReplies excludeReblogs
                     maxID minID mediaOnly publicOnly s :=
    ([], Some ErrNoEntries);
  GetStatusReblogs status s := ([], Some ErrNoEntries);
  GetAccountByID id s := inl ErrNoEntries;
  DeleteNotifications targetAccountID originAccountID s := (Some ErrNoEntries, s);
  DeleteStatusBookmarks accountID targetAccountID s := (Some ErrNoEntries, s);
  DeleteStatusFaves accountID targetAccountID s := (Some ErrNoEntries, s);
  UpdateAccount account columns s := (None, s)
|}.

Definition aliceUser : User :=
  memstore.mkUser "01USER" "01ALICE" "alice@example.org".

Definition goneWorld : World unit := mkWorld tt [] [] 1700003000 5.

End gone_fixtures.

Module retry_fixtures.
Import memstore gone_fixtures.

(** As [goneDB None], but the block deletion too answers no matching
    rows. *)
Definition noBlocksDB : DB unit := {|
  GetUserByAccountID := GetUserByAccountID (goneDB None);
  GetWhere_Token := GetWhere_Token (goneDB None);
  DeleteByID_Client := DeleteByID_Client (goneDB None);
  DeleteWhere_Application := DeleteWhere_Application (goneDB None);
  DeleteByID_Token := DeleteByID_Token (goneDB None);
  UpdateUser := UpdateUser (goneDB None);
  GetAccountFollowers := GetAccountFollowers (goneDB None);
  GetAccountFollowRequests := GetAccountFollowRequests (goneDB None);
  GetAccountFollows := GetAccountFollows (goneDB None);
  GetAccountFollowRequesting := GetAccountFollowRequesting (goneDB None);
  DeleteFollowByID := DeleteFollowByID (goneDB None);
  DeleteFollowRequestByID := DeleteFollowRequestByID (goneDB None);
  DeleteAccountBlocks accountID s := (Some ErrNoEntries, s);
  GetAccountStatuses := GetAccountStatuses (goneDB None);
  GetStatusReblogs := GetStatusReblogs (goneDB None);
  GetAccountByID := GetAccountByID (goneDB None);
  DeleteNotifications := DeleteNotifications (goneDB None);
  DeleteStatusBookmarks := DeleteStatusBookmarks (goneDB None);
  DeleteStatusFaves := DeleteStatusFaves (goneDB None);
  UpdateAccount := UpdateAccount (goneDB None)
|}.

(** Alice with her user, a token, follows in both directions and three
    statuses; bob boosted one of them and so did an account that is gone. *)
Definition fullStore : MemStore :=
  mkMemStore
    [ mkUser "01USER" "01ALICE" "alice@example.org" ]
    [ {| TokenID := "01TOKEN"; TokenClientID := "01CLIENT";
         TokenUserID := "01USER" |} ]
    [ mkFollow "01F1" alice remo; mkFollow "01F4" bob alice ]
    []
    [ mkStatus "01S9" "01BOB" "01S3"; mkStatus "01S8" "01GONE" "01S3";
      mkStatus "01S3" "01ALICE" ""; mkStatus "01S2" "01ALICE" "";
      mkStatus "01S1" "01ALICE" "" ]
    [ alice; bob; remo ].

End retry_fixtures.

Module worker_fixtures.
Import memstore.

(** The world once the workers have processed the enqueued status
    deletions: the status rows are gone (Delete itself deletes none). *)
Definition afterWorkers (w : World MemStore) : World MemStore :=
  mkWorld (mkMemStore (users (store w)) (tokens (store w)) (follows (store w))
                      (followRequests (store w)) [] (accounts (store w)))
          (trace w) (queue w) (clock w) (entropy w).

End worker_fixtures.

Module status_fixtures.
Import memstore.

(** Alice with 120 statuses; bob boosted one of them, and so did an
    account of which the store has no record. *)
Definition aliceRows : list Status := statusRows "01ALICE" 120.

Definition store120 : MemStore :=
  mkMemStore [] [] [] []
             ([ mkStatus "2001" "01BOB" "1001"; mkStatus "2000" "01GONE" "1000" ]
              ++ aliceRows)
             [ alice; bob; remo ].

End status_fixtures.

(* ===================================================================== *)
(** * Footprints: what a computation may call                             *)
(* ===================================================================== *)

(** From [w] to [w'] the clock reads the same, the store calls added all
    satisfy [P], and the entropy source was drawn from only if [draws]. *)
Definition ran {St} (P : Call -> Prop) (draws : bool) (w w' : World St) : Prop :=
  clock w' = clock w /\
  (draws = false -> entropy w' = entropy w) /\
  exists calls, trace w' = trace w ++ calls /\ Forall P calls.

(** However [m] ends, it stays within the footprint. *)
Definition within {St E A} (P : Call -> Prop) (draws : bool)
  (m : M (World St) E A) : Prop :=
  forall w r w', m w = (r, w') -> ran P draws w w'.

(** [m] returns no coded error other than an internal error. *)
Definition failsInternally {St A} (m : M (World St) WithCode A) : Prop :=
  forall w c w', m w = (Fail c, w') -> exists err, c = ErrorInternalError err.

(** The store calls of the user step for [account]. *)
Definition userStepCall (account : Account) (c : Call) : Prop :=
  match c with
  | CGetUserByAccountID accountID => accountID = ID account
  | CGetWhere_Token _ | CDeleteByID_Client _ | CDeleteWhere_Application _
  | CDeleteByID_Token _ | CUpdateUser _ _ => True
  | _ => False
  end.

(** A deletion by filter names [account] on one side and nothing on the
    other. *)
Definition oneSided (account : Account) (a b : string) : Prop :=
  (a = ID account /\ b = "") \/ (a = "" /\ b = ID account).

(** The store calls of the cascade steps for [account], from the follow
    step to the bookmark and fave step: listings and deletions by filter
    name the account, pages are asked with the limit of 50, and reblogs
    are asked of a status that carries the account. *)
Definition cascadeCall (account : Account) (c : Call) : Prop :=
  match c with
  | CGetAccountFollowers accountID | CGetAccountFollowRequests accountID
  | CGetAccountFollows accountID | CGetAccountFollowRequesting accountID
  | CDeleteAccountBlocks accountID => accountID = ID account
  | CDeleteFollowByID _ | CDeleteFollowRequestByID _ | CGetAccountByID _ => True
  | CGetAccountStatuses accountID limit _ =>
    accountID = ID account /\ limit = deleteSelectLimit
  | CGetStatusReblogs status => StatusAccount status = Some account
  | CDeleteNotifications targetAccountID originAccountID =>
    oneSided account targetAccountID originAccountID
  | CDeleteStatusBookmarks accountID targetAccountID
  | CDeleteStatusFaves accountID targetAccountID =>
    oneSided account accountID targetAccountID
  | _ => False
  end.

(** The store calls of Delete before the account update: those of the
    user step, for a local account only, and those of the cascade. *)
Definition deleteCall (account : Account) (c : Call) : Prop :=
  (IsLocal account = true /\ userStepCall account c) \/ cascadeCall account c.

(** The shape of a run of Delete from [w] to [w'] with result [r]: the
    clock reads the same; entropy is drawn for a local account only; the
    store calls are calls of [deleteCall], followed or not by the one
    update of the account's stub; without that update the run did not
    return nil; and a coded error is an internal error. *)
Definition deleteRun {St} (account : Account) (origin : string)
  (w : World St) (r : Res WithCode Account) (w' : World St) : Prop :=
  let stub := stubbifyAccount (clock w) account origin in
  clock w' = clock w /\
  (IsLocal account = false -> entropy w' = entropy w) /\
  exists calls,
    Forall (deleteCall account) calls /\
    ((trace w' = trace w ++ calls /\
      (r = OutOfFuel \/ exists err, r = Fail (ErrorInternalError err))) \/
     (trace w' = trace w ++ calls ++ [CUpdateAccount stub.1 stub.2] /\
      (r = Ok stub.1 \/ exists err, r = Fail (ErrorInternalError err)))).

(** Calls on the user, token, client and application tables. *)
Definition isUserTableCall (c : Call) : bool :=
  match c with
  | CGetUserByAccountID _ | CGetWhere_Token _ | CDeleteByID_Client _
  | CDeleteWhere_Application _ | CDeleteByID_Token _ | CUpdateUser _ _ => true
  | _ => false
  end.

Definition isAccountUpdate (c : Call) : bool :=
  match c with
  | CUpdateAccount _ _ => true
  | _ => false
  end.

(** A store call of Delete that is about [account]: a call of
    [deleteCall], or an update of an account with the same id. *)
Definition aboutAccount (account : Account) (c : Call) : Prop :=
  deleteCall account c \/
  exists account' columns, c = CUpdateAccount account' columns /\
                           ID account' = ID account.

(* ===================================================================== *)
(** * The events of the two batches                                       *)
(* ===================================================================== *)

(** An event of the follow step for [account]: an "undo follow" from the
    account, which is local, to the target account of the edge it
    carries, which is not. *)
Definition followEvent (account : Account) (msg : FromClientAPI) : Prop :=
  APObjectType msg = ap.ActivityFollow /\
  APActivityType msg = ap.ActivityUndo /\
  OriginAccount msg = Some account /\
  IsLocal account = true /\
  exists follow target,
    GTSModelOf msg = FollowModel follow /\
    FollowTargetAccount follow = Some target /\
    TargetAccount msg = Some target /\
    IsLocal target = false.

(** An event of the status step for [account]: it targets the account and
    carries a status with the account attached, and is a "delete note"
    from the account or an "undo announce" from some account. *)
Definition statusEvent (account : Account) (msg : FromClientAPI) : Prop :=
  TargetAccount msg = Some account /\
  (exists status, GTSModelOf msg = StatusModel status /\
                  StatusAccount status = Some account) /\
  ((isDeleteNote msg /\ OriginAccount msg = Some account) \/
   (isUndoAnnounce msg /\ exists boostAcc, OriginAccount msg = Some boostAcc)).

(** A step that enqueues one batch of events satisfying [Q] when it
    returns nil, and nothing otherwise. *)
Definition enqueuesOneBatch {St E} (Q : FromClientAPI -> Prop)
  (m : M (World St) E unit) : Prop :=
  forall w r w', m w = (r, w') ->
    (r = Ok tt /\ exists batch, queue w' = queue w ++ [batch] /\ Forall Q batch) \/
    (r <> Ok tt /\ queue w' = queue w).

(** A computation that enqueues, in order, batches of the kinds [Qs]: all
    of them when it returns normally, and the first few otherwise. *)
Definition enqueuesBatches {St E A} (Qs : list (FromClientAPI -> Prop))
  (m : M (World St) E A) : Prop :=
  forall w r w', m w = (r, w') ->
    exists batches,
      queue w' = queue w ++ batches /\
      Forall2 (fun Q batch => Forall Q batch)
              (take (length batches) Qs) batches /\
      (forall a, r = Ok a -> length batches = length Qs).

Module stuck_fixtures.
Import memstore gone_fixtures.

(** A store that answers every page query with the same one row, whatever
    the cursor. *)
Definition stuckPage : list Status := [ mkStatus "1000" "01ALICE" "" ].

Definition stuckDB : DB unit := {|
  GetUserByAccountID := GetUserByAccountID (goneDB None);
  GetWhere_Token := GetWhere_Token (goneDB None);
  DeleteByID_Client := DeleteByID_Client (goneDB None);
  DeleteWhere_Application := DeleteWhere_Application (goneDB None);
  DeleteByID_Token := DeleteByID_Token (goneDB None);
  UpdateUser := UpdateUser (goneDB None);
  GetAccountFollowers := GetAccountFollowers (goneDB None);
  GetAccountFollowRequests := GetAccountFollowRequests (goneDB None);
  GetAccountFollows := GetAccountFollows (goneDB None);
  GetAccountFollowRequesting := GetAccountFollowRequesting (goneDB None);
  DeleteFollowByID := DeleteFollowByID (goneDB None);
  DeleteFollowRequestByID := DeleteFollowRequestByID (goneDB None);
  DeleteAccountBlocks := DeleteAccountBlocks (goneDB None);
  GetAccountStatuses accountID limit excludeReplies excludeReblogs
                     maxID minID mediaOnly publicOnly s := (stuckPage, None);
  GetStatusReblogs := GetStatusReblogs (goneDB None);
  GetAccountByID := GetAccountByID (goneDB None);
  DeleteNotifications := DeleteNotifications (goneDB None);
  DeleteStatusBookmarks := DeleteStatusBookmarks (goneDB None);
  DeleteStatusFaves := DeleteStatusFaves (goneDB None);
  UpdateAccount := UpdateAccount (goneDB None)
|}.

End stuck_fixtures.

(* ===================================================================== *)
(** * The calls of the user step                                          *)
(* ===================================================================== *)

(** The deletions made for one token, in the order of the loop body: the
    token's client, the applications of that client, the token. *)
Definition tokenDeletions (t : Token) : list Call :=
  [ CDeleteByID_Client (TokenClientID t);
    CDeleteWhere_Application (TokenClientID t);
    CDeleteByID_Token (TokenID t) ].

Definition isUpdateUser (c : Call) : bool :=
  match c with
  | CUpdateUser _ _ => true
  | _ => false
  end.

(* ===================================================================== *)
(** * Reading the media table twice                                       *)
(* ===================================================================== *)

(** What a read of [id] answers over the cache entries [c] and the store
    contents [s]: the cached value, or else what the store answers. *)
Definition answerOf {St} (conn : DBConn St)
  (c : gmap (string * string) MediaAttachment) (s : St) (id : string)
  : error + MediaAttachment :=
  match c !! ("ID", id) with
  | Some v => inr v
  | None => SelectByID conn id s
  end.

(** The ids of [ids] without an entry among [c], in order. *)
Definition uncachedIDs (c : gmap (string * string) MediaAttachment)
  (ids : list string) : list string :=
  filter (fun id => c !! ("ID", id) = None) ids.

(** Every id of [ids] without a cache entry in [w] is one the store has
    no row for. *)
Definition settled {St} (conn : DBConn St) (ids : list string)
  (w : MediaWorld St) : Prop :=
  forall id, id ∈ ids -> cache w !! ("ID", id) = None ->
    exists e, SelectByID conn id (contents w) = inl e.

(* ===================================================================== *)
(** * internal/db/bundb/media.go: the reads by condition and the counts   *)
(* ===================================================================== *)

(** The query builder of package bun, as far as this file drives it: a
    select statement is the record of the builder calls made on it. *)
Module bun.

Inductive Arg :=
| ArgBool (b : bool)
| ArgTime (t : Time)
| ArgString (s : string).

(** A condition as the builder is given it: a format and its arguments,
    the first a column identifier. *)
Inductive Cond :=
| CondEq (ident : string) (v : Arg)     (* "? = ?", bun.Ident(ident), v *)
| CondLt (ident : string) (v : Arg)     (* "? < ?", bun.Ident(ident), v *)
| CondIsNull (ident : string).          (* "? IS NULL", bun.Ident(ident) *)

#[warnings="-register-all"] Inductive Clause :=
| ClauseWhere (c : Cond)
| ClauseWhereOr (c : Cond)
| ClauseGroup (sep : string) (inner : list Clause)
| ClauseNotEmptyAndNotNull (column : string).

Record SelectQuery := mkSelectQuery {
  tableExpr : option (string * string);
  columns : list string;
  wheres : list Clause;
  orders : list string;
  limit : option Z
}.

Definition NewSelect : SelectQuery := mkSelectQuery None [] [] [] None.

(** [q.TableExpr("? AS ?", bun.Ident(table), bun.Ident(alias))] *)
Definition TableExpr (table alias : string) (q : SelectQuery) : SelectQuery :=
  mkSelectQuery (Some (table, alias)) (columns q) (wheres q) (orders q) (limit q).

Definition Column (column : string) (q : SelectQuery) : SelectQuery :=
  mkSelectQuery (tableExpr q) (columns q ++ [column]) (wheres q) (orders q) (limit q).

Definition Where (c : Cond) (q : SelectQuery) : SelectQuery :=
  mkSelectQuery (tableExpr q) (columns q) (wheres q ++ [ClauseWhere c])
                (orders q) (limit q).

Definition WhereOr (c : Cond) (q : SelectQuery) : SelectQuery :=
  mkSelectQuery (tableExpr q) (columns q) (wheres q ++ [ClauseWhereOr c])
                (orders q) (limit q).

(** [q.WhereGroup(sep, fn)]: the clauses [fn] adds to a fresh query, as
    one group. *)
Definition WhereGroup (sep : string) (fn : SelectQuery -> SelectQuery)
  (q : SelectQuery) : SelectQuery :=
  mkSelectQuery (tableExpr q) (columns q)
                (wheres q ++ [ClauseGroup sep (wheres (fn NewSelect))])
                (orders q) (limit q).

Definition Order (order : string) (q : SelectQuery) : SelectQuery :=
  mkSelectQuery (tableExpr q) (columns q) (wheres q) (orders q ++ [order]) (limit q).

Definition Limit (n : Z) (q : SelectQuery) : SelectQuery :=
  mkSelectQuery (tableExpr q) (columns q) (wheres q) (orders q) (Some n).

(** The statements run on a select query in this file. *)
Inductive Statement :=
| Scan (q : SelectQuery)     (* q.Scan(ctx, &attachmentIDs) *)
| Count (q : SelectQuery).   (* q.Count(ctx) *)

End bun.

(** [q.Method(args)] *)
Notation "q |> f" := (f q) (at level 45, left associativity, only parsing).

(** whereNotEmptyAndNotNull is defined elsewhere in the package; the
    clauses it adds for [column] are kept as one named clause. *)
Definition whereNotEmptyAndNotNull (column : string)
  : bun.SelectQuery -> bun.SelectQuery :=
  fun q => bun.mkSelectQuery (bun.tableExpr q) (bun.columns q)
             (bun.wheres q ++ [bun.ClauseNotEmptyAndNotNull column])
             (bun.orders q) (bun.limit q).

(** [m.conn] for the statements on select queries; each answer is the
    statement's result or its error after [ProcessError].  A count is a
    Go int. *)
Record SelectConn (St : Type) := {
  ScanIDs : bun.SelectQuery -> St -> error + list string;
  CountRows : bun.SelectQuery -> St -> error + Z
}.
Arguments ScanIDs {St}.
Arguments CountRows {St}.

(** The state behind a [mediaDB] with the log of the statements on select
    queries (oldest first) next to it. *)
Record RangeWorld (St : Type) := mkRangeWorld {
  media : MediaWorld St;
  selects : list bun.Statement
}.
Arguments mkRangeWorld {St}.
Arguments media {St}.
Arguments selects {St}.

Section MediaRanges.
Context {St : Type} (conn : DBConn St) (sel : SelectConn St).

(** A call of one of the point operations above. *)
Definition inMedia {E A} (m : M (MediaWorld St) E A) : M (RangeWorld St) E A :=
  fun w => let '(r, mw) := m (media w) in (r, mkRangeWorld mw (selects w)).

Definition connScan {E} (q : bun.SelectQuery)
  : M (RangeWorld St) E (error + list string) :=
  fun w => (Ok (ScanIDs sel q (contents (media w))),
            mkRangeWorld (media w) (selects w ++ [bun.Scan q])).

Definition connCount {E} (q : bun.SelectQuery) : M (RangeWorld St) E (error + Z) :=
  fun w => (Ok (CountRows sel q (contents (media w))),
            mkRangeWorld (media w) (selects w ++ [bun.Count q])).

Definition GetRemoteOlderThan (olderThan : Time) (limit : Z)
  : M (RangeWorld St) error (list MediaAttachment) :=
  let q := bun.NewSelect
    |> bun.TableExpr "media_attachments" "media_attachment"
    |> bun.Column "media_attachment.id"
    |> bun.Where (bun.CondEq "media_attachment.cached" (bun.ArgBool true))
    |> bun.Where (bun.CondLt "media_attachment.created_at" (bun.ArgTime olderThan))
    |> bun.WhereGroup " AND " (whereNotEmptyAndNotNull "media_attachment.remote_url")
    |> bun.Order "media_attachment.created_at DESC" in
  let q := if bool_decide (limit ≠ 0) then q |> bun.Limit limit else q in
  r ← connScan q;
  match r with
  | inl err => fail err
  | inr attachmentIDs => inMedia (GetAttachmentsByIDs conn attachmentIDs)
  end.

(** A nil error is [Ok count]; an error return, whose count is 0, is
    [Fail]. *)
Definition CountRemoteOlderThan (olderThan : Time) : M (RangeWorld St) error Z :=
  let q := bun.NewSelect
    |> bun.TableExpr "media_attachments" "media_attachment"
    |> bun.Column "media_attachment.id"
    |> bun.Where (bun.CondEq "media_attachment.cached" (bun.ArgBool true))
    |> bun.Where (bun.CondLt "media_attachment.created_at" (bun.ArgTime olderThan))
    |> bun.WhereGroup " AND " (whereNotEmptyAndNotNull "media_attachment.remote_url") in
  r ← connCount q;
  match r with
  | inl err => fail err
  | inr count => mret count
  end.

Definition GetAvatarsAndHeaders (maxID : string) (limit : Z)
  : M (RangeWorld St) error (list MediaAttachment) :=
  let q := bun.NewSelect
    |> bun.TableExpr "media_attachments" "media_attachment"
    |> bun.Column "media_attachment.id"
    |> bun.WhereGroup " AND " (fun innerQ =>
         innerQ
         |> bun.WhereOr (bun.CondEq "media_attachment.avatar" (bun.ArgBool true))
         |> bun.WhereOr (bun.CondEq "media_attachment.header" (bun.ArgBool true)))
    |> bun.Order "media_attachment.id DESC" in
  let q := if bool_decide (maxID ≠ "")
           then q |> bun.Where (bun.CondLt "media_attachment.id" (bun.ArgString maxID))
           else q in
  let q := if bool_decide (limit ≠ 0) then q |> bun.Limit limit else q in
  r ← connScan q;
  match r with
  | inl err => fail err
  | inr attachmentIDs => inMedia (GetAttachmentsByIDs conn attachmentIDs)
  end.

Definition GetLocalUnattachedOlderThan (olderThan : Time) (limit : Z)
  : M (RangeWorld St) error (list MediaAttachment) :=
  let q := bun.NewSelect
    |> bun.TableExpr "media_attachments" "media_attachment"
    |> bun.Column "media_attachment.id"
    |> bun.Where (bun.CondEq "media_attachment.cached" (bun.ArgBool true))
    |> bun.Where (bun.CondEq "media_attachment.avatar" (bun.ArgBool false))
    |> bun.Where (bun.CondEq "media_attachment.header" (bun.ArgBool false))
    |> bun.Where (bun.CondLt "media_attachment.created_at" (bun.ArgTime olderThan))
    |> bun.Where (bun.CondIsNull "media_attachment.remote_url")
    |> bun.Where (bun.CondIsNull "media_attachment.status_id")
    |> bun.Order "media_attachment.created_at DESC" in
  let q := if bool_decide (limit ≠ 0) then q |> bun.Limit limit else q in
  r ← connScan q;
  match r with
  | inl err => fail err
  | inr attachmentIDs => inMedia (GetAttachmentsByIDs conn attachmentIDs)
  end.

Definition CountLocalUnattachedOlderThan (olderThan : Time)
  : M (RangeWorld St) error Z :=
  let q := bun.NewSelect
    |> bun.TableExpr "media_attachments" "media_attachment"
    |> bun.Column "media_attachment.id"
    |> bun.Where (bun.CondEq "media_attachment.cached" (bun.ArgBool true))
    |> bun.Where (bun.CondEq "media_attachment.avatar" (bun.ArgBool false))
    |> bun.Where (bun.CondEq "media_attachment.header" (bun.ArgBool false))
    |> bun.Where (bun.CondLt "media_attachment.created_at" (bun.ArgTime olderThan))
    |> bun.Where (bun.CondIsNull "media_attachment.remote_url")
    |> bun.Where (bun.CondIsNull "media_attachment.status_id") in
  r ← connCount q;
  match r with
  | inl err => fail err
  | inr count => mret count
  end.

End MediaRanges.

(* ===================================================================== *)
(** * What a read by condition promises                                   *)
(* ===================================================================== *)

(** [read], called with row limit [limit], is a best-effort read: it runs
    one scan, of a query [q] that selects the id column only, satisfies
    [P], and has a limit clause exactly when [limit] is not 0; it leaves
    the store contents as they are and only adds to the cache.  When the
    scan fails [read] returns its error with the media state untouched.
    When the scan answers ids, [read] returns nil with, for each id in
    scan order, the attachment the cache holds afterwards, and nothing
    for an id the store refuses; if every scanned id was cached already,
    these are the cached attachments and no further statement is made. *)
Definition bestEffortRead {St} (conn : DBConn St) (sel : SelectConn St)
  (limit : Z) (P : bun.SelectQuery -> Prop)
  (read : M (RangeWorld St) error (list MediaAttachment)) : Prop :=
  forall w, exists q r w',
    read w = (r, w') /\
    selects w' = selects w ++ [bun.Scan q] /\
    bun.columns q = ["media_attachment.id"] /\
    P q /\
    bun.limit q = (if bool_decide (limit = 0) then None else Some limit) /\
    contents (media w') = contents (media w) /\
    cache (media w) ⊆ cache (media w') /\
    match ScanIDs sel q (contents (media w)) with
    | inl e => r = Fail e /\ media w' = media w
    | inr ids =>
      exists attachments,
        r = Ok attachments /\
        attachments = omap loaded (answerOf conn (cache (media w'))
                                            (contents (media w)) <$> ids) /\
        (length attachments <= length ids)%nat /\
        forall cached,
          Forall2 (fun id v => cache (media w) !! ("ID", id) = Some v) ids cached ->
          attachments = cached /\ statements (media w') = statements (media w)
    end.

(** On contents [s] a count statement counts the ids that the scan of the
    same table and conditions lists when it has no limit. *)
Definition countsWhatItScans {St} (sel : SelectConn St) (s : St) : Prop :=
  forall q ids n,
    bun.limit q = None ->
    ScanIDs sel q s = inr ids ->
    CountRows sel (bun.mkSelectQuery (bun.tableExpr q) (bun.columns q)
                                     (bun.wheres q) [] None) s = inr n ->
    n = Z.of_nat (length ids).

Module range_fixtures.

(** A row of the media table: the attachment and the columns that the
    conditions of this file read. *)
Record MediaRow := mkMediaRow {
  attachment : MediaAttachment;
  Cached : bool;
  Avatar : bool;
  Header : bool;
  CreatedAt : Time;
  RemoteURL : string
}.

Definition evalCond (r : MediaRow) (c : bun.Cond) : bool :=
  match c with
  | bun.CondEq ident (bun.ArgBool b) =>
    if String.eqb ident "media_attachment.cached" then Bool.eqb (Cached r) b
    else if String.eqb ident "media_attachment.avatar" then Bool.eqb (Avatar r) b
    else if String.eqb ident "media_attachment.header" then Bool.eqb (Header r) b
    else false
  | bun.CondLt ident (bun.ArgTime t) =>
    String.eqb ident "media_attachment.created_at" && (CreatedAt r <? t)
  | bun.CondLt ident (bun.ArgString s) =>
    String.eqb ident "media_attachment.id" && idLt (MediaID (attachment r)) s
  | bun.CondIsNull ident =>
    if String.eqb ident "media_attachment.remote_url"
    then String.eqb (RemoteURL r) ""
    else if String.eqb ident "media_attachment.status_id"
    then String.eqb (MediaStatusID (attachment r)) ""
    else false
  | _ => false
  end.

Definition isOr (c : bun.Clause) : bool :=
  match c with
  | bun.ClauseWhereOr _ => true
  | _ => false
  end.

(** Clauses in order, each joined to those before it by AND, or by OR
    when it was added with WhereOr. *)
Fixpoint evalClause (r : MediaRow) (c : bun.Clause) : bool :=
  match c with
  | bun.ClauseWhere c | bun.ClauseWhereOr c => evalCond r c
  | bun.ClauseNotEmptyAndNotNull column =>
    String.eqb column "media_attachment.remote_url"
    && negb (String.eqb (RemoteURL r) "")
  | bun.ClauseGroup _ inner =>
    (fix go (acc : option bool) (l : list bun.Clause) : bool :=
       match l with
       | [] => default true acc
       | c' :: l' =>
         let v := evalClause r c' in
         go (Some (match acc with
                   | None => v
                   | Some a => if isOr c' then a || v else a && v
                   end)) l'
       end) None inner
  end.

Definition matches (q : bun.SelectQuery) (r : MediaRow) : bool :=
  evalClause r (bun.ClauseGroup " AND " (bun.wheres q)).

Fixpoint insertBy (before : MediaRow -> MediaRow -> bool) (x : MediaRow) (l : list MediaRow) : list MediaRow :=
  match l with
  | [] => [x]
  | y :: l' => if before x y then x :: y :: l' else y :: insertBy before x l'
  end.

Definition sortBy (before : MediaRow -> MediaRow -> bool) (l : list MediaRow) : list MediaRow :=
  foldr (insertBy before) [] l.

Definition ordered (orders : list string) (l : list MediaRow) : list MediaRow :=
  match orders with
  | [order] =>
    if String.eqb order "media_attachment.created_at DESC"
    then sortBy (fun x y => CreatedAt y <? CreatedAt x) l
    else if String.eqb order "media_attachment.id DESC"
    then sortBy (fun x y => idLt (MediaID (attachment y)) (MediaID (attachment x))) l
    else l
  | _ => l
  end.

Definition limited (limit : option Z) (l : list MediaRow) : list MediaRow :=
  match limit with
  | Some n => take (Z.to_nat n) l
  | None => l
  end.

(** The statements on select queries over a table held as a list. *)
Definition rowSel : SelectConn (list MediaRow) := {|
  ScanIDs q rows :=
    inr ((fun r => MediaID (attachment r))
           <$> limited (bun.limit q)
                 (ordered (bun.orders q) (List.filter (matches q) rows)));
  CountRows q rows := inr (Z.of_nat (length (List.filter (matches q) rows)))
|}.

Definition rowOf (media : MediaAttachment) : MediaRow :=
  mkMediaRow media true false false (MediaUpdatedAt media) "".

(** The point statements over the same table. *)
Definition rowConn : DBConn (list MediaRow) := {|
  SelectByID id rows :=
    match List.filter (fun r => String.eqb (MediaID (attachment r)) id) rows with
    | r :: _ => inr (attachment r)
    | [] => inl ErrNoEntries
    end;
  Insert media rows := (None, rowOf media :: rows);
  Update media columns rows :=
    (None, (fun r => if String.eqb (MediaID (attachment r)) (MediaID media)
                     then mkMediaRow media (Cached r) (Avatar r) (Header r)
                                (CreatedAt r) (RemoteURL r)
                     else r) <$> rows);
  DeleteRow id rows :=
    (None, List.filter (fun r => negb (String.eqb (MediaID (attachment r)) id)) rows)
|}.

Definition remote (id : string) (createdAt : Time) : MediaRow :=
  mkMediaRow {| MediaID := id; MediaStatusID := "01STATUS";
           MediaURL := "https://example.org/" +:+ id;
           MediaUpdatedAt := createdAt |}
        true false false createdAt ("https://remote.example/" +:+ id).

Definition avatar (id : string) (createdAt : Time) : MediaRow :=
  mkMediaRow {| MediaID := id; MediaStatusID := "";
           MediaURL := "https://example.org/" +:+ id;
           MediaUpdatedAt := createdAt |}
        true true false createdAt "".

Definition unattached (id : string) (createdAt : Time) : MediaRow :=
  mkMediaRow {| MediaID := id; MediaStatusID := "";
           MediaURL := "https://example.org/" +:+ id;
           MediaUpdatedAt := createdAt |}
        true false false createdAt "".

Definition table : list MediaRow :=
  [ remote "01A" 100; avatar "01B" 200; remote "01C" 300;
    unattached "01D" 400; remote "01E" 500; unattached "01F" 600 ].

Definition rangeWorld (rows : list MediaRow) : RangeWorld (list MediaRow) :=
  mkRangeWorld (mkMediaWorld rows [] ∅ [] 1700002000) [].

End range_fixtures.

(* ===================================================================== *)
(** * Running the monad                                                   *)
(* ===================================================================== *)

Section Running.
Context {W E : Type}.

Lemma bind_run {A B} (m : M W E A) (k : A -> M W E B) (w : W) :
  (m ≫= k) w =
  match m w with
  | (Ok a, w') => k a w'
  | (Fail e, w') => (Fail e, w')
  | (OutOfFuel, w') => (OutOfFuel, w')
  end.
Proof. reflexivity. Qed.

Lemma bind_Ok {A B} (m : M W E A) (k : A -> M W E B) w a w1 :
  m w = (Ok a, w1) -> (m ≫= k) w = k a w1.
Proof. intros H. rewrite bind_run, H. reflexivity. Qed.

Lemma bind_Fail {A B} (m : M W E A) (k : A -> M W E B) w e w1 :
  m w = (Fail e, w1) -> (m ≫= k) w = (Fail e, w1).
Proof. intros H. rewrite bind_run, H. reflexivity. Qed.

Lemma bind_Ok_inv {A B} (m : M W E A) (k : A -> M W E B) w b w' :
  (m ≫= k) w = (Ok b, w') ->
  exists a w1, m w = (Ok a, w1) /\ k a w1 = (Ok b, w').
Proof.
  rewrite bind_run. destruct (m w) as [[a|e|] w1]; intros H; try discriminate.
  exists a, w1. split; [reflexivity | exact H].
Qed.

Lemma check_None {wrap : error -> E} (w : W) :
  check None wrap w = (Ok tt, w).
Proof. reflexivity. Qed.

Lemma check_Some {wrap : error -> E} (e : error) (w : W) :
  check (Some e) wrap w = (Fail (wrap e), w).
Proof. reflexivity. Qed.

Lemma check_Ok_inv {wrap : error -> E} err (w w' : W) u :
  check err wrap w = (Ok u, w') -> err = None /\ w' = w.
Proof. destruct err; unfold check, fail; simpl; intros H; inversion H; auto. Qed.

Lemma forRange_nil {A B} (acc : B) (body : B -> A -> M W E B) w :
  forRange [] acc body w = (Ok acc, w).
Proof. reflexivity. Qed.

Lemma forRange_cons {A B} x (xs : list A) (acc : B) (body : B -> A -> M W E B) :
  forRange (x :: xs) acc body = (body acc x ≫= fun acc' => forRange xs acc' body).
Proof. reflexivity. Qed.

Lemma forRange_app {A B} (xs ys : list A) (acc : B) (body : B -> A -> M W E B) w :
  forRange (xs ++ ys) acc body w =
  (forRange xs acc body ≫= fun acc' => forRange ys acc' body) w.
Proof.
  revert acc w. induction xs as [|x xs IH]; intros acc w.
  - reflexivity.
  - simpl. rewrite !bind_run. destruct (body acc x w) as [[a|e|] w1]; auto.
Qed.

End Running.

Lemma realError_None_iff (err : option error) :
  realError err = None <->
  err = None \/ exists e, err = Some e /\ isErrNoEntries e = true.
Proof.
  destruct err as [e|]; simpl.
  - destruct (isErrNoEntries e) eqn:He.
    + split; [intros _; right; eauto | reflexivity].
    + split; [discriminate | intros [H|(e' & H & H')]; [discriminate|]].
      inversion H; subst. congruence.
  - split; auto.
Qed.

(* ===================================================================== *)
(** * DeleteSelf                                                          *)
(* ===================================================================== *)

(** C6. For every account, DeleteSelf hands the worker queue exactly one
    batch of exactly one event, whose object type is actor/person, whose
    activity type is delete and whose origin and target are both the
    account; it makes no store call (the call log and the store contents
    are as before) and returns nil. *)
Theorem DeleteSelf_enqueues_one_delete_actor :
  forall (St : Type) (account : Account) (w : World St),
    exists msg w',
      DeleteSelf account w = (Ok tt, w') /\
      queue w' = queue w ++ [[msg]] /\
      APObjectType msg = ap.ActorPerson /\
      APActivityType msg = ap.ActivityDelete /\
      OriginAccount msg = Some account /\
      TargetAccount msg = Some account /\
      trace w' = trace w /\
      store w' = store w.
Proof.
  intros St account w. eexists. eexists.
  split; [reflexivity|]. simpl. repeat split; reflexivity.
Qed.

(* ===================================================================== *)
(** * The stubbification transforms                                       *)
(* ===================================================================== *)

(** C4. For every account and origin, stubbifyAccount clears the fetch
    timestamp, the avatar and header references, the display name, the
    emoji references, the profile fields, the bio (rendered and raw), the
    memorial flag, the alias and moved-to references, the application
    reason, discoverability, the content-type preference and the custom
    styling; sets suspended-at to the current time and suspension-origin
    to the given origin; forces hide-collections to true and RSS-enabled to
    false; and returns exactly the column names of the fields it assigns:
    the list has no repetition, every field outside it keeps its value,
    and every name in it is the column of a field. *)
Theorem stubbifyAccount_clears_and_reports :
  forall (now : Time) (account : Account) (origin : string),
    let account' := (stubbifyAccount now account origin).1 in
    let columns := (stubbifyAccount now account origin).2 in
    (FetchedAt account' = never /\
     AvatarMediaAttachmentID account' = "" /\ AvatarRemoteURL account' = "" /\
     HeaderMediaAttachmentID account' = "" /\ HeaderRemoteURL account' = "" /\
     DisplayName account' = "" /\
     EmojiIDs account' = [] /\ Emojis account' = [] /\
     Fields account' = [] /\
     Note account' = "" /\ NoteRaw account' = "" /\
     Memorial account' = Some false /\
     AlsoKnownAs account' = "" /\ MovedToAccountID account' = "" /\
     Reason account' = "" /\
     Discoverable account' = Some false /\
     StatusContentType account' = "" /\
     CustomCSS account' = "") /\
    (SuspendedAt account' = now /\ SuspensionOrigin account' = origin) /\
    (HideCollections account' = Some true /\ EnableRSS account' = Some false) /\
    columns =
      [ "fetched_at"; "avatar_media_attachment_id"; "avatar_remote_url";
        "header_media_attachment_id"; "header_remote_url"; "display_name";
        "emojis"; "fields"; "note"; "note_raw"; "memorial"; "also_known_as";
        "moved_to_account_id"; "reason"; "discoverable";
        "status_content_type"; "custom_css"; "suspended_at";
        "suspension_origin"; "hide_collections"; "enable_rss" ] /\
    NoDup columns /\
    (forall f, accountColumn f ∈ columns \/ accountFieldSame f account account') /\
    (forall c, c ∈ columns <->
               exists f, accountColumn f = c /\
                         f ∉ [F_ID; F_Username; F_Domain]).
Proof.
  intros now account origin. cbn zeta. unfold stubbifyAccount. cbn [fst snd].
  split; [repeat split|]. split; [repeat split|]. split; [repeat split|].
  split; [reflexivity|]. split.
  - apply (bool_decide_unpack _). vm_compute. exact I.
  - split.
    + intros f. destruct f; cbn;
        first [ right; reflexivity | left; apply (bool_decide_unpack _); vm_compute; exact I ].
    + intros c. split.
      * intros Hc.
        change (c ∈ accountColumn <$>
                  [ F_FetchedAt; F_AvatarMediaAttachmentID; F_AvatarRemoteURL;
                    F_HeaderMediaAttachmentID; F_HeaderRemoteURL;
                    F_DisplayName; F_EmojiIDs; F_Fields; F_Note; F_NoteRaw;
                    F_Memorial; F_AlsoKnownAs; F_MovedToAccountID; F_Reason;
                    F_Discoverable; F_StatusContentType; F_CustomCSS;
                    F_SuspendedAt; F_SuspensionOrigin; F_HideCollections;
                    F_EnableRSS ]) in Hc.
        apply list_elem_of_fmap in Hc as (f & -> & Hf).
        exists f. split; [reflexivity|].
        intros Hin. set_unfold. intuition (subst; discriminate).
      * intros (f & <- & Hf).
        destruct f; cbn; try (exfalso; apply Hf; set_solver);
          apply (bool_decide_unpack _); vm_compute; exact I.
Qed.

(** C7. Through the stubbification transforms the account's id, username
    and domain are unchanged and their columns are not in the returned
    column list; the user's email is unchanged (whether or not the
    transform fails) and its column is not in the returned column list. *)
Theorem stubbify_keeps_identity :
  forall (now : Time) (account : Account) (origin : string)
         (cr : Crypto) (seed : nat) (user : User),
    let account' := (stubbifyAccount now account origin).1 in
    let columns := (stubbifyAccount now account origin).2 in
    let user' := (stubbifyUser cr seed user).1.1 in
    let userColumns := (stubbifyUser cr seed user).1.2 in
    ID account' = ID account /\
    Username account' = Username account /\
    Domain account' = Domain account /\
    (accountColumn F_ID ∉ columns) /\
    (accountColumn F_Username ∉ columns) /\
    (accountColumn F_Domain ∉ columns) /\
    Email user' = Email user /\
    emailColumn ∉ userColumns.
Proof.
  intros now account origin cr seed user. cbn zeta.
  repeat split; try reflexivity;
    try (apply (bool_decide_unpack _); vm_compute; exact I).
  - unfold stubbifyUser.
    destruct (uuid_New_MarshalBinary cr seed) as [e|uuid]; [reflexivity|].
    destruct (bcrypt_GenerateFromPassword cr seed uuid bcrypt_DefaultCost);
      reflexivity.
  - unfold stubbifyUser.
    destruct (uuid_New_MarshalBinary cr seed) as [e|uuid]; cbn; [set_solver|].
    destruct (bcrypt_GenerateFromPassword cr seed uuid bcrypt_DefaultCost);
      cbn; [set_solver|].
    apply (bool_decide_unpack _); vm_compute; exact I.
Qed.



(* ===================================================================== *)
(** * The follow-deletion step                                            *)
(* ===================================================================== *)

Section Follows.
Context {St : Type}.

(** A loop of per-row deletions that collects nothing: it only writes. *)
Lemma deleteRows_run {A} (rows : list A) (call : A -> Call)
  (del : A -> St -> option error * St) (wrap : error -> error)
  (w w' : World St) :
  forRange rows tt (fun _ row =>
      err ← dbWrite (call row) (del row); check err wrap) w = (Ok tt, w') ->
  queue w' = queue w /\ trace w' = trace w ++ (call <$> rows).
Proof.
  revert w. induction rows as [|row rows IH]; intros w H.
  - inversion H; subst. rewrite app_nil_r. auto.
  - rewrite forRange_cons in H.
    apply bind_Ok_inv in H as ([] & w1 & Hbody & Hrest).
    apply bind_Ok_inv in Hbody as (err & w0 & Hdel & Hchk).
    apply check_Ok_inv in Hchk as [-> ->].
    unfold dbWrite in Hdel. destruct (del row (store w)) as [err s'].
    inversion Hdel; subst. apply IH in Hrest as [Hq Ht].
    cbn in Hq, Ht. rewrite Hq, Ht, <- app_assoc. auto.
Qed.

(** The loop over the edges the account owns: each edge is deleted and put
    to the policy; what the policy gives is appended in order. *)
Lemma unfollowLoop_run {A} (rows : list A) (call : A -> Call)
  (del : A -> St -> option error * St) (wrap : error -> error)
  (edge : A -> Follow) (policy : Follow -> option FromClientAPI)
  (msgs msgs' : list FromClientAPI) (w w' : World St) :
  forRange rows msgs (fun msgs row =>
      err ← dbWrite (call row) (del row);
      check err wrap;;
      match policy (edge row) with
      | Some msg => mret (msgs ++ [msg])
      | None => mret msgs
      end) w = (Ok msgs', w') ->
  msgs' = msgs ++ omap policy (edge <$> rows) /\
  queue w' = queue w /\ trace w' = trace w ++ (call <$> rows).
Proof.
  revert msgs w. induction rows as [|row rows IH]; intros msgs w H.
  - inversion H; subst. rewrite !app_nil_r. auto.
  - rewrite forRange_cons in H.
    apply bind_Ok_inv in H as (msgs1 & w1 & Hbody & Hrest).
    apply bind_Ok_inv in Hbody as (err & w0 & Hdel & Hbody).
    apply bind_Ok_inv in Hbody as ([] & w0' & Hchk & Hpol).
    apply check_Ok_inv in Hchk as [-> ->].
    unfold dbWrite in Hdel. destruct (del row (store w)) as [err s'].
    inversion Hdel; subst. clear Hdel.
    apply IH in Hrest as (-> & Hq & Ht).
    rewrite fmap_cons. cbn [omap list_omap].
    destruct (policy (edge row)) as [msg|]; inversion Hpol; subst;
      cbn in Hq, Ht; rewrite Hq, Ht, <- !app_assoc; auto.
Qed.

End Follows.

Section Queue.
Context {St E : Type}.

Lemma keepsQueue_ret {A} (a : A) : keepsQueue (St := St) (E := E) (mret a).
Proof. intros w r w' H. inversion H; subst. reflexivity. Qed.

Lemma keepsQueue_check (err : option error) (wrap : error -> E) :
  keepsQueue (St := St) (check err wrap).
Proof. intros w r w' H. destruct err; inversion H; subst; reflexivity. Qed.

Lemma keepsQueue_dbRead {A} (c : Call) (q : St -> A) :
  keepsQueue (E := E) (dbRead c q).
Proof. intros w r w' H. inversion H; subst. reflexivity. Qed.

Lemma keepsQueue_dbWrite (c : Call) (q : St -> option error * St) :
  keepsQueue (E := E) (dbWrite c q).
Proof.
  intros w r w' H. unfold dbWrite in H. destruct (q (store w)).
  inversion H; subst. reflexivity.
Qed.

Lemma keepsQueue_bind {A B} (m : M (World St) E A) (k : A -> M (World St) E B) :
  keepsQueue m -> (forall a, keepsQueue (k a)) -> keepsQueue (m ≫= k).
Proof.
  intros Hm Hk w r w' H. rewrite bind_run in H.
  destruct (m w) as [[a|e|] w1] eqn:Hmw.
  - rewrite (Hk a _ _ _ H). exact (Hm _ _ _ Hmw).
  - inversion H; subst. exact (Hm _ _ _ Hmw).
  - inversion H; subst. exact (Hm _ _ _ Hmw).
Qed.

Lemma keepsQueue_forRange {A B} (xs : list A) (acc : B)
  (body : B -> A -> M (World St) E B) :
  (forall acc x, keepsQueue (body acc x)) -> keepsQueue (forRange xs acc body).
Proof.
  intros Hbody. revert acc. induction xs as [|x xs IH]; intros acc.
  - apply keepsQueue_ret.
  - rewrite forRange_cons. apply keepsQueue_bind; [apply Hbody | exact IH].
Qed.

Lemma enqueuesOnlyOnReturn_bind {A B} (m : M (World St) E A)
  (k : A -> M (World St) E B) :
  keepsQueue m -> (forall a, enqueuesOnlyOnReturn (k a)) ->
  enqueuesOnlyOnReturn (m ≫= k).
Proof.
  intros Hm Hk w r w' H. rewrite bind_run in H.
  destruct (m w) as [[a|e|] w1] eqn:Hmw.
  - destruct (Hk a _ _ _ H) as [Hq|Hok]; [left|right; exact Hok].
    rewrite Hq. exact (Hm _ _ _ Hmw).
  - inversion H; subst. left. exact (Hm _ _ _ Hmw).
  - inversion H; subst. left. exact (Hm _ _ _ Hmw).
Qed.

Lemma enqueuesOnlyOnReturn_Enqueue (msgs : list FromClientAPI) :
  enqueuesOnlyOnReturn (St := St) (E := E) (EnqueueClientAPI msgs).
Proof. intros w r w' H. inversion H; subst. right. eauto. Qed.

End Queue.

Lemma deleteAccountFollows_enqueues_last {St} (DB : db.DB St) (account : Account) :
  enqueuesOnlyOnReturn (deleteAccountFollows DB account).
Proof.
  unfold deleteAccountFollows.
  apply enqueuesOnlyOnReturn_bind; [apply keepsQueue_dbRead|]. intros [followedBy e1].
  apply enqueuesOnlyOnReturn_bind; [apply keepsQueue_check|]. intros _.
  apply enqueuesOnlyOnReturn_bind.
  { apply keepsQueue_forRange. intros _ follow.
    apply keepsQueue_bind; [apply keepsQueue_dbWrite|]. intros err.
    apply keepsQueue_check. }
  intros _.
  apply enqueuesOnlyOnReturn_bind; [apply keepsQueue_dbRead|]. intros [followRequestedBy e2].
  apply enqueuesOnlyOnReturn_bind; [apply keepsQueue_check|]. intros _.
  apply enqueuesOnlyOnReturn_bind.
  { apply keepsQueue_forRange. intros _ followRequest.
    apply keepsQueue_bind; [apply keepsQueue_dbWrite|]. intros err.
    apply keepsQueue_check. }
  intros _.
  apply enqueuesOnlyOnReturn_bind; [apply keepsQueue_dbRead|]. intros [following e3].
  apply enqueuesOnlyOnReturn_bind; [apply keepsQueue_check|]. intros _.
  apply enqueuesOnlyOnReturn_bind.
  { apply keepsQueue_forRange. intros msgs follow.
    apply keepsQueue_bind; [apply keepsQueue_dbWrite|]. intros err.
    apply keepsQueue_bind; [apply keepsQueue_check|]. intros _.
    destruct (unfollowSideEffectsFunc account account follow);
      apply keepsQueue_ret. }
  intros msgs1.
  apply enqueuesOnlyOnReturn_bind; [apply keepsQueue_dbRead|]. intros [followRequesting e4].
  apply enqueuesOnlyOnReturn_bind; [apply keepsQueue_check|]. intros _.
  apply enqueuesOnlyOnReturn_bind.
  { apply keepsQueue_forRange. intros msgs followRequest.
    apply keepsQueue_bind; [apply keepsQueue_dbWrite|]. intros err.
    apply keepsQueue_bind; [apply keepsQueue_check|]. intros _.
    destruct (unfollowSideEffectsFunc account account (dummyFollow followRequest));
      apply keepsQueue_ret. }
  intros msgs2. apply enqueuesOnlyOnReturn_Enqueue.
Qed.



(** Deleting local alice: one undo-follow for the follow to remote remo and
    one for the follow request to remo; nothing for local bob or for the
    follow whose target is gone. *)
Example local_account_undoes_remote_follows :
  (deleteAccountFollows memstore.memDB memstore.alice
     (memstore.mkWorldOf follow_fixtures.followStore)).1 = Ok tt /\
  queue (deleteAccountFollows memstore.memDB memstore.alice
           (memstore.mkWorldOf follow_fixtures.followStore)).2 =
  [ [ {| APObjectType := ap.ActivityFollow; APActivityType := ap.ActivityUndo;
         GTSModelOf := FollowModel
                         (memstore.mkFollow "01F1" memstore.alice memstore.remo);
         OriginAccount := Some memstore.alice;
         TargetAccount := Some memstore.remo |};
      {| APObjectType := ap.ActivityFollow; APActivityType := ap.ActivityUndo;
         GTSModelOf := FollowModel (dummyFollow follow_fixtures.requestToRemo);
         OriginAccount := Some memstore.alice;
         TargetAccount := Some memstore.remo |} ] ].
Proof. split; vm_compute; reflexivity. Qed.

(** Deleting remote remo: its follows are deleted, no event is emitted. *)
Example remote_account_emits_no_follow_events :
  queue (deleteAccountFollows memstore.memDB memstore.remo
           (memstore.mkWorldOf follow_fixtures.remoteFollowStore)).2 = [ [] ] /\
  memstore.follows
    (store (deleteAccountFollows memstore.memDB memstore.remo
              (memstore.mkWorldOf follow_fixtures.remoteFollowStore)).2) = [].
Proof. split; vm_compute; reflexivity. Qed.

(* ===================================================================== *)
(** * The media repository                                                *)
(* ===================================================================== *)

Section MediaFacts.
Context {St : Type} (conn : DBConn St).

Lemma GetAttachmentByID_run (id : string) (w : MediaWorld St) :
  try (E' := error) (GetAttachmentByID conn id) w =
  (Ok (loadOne conn id w).1, (loadOne conn id w).2).
Proof.
  unfold try, GetAttachmentByID, getAttachment, Cache_Load, loadOne.
  unfold mbind, M_bind, mret, M_ret, logLoad, cacheGet, cachePut, connRead, fail.
  cbn.
  destruct (cache w !! ("ID", id)) as [v|]; [reflexivity|]. cbn.
  destruct (SelectByID conn id (contents w)) as [e|v]; reflexivity.
Qed.

Lemma GetAttachmentsByIDs_acc (ids : list string) (acc : list MediaAttachment)
  (w : MediaWorld St) :
  forRange (E := error) ids acc (fun attachments id =>
      r ← try (GetAttachmentByID conn id);
      match r with
      | inl err => mret attachments
      | inr attachment => mret (attachments ++ [attachment])
      end) w =
  (Ok (acc ++ omap loaded (loadEach conn ids w).1), (loadEach conn ids w).2).
Proof.
  revert acc w. induction ids as [|id ids IH]; intros acc w.
  - cbn. rewrite app_nil_r. reflexivity.
  - rewrite forRange_cons, bind_run, bind_run, GetAttachmentByID_run.
    cbn [loadEach].
    destruct (loadOne conn id w) as [[e|a] w1]; cbn [fst snd];
      destruct (loadEach conn ids w1) as [outs w2] eqn:Hrest;
      cbn [fst snd omap list_omap loaded].
    + unfold mret, M_ret. cbn beta iota.
      rewrite IH, Hrest. reflexivity.
    + unfold mret, M_ret. cbn beta iota.
      rewrite IH, Hrest. cbn [fst snd].
      rewrite <- app_assoc. reflexivity.
Qed.

Lemma loadEach_length (ids : list string) (w : MediaWorld St) :
  length (loadEach conn ids w).1 = length ids.
Proof.
  revert w. induction ids as [|id ids IH]; intros w; [reflexivity|].
  cbn [loadEach]. destruct (loadOne conn id w) as [out w1].
  specialize (IH w1). destruct (loadEach conn ids w1) as [outs w2].
  cbn in *. congruence.
Qed.

Lemma loadOne_loads (id : string) (w : MediaWorld St) :
  loads (loadOne conn id w).2 = loads w ++ [("ID", id)].
Proof.
  unfold loadOne. destruct (cache w !! ("ID", id)); [reflexivity|].
  destruct (SelectByID conn id (contents w)); reflexivity.
Qed.

Lemma loadEach_loads (ids : list string) (w : MediaWorld St) :
  loads (loadEach conn ids w).2 = loads w ++ ((fun id => ("ID", id)) <$> ids).
Proof.
  revert w. induction ids as [|id ids IH]; intros w.
  - cbn. rewrite app_nil_r. reflexivity.
  - cbn [loadEach]. pose proof (loadOne_loads id w) as H1.
    destruct (loadOne conn id w) as [out w1].
    specialize (IH w1). destruct (loadEach conn ids w1) as [outs w2].
    cbn [fst snd] in *. rewrite IH, H1, <- app_assoc. reflexivity.
Qed.

Lemma omap_loaded_length (outs : list (error + MediaAttachment)) :
  (length (omap loaded outs) <= length outs)%nat.
Proof.
  induction outs as [|[e|a] outs IH]; cbn; lia.
Qed.

End MediaFacts.

(** C9. For every list of ids, GetAttachmentsByIDs issues one cached load
    per id, in order, and returns a nil error with the attachments of
    exactly the ids whose load succeeded, in the order of the ids: an id
    whose load failed is skipped, so the result is never longer than the
    request, and when every load fails the result is empty and the call
    still succeeds. *)
Theorem GetAttachmentsByIDs_best_effort :
  forall (St : Type) (conn : DBConn St) (ids : list string) (w : MediaWorld St),
    let outcomes := (loadEach conn ids w).1 in
    let w' := (loadEach conn ids w).2 in
    GetAttachmentsByIDs conn ids w = (Ok (omap loaded outcomes), w') /\
    length outcomes = length ids /\
    loads w' = loads w ++ ((fun id => ("ID", id)) <$> ids) /\
    (length (omap loaded outcomes) <= length ids)%nat.
Proof.
  intros St conn ids w outcomes w'.
  assert (Hrun : GetAttachmentsByIDs conn ids w = (Ok (omap loaded outcomes), w')).
  { unfold GetAttachmentsByIDs. rewrite GetAttachmentsByIDs_acc. reflexivity. }
  split; [exact Hrun|]. split; [apply loadEach_length|].
  split; [apply loadEach_loads|].
  rewrite <- (loadEach_length conn ids w). apply omap_loaded_length.
Qed.

(** Of three ids the middle one is missing: the call succeeds with the
    other two, in order. *)
Example batch_read_skips_missing_id :
  (GetAttachmentsByIDs media_fixtures.listConn ["01A"; "01B"; "01C"]
     (media_fixtures.mediaWorld
        [media_fixtures.mkMedia "01C"; media_fixtures.mkMedia "01A"])).1
  = Ok [media_fixtures.mkMedia "01A"; media_fixtures.mkMedia "01C"].
Proof. vm_compute. reflexivity. Qed.

(** Every lookup fails: the call still succeeds, with nothing. *)
Example batch_read_all_missing :
  (GetAttachmentsByIDs media_fixtures.listConn ["01A"; "01B"]
     (media_fixtures.mediaWorld [])).1 = Ok [] /\
  statements
    (GetAttachmentsByIDs media_fixtures.listConn ["01A"; "01B"]
       (media_fixtures.mediaWorld [])).2 = [QSelectByID "01A"; QSelectByID "01B"].
Proof. split; vm_compute; reflexivity. Qed.

(** C8. UpdateAttachment stamps the attachment's update time with the
    current time, whatever the store answers, and issues one update whose
    column list is the caller's list followed by "updated_at" when the
    caller gave columns, and empty when the caller gave none. *)
Theorem UpdateAttachment_stamps_updated_at :
  forall (St : Type) (conn : DBConn St) (media : MediaAttachment)
         (columns : list string) (w : MediaWorld St),
    exists media' err persisted w',
      UpdateAttachment conn media columns w = (Ok (media', err), w') /\
      media' = setUpdatedAt media (wallclock w) /\
      MediaUpdatedAt media' = wallclock w /\
      MediaID media' = MediaID media /\
      statements w' = statements w ++ [QUpdate media' persisted] /\
      ((columns = [] /\ persisted = []) \/
       (columns <> [] /\ persisted = columns ++ ["updated_at"] /\
        "updated_at" ∈ persisted /\ columns ⊆ persisted)).
Proof.
  intros St conn media columns w.
  unfold UpdateAttachment. rewrite bind_run. cbn [media_time_Now].
  unfold media_time_Now.
  set (media' := setUpdatedAt media (wallclock w)).
  set (persisted := if bool_decide (0 < length columns)%nat
                    then columns ++ ["updated_at"] else columns).
  assert (Hcols : (columns = [] /\ persisted = []) \/
                  (columns <> [] /\ persisted = columns ++ ["updated_at"] /\
                   "updated_at" ∈ persisted /\ columns ⊆ persisted)).
  { subst persisted. destruct columns as [|c cs].
    - left. auto.
    - right. rewrite bool_decide_eq_true_2 by (cbn; lia).
      split; [discriminate|]. split; [reflexivity|]. split.
      + apply elem_of_app. right. apply list_elem_of_singleton. reflexivity.
      + apply list_subseteq_app_l. reflexivity. }
  rewrite bind_run. unfold try, Cache_Store. rewrite !bind_run.
  unfold connExec.
  destruct (Update conn media' persisted (contents w)) as [[e|] s'] eqn:Hupd.
  - exists media', (Some e), persisted. eexists. cbn.
    repeat split; auto.
  - exists media', None, persisted. eexists. cbn.
    repeat split; auto.
Qed.

(** The caller names one column: the update persists it and "updated_at";
    the caller names none: the column list stays empty. *)
Example update_appends_updated_at :
  statements
    (UpdateAttachment media_fixtures.listConn (media_fixtures.mkMedia "01A")
       ["status_id"]
       (media_fixtures.mediaWorld [media_fixtures.mkMedia "01A"])).2
  = [QUpdate (setUpdatedAt (media_fixtures.mkMedia "01A") 1700002000)
             ["status_id"; "updated_at"]] /\
  statements
    (UpdateAttachment media_fixtures.listConn (media_fixtures.mkMedia "01A") []
       (media_fixtures.mediaWorld [media_fixtures.mkMedia "01A"])).2
  = [QUpdate (setUpdatedAt (media_fixtures.mkMedia "01A") 1700002000) []].
Proof. split; vm_compute; reflexivity. Qed.

(* ===================================================================== *)
(** * MediaPrune                                                          *)
(* ===================================================================== *)

(** C10. MediaPrune returns a bad-request error, with the manager not
    called, exactly when mediaRemoteCacheDays is negative; otherwise it
    calls the manager's PruneAll once with that value and dry = false,
    returns nil when PruneAll returns nil and an internal error (never a
    bad request) when PruneAll returns an error. *)
Theorem MediaPrune_validates_then_delegates :
  forall (Mg : Type) (mediaManager : Manager Mg) (mediaRemoteCacheDays : Z)
         (w : AdminWorld Mg),
    (mediaRemoteCacheDays < 0 /\
     exists err helpText,
       MediaPrune mediaManager mediaRemoteCacheDays w
         = (Fail (ErrorBadRequest err helpText), w))
    \/
    (0 <= mediaRemoteCacheDays /\
     exists err m',
       PruneAll mediaManager mediaRemoteCacheDays false (manager w) = (err, m') /\
       MediaPrune mediaManager mediaRemoteCacheDays w
         = (match err with
            | None => Ok tt
            | Some e => Fail (ErrorInternalError (Errorf "MediaPrune" e))
            end,
            mkAdminWorld m' (pruneCalls w ++ [(mediaRemoteCacheDays, false)]))).
Proof.
  intros Mg mediaManager days w. unfold MediaPrune.
  destruct (decide (days < 0)) as [Hneg|Hpos].
  - left. split; [exact Hneg|]. rewrite bool_decide_eq_true_2 by exact Hneg.
    eexists. eexists. destruct w. reflexivity.
  - right. split; [lia|]. rewrite bool_decide_eq_false_2 by exact Hpos.
    rewrite bind_run. unfold callPruneAll.
    destruct (PruneAll mediaManager days false (manager w)) as [[e|] m'].
    + exists (Some e), m'. split; reflexivity.
    + exists None, m'. split; reflexivity.
Qed.

(** A negative value is refused with the value in the message and the
    manager untouched; zero is delegated. *)
Example prune_refuses_negative_days :
  MediaPrune admin_fixtures.countingManager (-3) (mkAdminWorld 0%nat [])
  = (Fail (ErrorBadRequest
             (ErrNew "MediaPrune: invalid value for mediaRemoteCacheDays prune: value was -3, cannot be less than 0")
             "MediaPrune: invalid value for mediaRemoteCacheDays prune: value was -3, cannot be less than 0"),
     mkAdminWorld 0%nat []) /\
  MediaPrune admin_fixtures.countingManager 0 (mkAdminWorld 0%nat [])
  = (Ok tt, mkAdminWorld 1%nat [(0, false)]).
Proof. split; vm_compute; reflexivity. Qed.

(* ===================================================================== *)
(** * Delete with nothing left to do                                      *)
(* ===================================================================== *)

Section StoreCalls.
Context {St E : Type}.

Lemma dbRead_run {A} (c : Call) (q : St -> A) (w : World St) :
  dbRead (E := E) c q w = (Ok (q (store w)), logged w [c]).
Proof. reflexivity. Qed.

Lemma dbWrite_run (c : Call) (q : St -> option error * St) (w : World St) :
  dbWrite (E := E) c q w =
  (Ok (q (store w)).1,
   mkWorld (q (store w)).2 (trace w ++ [c]) (queue w) (clock w) (entropy w)).
Proof. unfold dbWrite. destruct (q (store w)); reflexivity. Qed.

(** A listing that is checked for a real error and answered nothing. *)
Lemma guarded_listing_empty {A B} (c : Call) (q : St -> list A * option error)
  (wrap : error -> E) (k : list A -> M (World St) E B) (w : World St) :
  emptyListing (q (store w)) ->
  ('(rows, err) ← dbRead c q; check (realError err) wrap;; k rows) w
  = k [] (logged w [c]).
Proof.
  intros [Hrows Herr]. rewrite bind_run, dbRead_run.
  destruct (q (store w)) as [rows err]. cbn in Hrows, Herr. subst rows.
  rewrite bind_run, Herr, check_None. reflexivity.
Qed.

(** A deletion by filter that is checked for a real error and answered
    nil or no matching rows. *)
Lemma guarded_delete_quiet {B} (c : Call) (q : St -> option error * St)
  (wrap : error -> E) (k : M (World St) E B) (w : World St) :
  realError (q (store w)).1 = None ->
  (err ← dbWrite c q; check (realError err) wrap;; k) w
  = k (mkWorld (q (store w)).2 (trace w ++ [c]) (queue w) (clock w) (entropy w)).
Proof.
  intros Herr. rewrite bind_run, dbWrite_run, bind_run, Herr, check_None.
  reflexivity.
Qed.

Lemma guarded_delete_quiet_last (c : Call) (q : St -> option error * St)
  (wrap : error -> E) (w : World St) :
  realError (q (store w)).1 = None ->
  (err ← dbWrite c q; check (realError err) wrap) w
  = (Ok tt,
     mkWorld (q (store w)).2 (trace w ++ [c]) (queue w) (clock w) (entropy w)).
Proof.
  intros Herr. rewrite bind_run, dbWrite_run, Herr, check_None. reflexivity.
Qed.

Lemma advances_trans (w1 w2 w3 : World St) cs1 cs2 bs1 bs2 :
  advances w1 w2 cs1 bs1 -> advances w2 w3 cs2 bs2 ->
  advances w1 w3 (cs1 ++ cs2) (bs1 ++ bs2).
Proof.
  intros (Ht1 & Hq1 & Hc1) (Ht2 & Hq2 & Hc2). unfold advances.
  rewrite Ht2, Ht1, Hq2, Hq1, Hc2, Hc1, !app_assoc. auto.
Qed.

End StoreCalls.

Section Quiet.
Context {St : Type} (DB : db.DB St) (cr : Crypto) (account : Account).
Hypothesis Hgone : rowsGone DB account.
Hypothesis Hok : writesSucceed DB account.

Lemma deleteAccountFollows_quiet (w : World St) :
  exists w',
    deleteAccountFollows DB account w = (Ok tt, w') /\
    advances w w' [ CGetAccountFollowers (ID account);
                    CGetAccountFollowRequests (ID account);
                    CGetAccountFollows (ID account);
                    CGetAccountFollowRequesting (ID account) ] [[]].
Proof.
  unfold deleteAccountFollows.
  rewrite guarded_listing_empty by apply (gone_followers _ _ Hgone).
  rewrite bind_run, forRange_nil.
  rewrite guarded_listing_empty by apply (gone_followRequests _ _ Hgone).
  rewrite bind_run, forRange_nil.
  rewrite guarded_listing_empty by apply (gone_follows _ _ Hgone).
  rewrite bind_run, forRange_nil.
  rewrite guarded_listing_empty by apply (gone_followRequesting _ _ Hgone).
  rewrite bind_run, forRange_nil.
  eexists. split; [reflexivity|].
  unfold advances. cbn [store trace queue clock entropy logged].
  rewrite <- !app_assoc. auto.
Qed.

Lemma deleteAccountBlocks_quiet (w : World St) :
  exists w',
    deleteAccountBlocks DB account w = (Ok tt, w') /\
    advances w w' [CDeleteAccountBlocks (ID account)] [].
Proof.
  unfold deleteAccountBlocks. rewrite bind_run, dbWrite_run.
  rewrite (ok_blocks _ _ Hok), check_None.
  eexists. split; [reflexivity|].
  unfold advances. cbn. rewrite app_nil_r. auto.
Qed.

Lemma deleteAccountStatuses_quiet (fuel : nat) (w : World St) :
  exists w',
    deleteAccountStatuses DB (S fuel) account w = (Ok tt, w') /\
    advances w w' [CGetAccountStatuses (ID account) deleteSelectLimit ""] [[]].
Proof.
  unfold deleteAccountStatuses. rewrite bind_run. cbn [statusLoop].
  rewrite (guarded_listing_empty _ _ _
             (fun statuses =>
                match last statuses with
                | Some lastStatus =>
                  msgs ← forRange statuses [] (statusStep DB account);
                  statusLoop DB fuel account (StatusID lastStatus) msgs
                | None => mret []
                end))
    by apply (gone_statuses _ _ Hgone).
  cbn [last]. unfold mret, M_ret, EnqueueClientAPI.
  eexists. split; [reflexivity|].
  unfold advances. cbn. auto.
Qed.

Lemma deleteAccountNotifications_quiet (w : World St) :
  exists w',
    deleteAccountNotifications DB account w = (Ok tt, w') /\
    advances w w' [ CDeleteNotifications (ID account) "";
                    CDeleteNotifications "" (ID account) ] [].
Proof.
  unfold deleteAccountNotifications.
  rewrite guarded_delete_quiet by apply (gone_notifications _ _ Hgone).
  rewrite guarded_delete_quiet_last by apply (gone_notifications _ _ Hgone).
  eexists. split; [reflexivity|].
  unfold advances. cbn. rewrite <- !app_assoc, app_nil_r. auto.
Qed.

Lemma deleteAccountPeripheral_quiet (w : World St) :
  exists w',
    deleteAccountPeripheral DB account w = (Ok tt, w') /\
    advances w w' [ CDeleteStatusBookmarks (ID account) "";
                    CDeleteStatusBookmarks "" (ID account);
                    CDeleteStatusFaves (ID account) "";
                    CDeleteStatusFaves "" (ID account) ] [].
Proof.
  unfold deleteAccountPeripheral.
  rewrite guarded_delete_quiet by apply (gone_bookmarks _ _ Hgone).
  rewrite guarded_delete_quiet by apply (gone_bookmarks _ _ Hgone).
  rewrite guarded_delete_quiet by apply (gone_faves _ _ Hgone).
  rewrite guarded_delete_quiet_last by apply (gone_faves _ _ Hgone).
  eexists. split; [reflexivity|].
  unfold advances. cbn. rewrite <- !app_assoc, app_nil_r. auto.
Qed.

Lemma deleteUserAndTokensForAccount_quiet (user : User) (w : World St) :
  userLeft DB cr account user ->
  exists w' user' columns,
    deleteUserAndTokensForAccount DB cr account w = (Ok tt, w') /\
    stubbifyUser cr (entropy w) user = (user', columns, None) /\
    advances w w' [ CGetUserByAccountID (ID account);
                    CGetWhere_Token (UserID user);
                    CUpdateUser user' columns ] [].
Proof.
  intros Hleft. unfold deleteUserAndTokensForAccount.
  rewrite bind_run, dbRead_run, (left_user _ _ _ _ Hleft).
  rewrite bind_run, dbRead_run, (left_tokens _ _ _ _ Hleft).
  rewrite bind_run, check_None, bind_run, forRange_nil.
  rewrite bind_run. unfold drawEntropy at 1. cbn [entropy logged].
  pose proof (left_stub _ _ _ _ Hleft (entropy w)) as Hstub.
  destruct (stubbifyUser cr (entropy w) user) as [[user' columns] err].
  cbn in Hstub. subst err.
  rewrite bind_run, check_None, bind_run, dbWrite_run.
  rewrite (left_update _ _ _ _ Hleft), check_None.
  eexists. exists user', columns. split; [reflexivity|]. split; [reflexivity|].
  unfold advances. cbn. rewrite <- !app_assoc, app_nil_r. auto.
Qed.

End Quiet.

Lemma mapErr_Ok {W E E' A} (f : E -> E') (m : M W E A) (w w' : W) (a : A) :
  m w = (Ok a, w') -> mapErr f m w = (Ok a, w').
Proof. intros H. unfold mapErr. rewrite H. reflexivity. Qed.




(** Delete of alice on the reference store and, once the workers have
    removed her statuses, Delete again of the stubbed alice on the store
    the first run left: both return nil, and the second run makes the user
    step's three calls and the thirteen quiet calls, no deletion by id
    among them, and enqueues two empty batches. *)
Example delete_twice_on_reference_store :
  let run1 := Delete memstore.memDB memstore.okCrypto 3 memstore.alice "01ADMIN"
                     (memstore.mkWorldOf retry_fixtures.fullStore) in
  let stub := (stubbifyAccount 1700001000 memstore.alice "01ADMIN").1 in
  let w1 := worker_fixtures.afterWorkers run1.2 in
  let run2 := Delete memstore.memDB memstore.okCrypto 3 stub "01ADMIN" w1 in
  run1.1 = Ok stub /\
  run2.1 = Ok stub /\
  store run2.2 = store w1 /\
  drop (length (trace w1)) (trace run2.2) =
    [ CGetUserByAccountID "01ALICE"; CGetWhere_Token "01USER";
      CUpdateUser (stubbifyUser memstore.okCrypto 1
                     (memstore.mkUser "01USER" "01ALICE" "alice@example.org")).1.1
                  (stubbifyUser memstore.okCrypto 1
                     (memstore.mkUser "01USER" "01ALICE" "alice@example.org")).1.2 ]
    ++ quietCalls stub stub (stubbifyAccount 1700001000 stub "01ADMIN").2 /\
  drop (length (queue w1)) (queue run2.2) = [[]; []].
Proof. cbv zeta. repeat split; vm_compute; reflexivity. Qed.

(* ===================================================================== *)
(** * The order of ids and the paging of a descending table               *)
(* ===================================================================== *)

Lemma idLt_not_le (a b : string) : idLt a b = true <-> ~ String.le b a.
Proof.
  unfold idLt, String.le, String.ltb, String.leb.
  rewrite (String.compare_antisym b a).
  destruct (String.compare a b); cbn; intuition discriminate.
Qed.

Lemma idLt_irrefl (a : string) : idLt a a = false.
Proof.
  destruct (idLt a a) eqn:H; [|reflexivity].
  apply idLt_not_le in H. destruct H. reflexivity.
Qed.

Lemma idLt_le (a b : string) : idLt a b = true -> String.le a b.
Proof.
  intros H. apply idLt_not_le in H.
  destruct (total String.le a b) as [Hab|Hba]; [exact Hab | contradiction].
Qed.

Lemma idLt_trans (a b c : string) :
  idLt a b = true -> idLt b c = true -> idLt a c = true.
Proof.
  intros Hab Hbc. apply idLt_not_le. intros Hca.
  apply idLt_not_le in Hbc. apply Hbc.
  transitivity a; [exact Hca | apply idLt_le, Hab].
Qed.

Lemma idLt_asym (a b : string) : idLt a b = true -> idLt b a = false.
Proof.
  intros Hab. destruct (idLt b a) eqn:Hba; [|reflexivity].
  pose proof (idLt_trans _ _ _ Hab Hba) as H. rewrite idLt_irrefl in H.
  discriminate.
Qed.

Lemma descending_cons (s : Status) (rows : list Status) :
  descending (s :: rows) = true <->
  (forall s', s' ∈ rows -> idLt (StatusID s') (StatusID s) = true) /\
  descending rows = true.
Proof.
  cbn [descending]. rewrite andb_true_iff, forallb_forall.
  split; intros [H1 H2]; split; auto; intros x Hx; apply H1.
  - apply list_elem_of_In, Hx.
  - apply list_elem_of_In, Hx.
Qed.

Lemma descending_app (pre post : list Status) :
  descending (pre ++ post) = true ->
  descending pre = true /\ descending post = true /\
  forall x y, x ∈ pre -> y ∈ post -> idLt (StatusID y) (StatusID x) = true.
Proof.
  induction pre as [|s pre IH]; intros H.
  - split; [reflexivity|]. split; [exact H|]. intros x y Hx. inversion Hx.
  - cbn [app] in H. apply descending_cons in H as [Hhd Htl].
    destruct (IH Htl) as (Hpre & Hpost & Hcross).
    split; [|split; [exact Hpost|]].
    + apply descending_cons. split; [|exact Hpre].
      intros s' Hs'. apply Hhd, elem_of_app. left. exact Hs'.
    + intros x y Hx Hy. apply elem_of_cons in Hx as [->|Hx].
      * apply Hhd, elem_of_app. right. exact Hy.
      * apply Hcross; assumption.
Qed.

Lemma filter_all {A} (P : A -> Prop) `{forall x, Decision (P x)} (l : list A) :
  (forall x, x ∈ l -> P x) -> filter P l = l.
Proof.
  induction l as [|x l IH]; intros Hall; [reflexivity|].
  rewrite filter_cons_True by (apply Hall; left).
  f_equal. apply IH. intros y Hy. apply Hall. right. exact Hy.
Qed.

Lemma filter_none {A} (P : A -> Prop) `{forall x, Decision (P x)} (l : list A) :
  (forall x, x ∈ l -> ~ P x) -> filter P l = [].
Proof.
  induction l as [|x l IH]; intros Hnone; [reflexivity|].
  rewrite filter_cons_False by (apply Hnone; left).
  apply IH. intros y Hy. apply Hnone. right. exact Hy.
Qed.

Lemma idsNonEmpty_elem (rows : list Status) (s : Status) :
  idsNonEmpty rows = true -> s ∈ rows -> StatusID s <> "".
Proof.
  unfold idsNonEmpty. rewrite forallb_forall. intros Hids Hs.
  specialize (Hids s (proj1 (list_elem_of_In _ _) Hs)).
  rewrite negb_true_iff, bool_decide_eq_false in Hids. exact Hids.
Qed.

(** Below the cursor left by [pre] lie exactly the rows after [pre]. *)
Lemma below_cursor (pre post : list Status) :
  descending (pre ++ post) = true ->
  idsNonEmpty (pre ++ post) = true ->
  filter (fun s => cursorAfter pre = "" \/ idLt (StatusID s) (cursorAfter pre) = true)
         (pre ++ post) = post.
Proof.
  intros Hdesc Hids. unfold cursorAfter.
  destruct (last pre) as [l|] eqn:Hlast.
  - apply last_Some in Hlast as [pre' ->].
    assert (Hl : StatusID l <> "").
    { apply (idsNonEmpty_elem _ _ Hids).
      rewrite !elem_of_app, list_elem_of_singleton. auto. }
    destruct (descending_app _ _ Hdesc) as (Hpre & Hpost & Hcross).
    destruct (descending_app _ _ Hpre) as (_ & _ & Hbefore).
    rewrite filter_app, filter_none, filter_all; [reflexivity| |].
    + intros y Hy. right. apply Hcross; [|exact Hy].
      apply elem_of_app. right. apply list_elem_of_singleton. reflexivity.
    + intros x Hx [Hnil|Hlt]; [contradiction|].
      apply elem_of_app in Hx as [Hx|Hx].
      * rewrite (idLt_asym (StatusID l) (StatusID x)) in Hlt; [discriminate|].
        apply Hbefore; [exact Hx|]. apply list_elem_of_singleton. reflexivity.
      * apply list_elem_of_singleton in Hx as ->.
        rewrite idLt_irrefl in Hlt. discriminate.
  - apply last_None in Hlast as ->. cbn [app].
    apply filter_all. intros x _. left. reflexivity.
Qed.

(** The page the contract answers once [pre] has been paged. *)
Lemma statusPage_after (pre post : list Status) :
  descending (pre ++ post) = true ->
  idsNonEmpty (pre ++ post) = true ->
  statusPage (pre ++ post) deleteSelectLimit (cursorAfter pre) = take 50 post.
Proof.
  intros Hdesc Hids. unfold statusPage.
  rewrite (below_cursor pre post Hdesc Hids). reflexivity.
Qed.

(* ===================================================================== *)
(** * The status-deletion step                                            *)
(* ===================================================================== *)

Lemma pageCalls_app (cs1 cs2 : list Call) :
  pageCalls (cs1 ++ cs2) = pageCalls cs1 ++ pageCalls cs2.
Proof. apply filter_app. Qed.

Lemma readsOnly_refl {St} (w : World St) : readsOnly w w.
Proof.
  unfold readsOnly. split; [reflexivity|]. split; [reflexivity|].
  exists []. rewrite app_nil_r. auto.
Qed.

Lemma readsOnly_trans {St} (w1 w2 w3 : World St) :
  readsOnly w1 w2 -> readsOnly w2 w3 -> readsOnly w1 w3.
Proof.
  intros (Hs1 & Hq1 & cs1 & Ht1 & Hp1) (Hs2 & Hq2 & cs2 & Ht2 & Hp2).
  unfold readsOnly. rewrite Hs2, Hs1, Hq2, Hq1.
  split; [reflexivity|]. split; [reflexivity|].
  exists (cs1 ++ cs2). rewrite Ht2, Ht1, app_assoc, pageCalls_app, Hp1, Hp2. auto.
Qed.

Lemma readsOnly_logged {St} (w : World St) (c : Call) :
  isPageCall c = false -> readsOnly w (logged w [c]).
Proof.
  intros Hc. unfold readsOnly, logged. cbn.
  split; [reflexivity|]. split; [reflexivity|].
  exists [c]. split; [reflexivity|].
  unfold pageCalls. apply filter_none. intros x Hx.
  apply list_elem_of_singleton in Hx as ->. rewrite Hc. discriminate.
Qed.

Section StatusStep.
Context {St : Type} (DB : db.DB St) (account : Account).

Lemma boostLoop_run (status : Status) (boosts : list Status)
  (msgs : list FromClientAPI) (w : World St) :
  (forall boost, boost ∈ boosts -> StatusAccount boost = None ->
     match GetAccountByID DB (StatusAccountID boost) (store w) with
     | inl err => isErrNoEntries err = true
     | inr _ => True
     end) ->
  exists w',
    forRange boosts msgs (boostStep DB account status) w
      = (Ok (msgs ++ omap (fun boost =>
                             (fun boostAcc =>
                                undoAnnounceMsg status (Some boostAcc) account)
                               <$> booster DB (store w) boost) boosts), w') /\
    readsOnly w w'.
Proof.
  revert msgs w. induction boosts as [|boost boosts IH]; intros msgs w Hfetch.
  - exists w. cbn. rewrite app_nil_r. split; [reflexivity|apply readsOnly_refl].
  - rewrite forRange_cons, bind_run. cbn [omap list_omap].
    assert (Hrest : forall boost', boost' ∈ boosts ->
              StatusAccount boost' = None ->
              match GetAccountByID DB (StatusAccountID boost') (store w) with
              | inl err => isErrNoEntries err = true
              | inr _ => True
              end).
    { intros boost' Hin. apply Hfetch. right. exact Hin. }
    pose proof (Hfetch boost (list_elem_of_here _ _)) as Hthis.
    unfold boostStep at 1, booster at 1.
    destruct (StatusAccount boost) as [boostAcc|] eqn:Hattached.
    + unfold mret at 1, M_ret at 1. cbn [fmap option_fmap option_map].
      destruct (IH (msgs ++ [undoAnnounceMsg status (Some boostAcc) account]) w Hrest)
        as (w' & Hrun & Hro).
      exists w'. rewrite Hrun, <- app_assoc. auto.
    + rewrite bind_run, dbRead_run.
      destruct (GetAccountByID DB (StatusAccountID boost) (store w))
        as [err|boostAcc] eqn:Hget.
      * rewrite (Hthis eq_refl).
        unfold mret at 1, M_ret at 1.
        cbn [fmap option_fmap option_map].
        destruct (IH msgs (logged w [CGetAccountByID (StatusAccountID boost)]) Hrest)
          as (w' & Hrun & Hro).
        exists w'. cbn [store logged] in Hrun. rewrite Hrun.
        split; [reflexivity|].
        eapply readsOnly_trans; [|exact Hro]. apply readsOnly_logged. reflexivity.
      * unfold mret at 1, M_ret at 1. cbn [fmap option_fmap option_map].
        destruct (IH (msgs ++ [undoAnnounceMsg status (Some boostAcc) account])
                     (logged w [CGetAccountByID (StatusAccountID boost)]) Hrest)
          as (w' & Hrun & Hro).
        exists w'. cbn [store logged] in Hrun. rewrite Hrun, <- app_assoc.
        split; [reflexivity|].
        eapply readsOnly_trans; [|exact Hro]. apply readsOnly_logged. reflexivity.
Qed.

Lemma statusStep_run (rows : list Status) (status : Status)
  (msgs : list FromClientAPI) (w : World St) :
  reblogsReadable DB (store w) account rows ->
  status ∈ rows ->
  exists w',
    statusStep DB account msgs status w
      = (Ok (msgs ++ statusEvents DB (store w) account status), w') /\
    readsOnly w w'.
Proof.
  intros Hreadable Hin. destruct (Hreadable status Hin) as [Herr Hfetch].
  unfold statusStep, statusEvents. cbn zeta.
  rewrite bind_run, dbRead_run.
  destruct (GetStatusReblogs DB (setStatusAccount status account) (store w))
    as [boosts err]. cbn [fst snd] in *.
  rewrite bind_run, Herr, check_None.
  destruct (boostLoop_run (setStatusAccount status account) boosts
              (msgs ++ [deleteNoteMsg (setStatusAccount status account) account])
              (logged w [CGetStatusReblogs (setStatusAccount status account)])
              Hfetch) as (w' & Hrun & Hro).
  exists w'. cbn [store logged] in Hrun. rewrite Hrun, <- app_assoc.
  split; [reflexivity|].
  eapply readsOnly_trans; [|exact Hro]. apply readsOnly_logged. reflexivity.
Qed.

Lemma pageLoop_run (rows page : list Status)
  (msgs : list FromClientAPI) (w : World St) :
  reblogsReadable DB (store w) account rows ->
  page ⊆ rows ->
  exists w',
    forRange page msgs (statusStep DB account) w
      = (Ok (msgs ++ (page ≫= statusEvents DB (store w) account)), w') /\
    readsOnly w w'.
Proof.
  revert msgs w. induction page as [|status page IH]; intros msgs w Hreadable Hsub.
  - exists w. cbn. rewrite app_nil_r. split; [reflexivity|apply readsOnly_refl].
  - rewrite forRange_cons, bind_run.
    destruct (statusStep_run rows status msgs w Hreadable) as (w1 & Hrun1 & Hro1).
    { apply Hsub. left. }
    rewrite Hrun1.
    destruct Hro1 as (Hs1 & Hq1 & Hcalls1).
    destruct (IH (msgs ++ statusEvents DB (store w) account status) w1)
      as (w' & Hrun & Hro).
    { rewrite Hs1. exact Hreadable. }
    { intros x Hx. apply Hsub. right. exact Hx. }
    exists w'. rewrite Hrun, Hs1, <- app_assoc. split; [reflexivity|].
    eapply readsOnly_trans; [|exact Hro]. split; auto.
Qed.

End StatusStep.

Section StatusLoop.
Context {St : Type} (DB : db.DB St) (account : Account).

Lemma cursorAfter_page (pre page : list Status) (lastStatus : Status) :
  last page = Some lastStatus ->
  cursorAfter (pre ++ page) = StatusID lastStatus.
Proof.
  intros Hlast. unfold cursorAfter. rewrite last_app, Hlast. reflexivity.
Qed.

Lemma statusLoop_S (fuel : nat) (maxID : string) (msgs : list FromClientAPI) :
  statusLoop DB (S fuel) account maxID msgs =
  ('(statuses, err) ← dbRead
      (CGetAccountStatuses (ID account) deleteSelectLimit maxID)
      (GetAccountStatuses DB (ID account) deleteSelectLimit
                          false false maxID "" false false);
   check (realError err) (fun e => e);;
   match last statuses with
   | None => mret msgs
   | Some lastStatus =>
     msgs ← forRange statuses msgs (statusStep DB account);
     statusLoop DB fuel account (StatusID lastStatus) msgs
   end).
Proof. reflexivity. Qed.

(** The loop, from the point where [pre] has been paged and [post] is
    left: with one iteration per page of [post] and one more for the empty
    page it ends, having collected the events of [post] in order and made
    the page queries of [pageCursors]. *)
Lemma statusLoop_run (fuel : nat) :
  forall (pre post : list Status) (msgs : list FromClientAPI) (w : World St),
    descending (pre ++ post) = true ->
    idsNonEmpty (pre ++ post) = true ->
    pagesOver DB (store w) account (pre ++ post) ->
    reblogsReadable DB (store w) account (pre ++ post) ->
    (length post <= 50 * fuel)%nat ->
    exists w',
      statusLoop DB (S fuel) account (cursorAfter pre) msgs w
        = (Ok (msgs ++ (post ≫= statusEvents DB (store w) account)), w') /\
      store w' = store w /\
      queue w' = queue w /\
      pageCalls (trace w') =
        pageCalls (trace w)
        ++ (CGetAccountStatuses (ID account) deleteSelectLimit
              <$> pageCursors fuel pre post).
Proof.
  induction fuel as [|fuel IH];
    intros pre post msgs w Hdesc Hids Hpages Hreadable Hlen.
  - (* no row is left: the one query answers the empty page *)
    destruct post as [|s post]; [|cbn in Hlen; lia].
    rewrite statusLoop_S, bind_run, dbRead_run.
    destruct (Hpages (cursorAfter pre)) as [Hpage Herr].
    rewrite statusPage_after in Hpage by assumption.
    destruct (GetAccountStatuses DB (ID account) deleteSelectLimit false false
                (cursorAfter pre) "" false false (store w)) as [statuses err].
    cbn [fst snd] in Hpage, Herr. subst statuses.
    rewrite bind_run, Herr, check_None. cbn.
    eexists. split; [rewrite app_nil_r; reflexivity|].
    cbn. rewrite pageCalls_app. auto.
  - rewrite statusLoop_S, bind_run, dbRead_run.
    destruct (Hpages (cursorAfter pre)) as [Hpage Herr].
    rewrite statusPage_after in Hpage by assumption.
    destruct (GetAccountStatuses DB (ID account) deleteSelectLimit false false
                (cursorAfter pre) "" false false (store w)) as [statuses err].
    cbn [fst snd] in Hpage, Herr. subst statuses.
    rewrite bind_run, Herr, check_None. lazy beta match.
    destruct post as [|s post].
    + cbn. eexists. split; [rewrite app_nil_r; reflexivity|].
      cbn. rewrite pageCalls_app. auto.
    + set (rest := s :: post) in *.
      destruct (last (take 50 rest)) as [lastStatus|] eqn:Hlast.
      2:{ apply last_None in Hlast. discriminate. }
      rewrite bind_run.
      destruct (pageLoop_run DB account (pre ++ rest) (take 50 rest) msgs
                  (logged w [CGetAccountStatuses (ID account) deleteSelectLimit
                                                 (cursorAfter pre)]))
        as (w1 & Hrun1 & Hs1 & Hq1 & calls & Ht1 & Hp1).
      { exact Hreadable. }
      { intros x Hx. apply elem_of_app. right.
        apply (subseteq_take 50 rest). exact Hx. }
      rewrite Hrun1. lazy beta match. cbn [store logged] in Hs1.
      assert (Hsplit : pre ++ rest = (pre ++ take 50 rest) ++ drop 50 rest).
      { rewrite <- app_assoc, take_drop. reflexivity. }
      destruct (IH (pre ++ take 50 rest) (drop 50 rest)
                   (msgs ++ (take 50 rest ≫= statusEvents DB (store w) account)) w1)
        as (w' & Hrun & Hs & Hq & Ht).
      { rewrite <- Hsplit. exact Hdesc. }
      { rewrite <- Hsplit. exact Hids. }
      { rewrite <- Hsplit, Hs1. exact Hpages. }
      { rewrite <- Hsplit, Hs1. exact Hreadable. }
      { rewrite length_drop. lia. }
      rewrite (cursorAfter_page pre _ _ Hlast) in Hrun.
      cbn [store logged] in Hrun1, Hrun. cbn [store logged].
      rewrite Hs1 in Hrun. rewrite Hrun.
      exists w'. rewrite <- app_assoc, <- bind_app, take_drop.
      split; [reflexivity|]. rewrite Hs, Hs1. split; [reflexivity|].
      rewrite Hq, Hq1. split; [reflexivity|].
      rewrite Ht, Ht1. cbn [trace logged]. rewrite !pageCalls_app, Hp1.
      cbn [pageCursors]. subst rest. rewrite app_nil_r, <- app_assoc.
      reflexivity.
Qed.

End StatusLoop.

Section Counting.
Context {St : Type} (DB : db.DB St) (s : St) (account : Account).

Lemma statusEvents_delete_notes (status : Status) :
  filter isDeleteNote (statusEvents DB s account status)
  = [deleteNoteMsg (setStatusAccount status account) account].
Proof.
  unfold statusEvents. cbn zeta.
  rewrite filter_cons_True by (split; reflexivity). f_equal.
  apply filter_none. intros msg Hmsg [Hobj _].
  apply list_elem_of_omap in Hmsg as (boost & _ & Hb).
  destruct (booster DB s boost); cbn in Hb; [|discriminate].
  inversion Hb; subst. discriminate.
Qed.

Lemma statusEvents_undo_announces (status : Status) :
  length (filter isUndoAnnounce (statusEvents DB s account status))
  = length (resolvedBoosts DB s account status).
Proof.
  unfold statusEvents, resolvedBoosts, existingReblogs. cbn zeta.
  rewrite filter_cons_False by (intros [Hobj _]; discriminate).
  induction ((GetStatusReblogs DB (setStatusAccount status account) s).1)
    as [|boost boosts IH]; [reflexivity|].
  cbn [omap list_omap].
  destruct (booster DB s boost) as [boostAcc|];
    cbn [fmap option_fmap option_map].
  - rewrite filter_cons_True by (split; reflexivity).
    cbn [length]. f_equal. exact IH.
  - exact IH.
Qed.

Lemma batch_delete_notes (rows : list Status) :
  length (filter isDeleteNote (rows ≫= statusEvents DB s account)) = length rows.
Proof.
  induction rows as [|status rows IH]; [reflexivity|].
  rewrite bind_cons, filter_app, length_app, statusEvents_delete_notes, IH.
  reflexivity.
Qed.

Lemma batch_undo_announces (rows : list Status) :
  length (filter isUndoAnnounce (rows ≫= statusEvents DB s account))
  = length (rows ≫= resolvedBoosts DB s account).
Proof.
  induction rows as [|status rows IH]; [reflexivity|].
  rewrite !bind_cons, filter_app, !length_app, statusEvents_undo_announces, IH.
  reflexivity.
Qed.

Lemma batch_delete_notes_about_account (rows : list Status) :
  Forall (fun msg => isDeleteNote msg ->
                     OriginAccount msg = Some account /\
                     TargetAccount msg = Some account)
         (rows ≫= statusEvents DB s account).
Proof.
  apply Forall_forall. intros msg Hmsg Hnote.
  apply list_elem_of_bind in Hmsg as (status & Hmsg & _).
  assert (Hin : msg ∈ filter isDeleteNote (statusEvents DB s account status)).
  { apply list_elem_of_filter. auto. }
  rewrite statusEvents_delete_notes in Hin.
  apply list_elem_of_singleton in Hin as ->. auto.
Qed.

End Counting.

Lemma pageCursors_nil (fuel : nat) (pre : list Status) :
  pageCursors fuel pre [] = [cursorAfter pre].
Proof. destruct fuel; reflexivity. Qed.

Lemma pageCursors_more (fuel : nat) (pre post : list Status) :
  post <> [] ->
  pageCursors (S fuel) pre post =
  cursorAfter pre :: pageCursors fuel (pre ++ take 50 post) (drop 50 post).
Proof. destruct post; [congruence | reflexivity]. Qed.

Lemma last_of_nonempty {A} (l : list A) :
  (0 < length l)%nat -> exists x, last l = Some x.
Proof.
  intros Hlen. destruct (last l) as [x|] eqn:Hlast; [eauto|].
  apply last_None in Hlast as ->. cbn in Hlen. lia.
Qed.

(** C3 (as the code has it). Against a store that pages over the
    account's 120 statuses (descending ids, none empty) and whose reblogs
    can be read, the status-deletion step asks for pages of 50 rows, moves
    the cursor to the id of the last row of each page and stops at the
    empty page: it reads exactly 3 non-empty pages, of 50, 50 and 20 rows,
    and then the empty one.  It enqueues one batch, after the scan, with
    exactly 120 "delete note" events (origin = target = the deleted
    account) and exactly one "undo announce" event per existing reblog of
    those statuses whose booster account is attached to the reblog or
    found in the store; a reblog whose booster account does not exist
    gives no event. *)
Theorem deleteAccountStatuses_pages_and_batches :
  forall (St : Type) (DB : db.DB St) (account : Account) (rows : list Status)
         (fuel : nat) (w : World St),
    length rows = 120%nat ->
    descending rows = true ->
    idsNonEmpty rows = true ->
    pagesOver DB (store w) account rows ->
    reblogsReadable DB (store w) account rows ->
    (4 <= fuel)%nat ->
    exists w' p1 p2 p3 l1 l2 l3 batch,
      deleteAccountStatuses DB fuel account w = (Ok tt, w') /\
      (* the three non-empty pages *)
      (rows = p1 ++ p2 ++ p3 /\
       length p1 = 50%nat /\ length p2 = 50%nat /\ length p3 = 20%nat /\
       last p1 = Some l1 /\ last p2 = Some l2 /\ last p3 = Some l3) /\
      (statusPage rows deleteSelectLimit "" = p1 /\
       statusPage rows deleteSelectLimit (StatusID l1) = p2 /\
       statusPage rows deleteSelectLimit (StatusID l2) = p3 /\
       statusPage rows deleteSelectLimit (StatusID l3) = []) /\
      (* the page queries made, with their cursors *)
      pageCalls (trace w') =
        pageCalls (trace w)
        ++ (CGetAccountStatuses (ID account) 50
              <$> [""; StatusID l1; StatusID l2; StatusID l3]) /\
      (* the one batch *)
      queue w' = queue w ++ [batch] /\
      batch = rows ≫= statusEvents DB (store w) account /\
      length (filter isDeleteNote batch) = 120%nat /\
      Forall (fun msg => isDeleteNote msg ->
                         OriginAccount msg = Some account /\
                         TargetAccount msg = Some account) batch /\
      length (filter isUndoAnnounce batch)
        = length (rows ≫= resolvedBoosts DB (store w) account) /\
      store w' = store w.
Proof.
  intros St DB account rows fuel w Hlen Hdesc Hids Hpages Hreadable Hfuel.
  destruct fuel as [|fuel]; [lia|].
  set (p1 := take 50 rows). set (p2 := take 50 (drop 50 rows)).
  set (p3 := drop 100 rows).
  assert (Hl1 : length p1 = 50%nat)
    by (subst p1; rewrite length_take; lia).
  assert (Hl2 : length p2 = 50%nat)
    by (subst p2; rewrite length_take, length_drop; lia).
  assert (Hl3 : length p3 = 20%nat)
    by (subst p3; rewrite length_drop; lia).
  assert (Hd2 : drop 50 rows = p2 ++ p3).
  { subst p2 p3. rewrite <- (take_drop 50 (drop 50 rows)) at 1.
    rewrite drop_drop. reflexivity. }
  assert (Hrows : rows = p1 ++ p2 ++ p3).
  { rewrite <- Hd2. subst p1. rewrite take_drop. reflexivity. }
  destruct (last_of_nonempty p1) as [l1 Hlast1]; [lia|].
  destruct (last_of_nonempty p2) as [l2 Hlast2]; [lia|].
  destruct (last_of_nonempty p3) as [l3 Hlast3]; [lia|].
  assert (Hc1 : cursorAfter p1 = StatusID l1)
    by (unfold cursorAfter; rewrite Hlast1; reflexivity).
  assert (Hc2 : cursorAfter (p1 ++ p2) = StatusID l2)
    by (apply cursorAfter_page, Hlast2).
  assert (Hc3 : cursorAfter rows = StatusID l3).
  { rewrite Hrows at 1. rewrite app_assoc. apply cursorAfter_page, Hlast3. }
  destruct (statusLoop_run DB account fuel [] rows [] w)
    as (w1 & Hrun & Hs & Hq & Ht); try assumption; [lia|].
  change (cursorAfter []) with "" in Hrun.
  exists (mkWorld (store w1) (trace w1) (queue w1 ++ [rows ≫= statusEvents DB (store w) account])
                  (clock w1) (entropy w1)).
  exists p1, p2, p3, l1, l2, l3, (rows ≫= statusEvents DB (store w) account).
  split.
  { unfold deleteAccountStatuses. rewrite bind_run, Hrun. reflexivity. }
  split; [repeat split; assumption|].
  split.
  { split; [|split; [|split]].
    - exact (statusPage_after [] rows Hdesc Hids).
    - pose proof (statusPage_after p1 (p2 ++ p3)) as H.
      rewrite <- Hrows, Hc1 in H. rewrite (H Hdesc Hids).
      apply take_app_length'. symmetry. exact Hl2.
    - pose proof (statusPage_after (p1 ++ p2) p3) as H.
      rewrite <- app_assoc, <- Hrows, Hc2 in H. rewrite (H Hdesc Hids).
      apply take_ge. lia.
    - pose proof (statusPage_after rows []) as H.
      rewrite app_nil_r, Hc3 in H. exact (H Hdesc Hids). }
  split.
  { cbn [trace]. rewrite Ht. f_equal. f_equal.
    assert (Hne : rows <> []) by (intros ->; cbn in Hlen; lia).
    assert (Hne2 : drop 50 rows <> [])
      by (rewrite Hd2; intros Heq; apply (f_equal length) in Heq;
          rewrite length_app in Heq; cbn in Heq; lia).
    assert (Hne3 : p3 <> []) by (intros Heq; rewrite Heq in Hl3; cbn in Hl3; lia).
    destruct fuel as [|[|[|fuel]]]; try lia.
    rewrite (pageCursors_more _ [] rows Hne). cbn [app].
    change (Z.to_nat deleteSelectLimit) with 50%nat.
    fold p1. rewrite (pageCursors_more _ p1 (drop 50 rows) Hne2).
    fold p2. rewrite drop_drop. change (50 + 50)%nat with 100%nat. fold p3.
    rewrite (pageCursors_more _ (p1 ++ p2) p3 Hne3).
    rewrite (take_ge p3), (drop_ge p3), pageCursors_nil by lia.
    rewrite <- app_assoc, <- Hrows, Hc1, Hc2, Hc3. reflexivity. }
  cbn [queue store]. rewrite Hq, Hs.
  split; [reflexivity|]. split; [reflexivity|].
  split; [rewrite batch_delete_notes; exact Hlen|].
  split; [apply batch_delete_notes_about_account|].
  split; [apply batch_undo_announces | reflexivity].
Qed.

(** The reference store meets the listing contract of the status step. *)
Lemma listing_rows {A} (rows : list A) : (memstore.listing rows).1 = rows.
Proof. destruct rows; reflexivity. Qed.

Lemma listing_error {A} (rows : list A) :
  realError (memstore.listing rows).2 = None.
Proof. destruct rows; reflexivity. Qed.

Lemma memDB_pagesOver (s : memstore.MemStore) (account : Account) :
  pagesOver memstore.memDB s account
    (filter (fun st => StatusAccountID st = ID account) (memstore.statuses s)).
Proof.
  intros maxID. split; [apply listing_rows | apply listing_error].
Qed.

Lemma memDB_reblogsReadable (s : memstore.MemStore) (account : Account)
  (rows : list Status) :
  reblogsReadable memstore.memDB s account rows.
Proof.
  intros status _. split; [apply listing_error|].
  intros boost _ _. cbn [GetAccountByID memstore.memDB].
  destruct (filter (fun a => ID a = StatusAccountID boost) (memstore.accounts s));
    [reflexivity | exact I].
Qed.

Lemma deleteAccountStatuses_pages_and_batches_witness :
  exists w' batch,
    deleteAccountStatuses memstore.memDB 4 memstore.alice
      (memstore.mkWorldOf status_fixtures.store120) = (Ok tt, w') /\
    queue w' = [batch] /\
    length (filter isDeleteNote batch) = 120%nat /\
    length (filter isUndoAnnounce batch)
      = length (status_fixtures.aliceRows
                  ≫= resolvedBoosts memstore.memDB status_fixtures.store120
                                    memstore.alice).
Proof.
  destruct (deleteAccountStatuses_pages_and_batches _ memstore.memDB
              memstore.alice status_fixtures.aliceRows 4
              (memstore.mkWorldOf status_fixtures.store120))
    as (w' & p1 & p2 & p3 & l1 & l2 & l3 & batch & Hrun & _ & _ & _
        & Hq & Hb & Hnotes & _ & Hundo & _).
  - vm_compute. reflexivity.
  - vm_compute. reflexivity.
  - vm_compute. reflexivity.
  - replace status_fixtures.aliceRows
      with (filter (fun st => StatusAccountID st = ID memstore.alice)
                   (memstore.statuses status_fixtures.store120))
      by (vm_compute; reflexivity).
    apply memDB_pagesOver.
  - apply memDB_reblogsReadable.
  - lia.
  - exists w', batch. subst batch. auto.
Defined.

(** Not every existing reblog gives an event: alice has 120
    statuses with two existing reblogs, one by bob and one by an account
    the store has no record of; the batch has the 120 "delete note"
    events and one "undo announce" event, not two. *)
Lemma missing_booster_gives_no_undo_announce :
  length status_fixtures.aliceRows = 120%nat /\
  length (status_fixtures.aliceRows
            ≫= existingReblogs memstore.memDB status_fixtures.store120
                               memstore.alice) = 2%nat /\
  exists w' batch,
    deleteAccountStatuses memstore.memDB 4 memstore.alice
      (memstore.mkWorldOf status_fixtures.store120) = (Ok tt, w') /\
    queue w' = [batch] /\
    length (filter isDeleteNote batch) = 120%nat /\
    length (filter isUndoAnnounce batch) = 1%nat.
Proof.
  split; [vm_compute; reflexivity|]. split; [vm_compute; reflexivity|].
  eexists. eexists. split; [vm_compute; reflexivity|].
  split; [reflexivity|]. split; vm_compute; reflexivity.
Qed.

(** The page queries of that run: no cursor, then the ids of the 50th,
    the 100th and the 120th row. *)
Example pages_of_120_statuses :
  pageCalls (trace (deleteAccountStatuses memstore.memDB 4 memstore.alice
                      (memstore.mkWorldOf status_fixtures.store120)).2)
  = [ CGetAccountStatuses "01ALICE" 50 "";
      CGetAccountStatuses "01ALICE" 50 "1070";
      CGetAccountStatuses "01ALICE" 50 "1020";
      CGetAccountStatuses "01ALICE" 50 "1000" ].
Proof. vm_compute. reflexivity. Qed.

(** With too few iterations allowed the model reports the bound, not a
    result. *)
Example three_iterations_do_not_suffice :
  (deleteAccountStatuses memstore.memDB 3 memstore.alice
     (memstore.mkWorldOf status_fixtures.store120)).1 = OutOfFuel.
Proof. vm_compute. reflexivity. Qed.

(* ===================================================================== *)
(** * More on the stubbification transforms                               *)
(* ===================================================================== *)




(* ===================================================================== *)
(** * The footprint of Delete                                             *)
(* ===================================================================== *)

Section Footprint.
Context {St : Type}.

Lemma ran_refl (P : Call -> Prop) (draws : bool) (w : World St) : ran P draws w w.
Proof.
  split; [reflexivity|]. split; [reflexivity|].
  exists []. rewrite app_nil_r. auto.
Qed.

Lemma ran_trans (P : Call -> Prop) (draws : bool) (w1 w2 w3 : World St) :
  ran P draws w1 w2 -> ran P draws w2 w3 -> ran P draws w1 w3.
Proof.
  intros (Hc1 & He1 & cs1 & Ht1 & Hp1) (Hc2 & He2 & cs2 & Ht2 & Hp2).
  split; [congruence|]. split.
  - intros Hd. rewrite (He2 Hd). exact (He1 Hd).
  - exists (cs1 ++ cs2). rewrite Ht2, Ht1, app_assoc.
    split; [reflexivity | apply Forall_app; auto].
Qed.

Lemma ran_weaken (P Q : Call -> Prop) (d d' : bool) (w w' : World St) :
  (forall c, P c -> Q c) -> (d' = false -> d = false) ->
  ran P d w w' -> ran Q d' w w'.
Proof.
  intros HPQ Hd (Hc & He & cs & Ht & Hp).
  split; [exact Hc|]. split; [auto|].
  exists cs. split; [exact Ht | eapply Forall_impl; eauto].
Qed.

Context {E : Type}.

Lemma within_weaken {A} (P Q : Call -> Prop) (d d' : bool) (m : M (World St) E A) :
  (forall c, P c -> Q c) -> (d' = false -> d = false) ->
  within P d m -> within Q d' m.
Proof. intros HPQ Hd Hm w r w' H. eapply ran_weaken; eauto. Qed.

Lemma within_ret {A} P d (a : A) : within (St := St) (E := E) P d (mret a).
Proof. intros w r w' H. inversion H; subst. apply ran_refl. Qed.

Lemma within_fail {A} P d (e : E) : within (St := St) (A := A) P d (fail e).
Proof. intros w r w' H. inversion H; subst. apply ran_refl. Qed.

Lemma within_outOfFuel {A} P d : within (St := St) (E := E) (A := A) P d outOfFuel.
Proof. intros w r w' H. inversion H; subst. apply ran_refl. Qed.

Lemma within_check P d (err : option error) (wrap : error -> E) :
  within (St := St) P d (check err wrap).
Proof. destruct err; [apply within_fail | apply within_ret]. Qed.

Lemma within_dbRead {A} (P : Call -> Prop) d (c : Call) (q : St -> A) :
  P c -> within (E := E) P d (dbRead c q).
Proof.
  intros Hc w r w' H. inversion H; subst.
  split; [reflexivity|]. split; [reflexivity|].
  exists [c]. split; [reflexivity | auto].
Qed.

Lemma within_dbWrite (P : Call -> Prop) d (c : Call) (q : St -> option error * St) :
  P c -> within (E := E) P d (dbWrite c q).
Proof.
  intros Hc w r w' H. unfold dbWrite in H. destruct (q (store w)).
  inversion H; subst.
  split; [reflexivity|]. split; [reflexivity|].
  exists [c]. split; [reflexivity | auto].
Qed.

Lemma within_Enqueue P d (msgs : list FromClientAPI) :
  within (St := St) (E := E) P d (EnqueueClientAPI msgs).
Proof.
  intros w r w' H. inversion H; subst.
  split; [reflexivity|]. split; [reflexivity|].
  exists []. cbn. rewrite app_nil_r. auto.
Qed.

Lemma within_time_Now P d : within (St := St) (E := E) P d time_Now.
Proof. intros w r w' H. inversion H; subst. apply ran_refl. Qed.

Lemma within_drawEntropy P : within (St := St) (E := E) P true drawEntropy.
Proof.
  intros w r w' H. inversion H; subst.
  split; [reflexivity|]. split; [discriminate|].
  exists []. cbn. rewrite app_nil_r. auto.
Qed.

Lemma within_bind {A B} P d (m : M (World St) E A) (k : A -> M (World St) E B) :
  within P d m -> (forall a, within P d (k a)) -> within P d (m ≫= k).
Proof.
  intros Hm Hk w r w' H. rewrite bind_run in H.
  destruct (m w) as [[a|e|] w1] eqn:Hmw.
  - eapply ran_trans; [exact (Hm _ _ _ Hmw) | exact (Hk a _ _ _ H)].
  - inversion H; subst. exact (Hm _ _ _ Hmw).
  - inversion H; subst. exact (Hm _ _ _ Hmw).
Qed.

Lemma within_forRange {A B} P d (xs : list A) (acc : B)
  (body : B -> A -> M (World St) E B) :
  (forall acc x, x ∈ xs -> within P d (body acc x)) ->
  within P d (forRange xs acc body).
Proof.
  revert acc. induction xs as [|x xs IH]; intros acc Hbody.
  - apply within_ret.
  - rewrite forRange_cons. apply within_bind.
    + apply Hbody. left.
    + intros acc'. apply IH. intros acc'' y Hy. apply Hbody. right. exact Hy.
Qed.

Lemma within_mapErr {E' A} P d (f : E -> E') (m : M (World St) E A) :
  within P d m -> within P d (mapErr f m).
Proof.
  intros Hm w r w' H. unfold mapErr in H.
  destruct (m w) as [[a|e|] w1] eqn:Hmw; inversion H; subst;
    exact (Hm _ _ _ Hmw).
Qed.

End Footprint.

Section StepFootprints.
Context {St : Type} (DB : db.DB St) (cr : Crypto) (account : Account).

Lemma deleteTokens_within (t : Token) :
  within (userStepCall account) true (deleteTokens DB t).
Proof.
  unfold deleteTokens.
  repeat (first [ apply within_bind; [|intros ?]
                | apply within_dbWrite; exact I
                | apply within_check ]).
Qed.

Lemma deleteUserAndTokensForAccount_within :
  within (userStepCall account) true (deleteUserAndTokensForAccount DB cr account).
Proof.
  unfold deleteUserAndTokensForAccount.
  apply within_bind; [apply within_dbRead; reflexivity|]. intros [err|user].
  { apply within_fail. }
  apply within_bind; [apply within_dbRead; exact I|]. intros [tokens err].
  apply within_bind; [apply within_check|]. intros _.
  apply within_bind.
  { apply within_forRange. intros _ t _. apply deleteTokens_within. }
  intros _. apply within_bind; [apply within_drawEntropy|]. intros seed.
  destruct (stubbifyUser cr seed user) as [[user' columns] err'].
  apply within_bind; [apply within_check|]. intros _.
  apply within_bind; [apply within_dbWrite; exact I|]. intros err''.
  apply within_check.
Qed.

Lemma deleteAccountFollows_within :
  within (cascadeCall account) false (deleteAccountFollows DB account).
Proof.
  unfold deleteAccountFollows.
  apply within_bind; [apply within_dbRead; reflexivity|]. intros [followedBy e1].
  apply within_bind; [apply within_check|]. intros _.
  apply within_bind.
  { apply within_forRange. intros _ follow _.
    apply within_bind; [apply within_dbWrite; exact I|]. intros err.
    apply within_check. }
  intros _.
  apply within_bind; [apply within_dbRead; reflexivity|]. intros [followRequestedBy e2].
  apply within_bind; [apply within_check|]. intros _.
  apply within_bind.
  { apply within_forRange. intros _ followRequest _.
    apply within_bind; [apply within_dbWrite; exact I|]. intros err.
    apply within_check. }
  intros _.
  apply within_bind; [apply within_dbRead; reflexivity|]. intros [following e3].
  apply within_bind; [apply within_check|]. intros _.
  apply within_bind.
  { apply within_forRange. intros msgs follow _.
    apply within_bind; [apply within_dbWrite; exact I|]. intros err.
    apply within_bind; [apply within_check|]. intros _.
    destruct (unfollowSideEffectsFunc account account follow); apply within_ret. }
  intros msgs1.
  apply within_bind; [apply within_dbRead; reflexivity|]. intros [followRequesting e4].
  apply within_bind; [apply within_check|]. intros _.
  apply within_bind.
  { apply within_forRange. intros msgs followRequest _.
    apply within_bind; [apply within_dbWrite; exact I|]. intros err.
    apply within_bind; [apply within_check|]. intros _.
    destruct (unfollowSideEffectsFunc account account (dummyFollow followRequest));
      apply within_ret. }
  intros msgs2. apply within_Enqueue.
Qed.

Lemma deleteAccountBlocks_within :
  within (cascadeCall account) false (deleteAccountBlocks DB account).
Proof.
  unfold deleteAccountBlocks.
  apply within_bind; [apply within_dbWrite; reflexivity|]. intros err.
  apply within_check.
Qed.

Lemma boostStep_within (status : Status) (msgs : list FromClientAPI)
  (boost : Status) :
  within (cascadeCall account) false (boostStep DB account status msgs boost).
Proof.
  unfold boostStep. destruct (StatusAccount boost); [apply within_ret|].
  apply within_bind; [apply within_dbRead; exact I|]. intros [err|boostAcc].
  - destruct (isErrNoEntries err); [apply within_ret | apply within_fail].
  - apply within_ret.
Qed.

Lemma statusStep_within (msgs : list FromClientAPI) (status : Status) :
  within (cascadeCall account) false (statusStep DB account msgs status).
Proof.
  unfold statusStep. cbn zeta.
  apply within_bind; [apply within_dbRead; reflexivity|]. intros [boosts err].
  apply within_bind; [apply within_check|]. intros _.
  apply within_forRange. intros msgs' boost _. apply boostStep_within.
Qed.

Lemma statusLoop_within (fuel : nat) :
  forall (maxID : string) (msgs : list FromClientAPI),
    within (cascadeCall account) false (statusLoop DB fuel account maxID msgs).
Proof.
  induction fuel as [|fuel IH]; intros maxID msgs.
  - apply within_outOfFuel.
  - rewrite statusLoop_S.
    apply within_bind; [apply within_dbRead; split; reflexivity|].
    intros [statuses err].
    apply within_bind; [apply within_check|]. intros _.
    destruct (last statuses) as [lastStatus|]; [|apply within_ret].
    apply within_bind.
    + apply within_forRange. intros msgs' status _. apply statusStep_within.
    + intros msgs'. apply IH.
Qed.

Lemma deleteAccountStatuses_within (fuel : nat) :
  within (cascadeCall account) false (deleteAccountStatuses DB fuel account).
Proof.
  unfold deleteAccountStatuses.
  apply within_bind; [apply statusLoop_within|]. intros msgs.
  apply within_Enqueue.
Qed.

Lemma deleteAccountNotifications_within :
  within (cascadeCall account) false (deleteAccountNotifications DB account).
Proof.
  unfold deleteAccountNotifications.
  apply within_bind; [apply within_dbWrite; left; auto|]. intros err.
  apply within_bind; [apply within_check|]. intros _.
  apply within_bind; [apply within_dbWrite; right; auto|]. intros err'.
  apply within_check.
Qed.

Lemma deleteAccountPeripheral_within :
  within (cascadeCall account) false (deleteAccountPeripheral DB account).
Proof.
  unfold deleteAccountPeripheral.
  apply within_bind; [apply within_dbWrite; left; auto|]. intros e1.
  apply within_bind; [apply within_check|]. intros _.
  apply within_bind; [apply within_dbWrite; right; auto|]. intros e2.
  apply within_bind; [apply within_check|]. intros _.
  apply within_bind; [apply within_dbWrite; left; auto|]. intros e3.
  apply within_bind; [apply within_check|]. intros _.
  apply within_bind; [apply within_dbWrite; right; auto|]. intros e4.
  apply within_check.
Qed.

End StepFootprints.

Lemma mapErr_failsInternally {St A} (m : M (World St) error A) :
  failsInternally (mapErr ErrorInternalError m).
Proof.
  intros w c w' H. unfold mapErr in H.
  destruct (m w) as [[a|e|] w1]; inversion H; subst. eauto.
Qed.

Section DeleteShape.
Context {St : Type} (DB : db.DB St) (cr : Crypto).
Context (account : Account) (origin : string).

(** A step of the cascade, then the rest. *)
Lemma deleteRun_step (m : M (World St) WithCode unit)
  (k : unit -> M (World St) WithCode Account) :
  within (deleteCall account) (IsLocal account) m ->
  failsInternally m ->
  (forall u w r w', k u w = (r, w') -> deleteRun account origin w r w') ->
  forall w r w', (m ≫= k) w = (r, w') -> deleteRun account origin w r w'.
Proof.
  intros Hm Hfail Hk w r w' H. rewrite bind_run in H.
  destruct (m w) as [[u|c|] w1] eqn:Hmw;
    destruct (Hm _ _ _ Hmw) as (Hc1 & He1 & cs1 & Ht1 & Hp1).
  - destruct (Hk _ _ _ _ H) as (Hc2 & He2 & cs2 & Hp2 & Hshape).
    unfold deleteRun. cbn zeta. rewrite Hc1 in Hshape, Hc2.
    split; [exact Hc2|]. split.
    { intros Hremote. rewrite (He2 Hremote). exact (He1 Hremote). }
    exists (cs1 ++ cs2). split; [apply Forall_app; auto|].
    rewrite Ht1 in Hshape. rewrite <- !app_assoc in Hshape.
    rewrite <- !app_assoc. exact Hshape.
  - inversion H; subst. destruct (Hfail _ _ _ Hmw) as [err ->].
    split; [exact Hc1|]. split; [exact He1|].
    exists cs1. split; [exact Hp1|]. left. eauto.
  - inversion H; subst.
    split; [exact Hc1|]. split; [exact He1|].
    exists cs1. split; [exact Hp1|]. left. eauto.
Qed.

Lemma within_cascade_step {A} (m : M (World St) error A) :
  within (cascadeCall account) false m ->
  within (deleteCall account) (IsLocal account) (mapErr ErrorInternalError m).
Proof.
  intros Hm. apply within_mapErr.
  apply (within_weaken (cascadeCall account) _ false); [|auto|exact Hm].
  intros c Hc. right. exact Hc.
Qed.

Lemma Delete_run_shape (fuel : nat) (w : World St) r (w' : World St) :
  Delete DB cr fuel account origin w = (r, w') ->
  deleteRun account origin w r w'.
Proof.
  unfold Delete. apply deleteRun_step.
  { destruct (IsLocal account) eqn:Hlocal.
    - apply within_mapErr.
      apply (within_weaken (userStepCall account) _ true); [|auto|].
      + intros c Hc. left. auto.
      + apply deleteUserAndTokensForAccount_within.
    - apply within_ret. }
  { destruct (IsLocal account).
    - apply mapErr_failsInternally.
    - intros w0 c w0' H. inversion H. }
  intros _. apply deleteRun_step;
    [apply within_cascade_step, deleteAccountFollows_within
    |apply mapErr_failsInternally|].
  intros _. apply deleteRun_step;
    [apply within_cascade_step, deleteAccountBlocks_within
    |apply mapErr_failsInternally|].
  intros _. apply deleteRun_step;
    [apply within_cascade_step, deleteAccountStatuses_within
    |apply mapErr_failsInternally|].
  intros _. apply deleteRun_step;
    [apply within_cascade_step, deleteAccountNotifications_within
    |apply mapErr_failsInternally|].
  intros _. apply deleteRun_step;
    [apply within_cascade_step, deleteAccountPeripheral_within
    |apply mapErr_failsInternally|].
  intros _ w0 r0 w0' H.
  rewrite bind_run in H. unfold time_Now at 1 in H.
  unfold deleteRun. cbn zeta.
  destruct (stubbifyAccount (clock w0) account origin) as [account' columns].
  rewrite bind_run, dbWrite_run in H.
  destruct (UpdateAccount DB account' columns (store w0)) as [[e|] s'];
    cbn [fst snd] in H.
  - rewrite bind_run, check_Some in H. inversion H; subst.
    split; [reflexivity|]. split; [reflexivity|].
    exists []. split; [constructor|]. right. cbn. eauto.
  - rewrite bind_run, check_None in H. inversion H; subst.
    split; [reflexivity|]. split; [reflexivity|].
    exists []. split; [constructor|]. right. cbn. eauto.
Qed.

End DeleteShape.

Lemma cascadeCall_tables (account : Account) (c : Call) :
  cascadeCall account c -> isUserTableCall c = false /\ isAccountUpdate c = false.
Proof. destruct c; cbn; intros H; try destruct H; auto. Qed.

Lemma userStepCall_tables (account : Account) (c : Call) :
  userStepCall account c -> isAccountUpdate c = false.
Proof. destruct c; cbn; intros H; try destruct H; auto. Qed.

Lemma deleteCall_not_update (account : Account) (c : Call) :
  deleteCall account c -> isAccountUpdate c = false.
Proof.
  intros [[_ H]|H]; [exact (userStepCall_tables _ _ H)|].
  exact (proj2 (cascadeCall_tables _ _ H)).
Qed.



(** X4. Delete of an account that is not local makes no call on the user,
    token, client or application tables and draws no randomness, however
    it ends. *)
Theorem Delete_remote_skips_the_user_step :
  forall (St : Type) (DB : db.DB St) (cr : Crypto) (fuel : nat)
         (account : Account) (origin : string) (w w' : World St)
         (r : Res WithCode Account),
    IsLocal account = false ->
    Delete DB cr fuel account origin w = (r, w') ->
    entropy w' = entropy w /\
    exists calls,
      trace w' = trace w ++ calls /\
      Forall (fun c => isUserTableCall c = false) calls.
Proof.
  intros St DB cr fuel account origin w w' r Hremote Hrun.
  destruct (Delete_run_shape DB cr account origin fuel w r w' Hrun)
    as (_ & Hentropy & calls & Hcalls & Hshape).
  split; [exact (Hentropy Hremote)|].
  assert (Hnone : Forall (fun c => isUserTableCall c = false) calls).
  { eapply Forall_impl; [exact Hcalls|]. intros c [[Hlocal _]|Hc].
    - congruence.
    - exact (proj1 (cascadeCall_tables _ _ Hc)). }
  destruct Hshape as [[Ht _]|[Ht _]].
  - exists calls. auto.
  - eexists. split; [exact Ht|]. apply Forall_app. split; [exact Hnone|].
    constructor; [reflexivity | constructor].
Qed.

Lemma Delete_remote_skips_the_user_step_witness :
  exists r w',
    Delete (gone_fixtures.goneDB None) memstore.okCrypto 1 memstore.remo
           "01ADMIN" gone_fixtures.goneWorld = (r, w') /\
    entropy w' = entropy gone_fixtures.goneWorld /\
    exists calls,
      trace w' = trace gone_fixtures.goneWorld ++ calls /\
      Forall (fun c => isUserTableCall c = false) calls.
Proof.
  eassert (Hrun : Delete (gone_fixtures.goneDB None) memstore.okCrypto 1
                    memstore.remo "01ADMIN" gone_fixtures.goneWorld = (_, _))
    by (vm_compute; reflexivity).
  eexists. eexists. split; [exact Hrun|].
  eapply Delete_remote_skips_the_user_step; [|exact Hrun]. reflexivity.
Defined.

(** X5. Delete updates the account at most once, as its last store call,
    and only after every step before it returned nil: a run that did not
    reach the update did not return nil.  The update carries the stub of
    the account, made at the time of the call for the given origin, with
    the stub's column list.  Every error Delete returns is an internal
    error. *)
Theorem Delete_updates_the_account_last :
  forall (St : Type) (DB : db.DB St) (cr : Crypto) (fuel : nat)
         (account : Account) (origin : string) (w w' : World St)
         (r : Res WithCode Account),
    Delete DB cr fuel account origin w = (r, w') ->
    let stub := stubbifyAccount (clock w) account origin in
    (forall c, r = Fail c -> exists err, c = ErrorInternalError err) /\
    exists calls,
      Forall (fun c => isAccountUpdate c = false) calls /\
      ((trace w' = trace w ++ calls /\ forall a, r <> Ok a) \/
       (trace w' = trace w ++ calls ++ [CUpdateAccount stub.1 stub.2] /\
        forall a, r = Ok a -> a = stub.1)).
Proof.
  intros St DB cr fuel account origin w w' r Hrun stub.
  destruct (Delete_run_shape DB cr account origin fuel w r w' Hrun)
    as (_ & _ & calls & Hcalls & Hshape).
  split.
  - intros c ->.
    destruct Hshape as [[_ [H|[err H]]]|[_ [H|[err H]]]];
      try discriminate; inversion H; eauto.
  - exists calls. split.
    { eapply Forall_impl; [exact Hcalls|]. apply deleteCall_not_update. }
    destruct Hshape as [[Ht Hr]|[Ht Hr]].
    + left. split; [exact Ht|]. intros a ->.
      destruct Hr as [H|[err H]]; discriminate.
    + right. split; [exact Ht|]. intros a ->.
      destruct Hr as [H|[err H]]; [inversion H; reflexivity | discriminate].
Qed.

Lemma Delete_updates_the_account_last_witness :
  exists r w' calls,
    Delete (gone_fixtures.goneDB (Some gone_fixtures.aliceUser))
           memstore.okCrypto 1 memstore.alice "01ADMIN" gone_fixtures.goneWorld
      = (r, w') /\
    Forall (fun c => isAccountUpdate c = false) calls /\
    ((trace w' = trace gone_fixtures.goneWorld ++ calls /\ forall a, r <> Ok a) \/
     (trace w' =
        trace gone_fixtures.goneWorld ++ calls
        ++ [CUpdateAccount
              (stubbifyAccount (clock gone_fixtures.goneWorld) memstore.alice
                               "01ADMIN").1
              (stubbifyAccount (clock gone_fixtures.goneWorld) memstore.alice
                               "01ADMIN").2] /\
      forall a, r = Ok a ->
                a = (stubbifyAccount (clock gone_fixtures.goneWorld)
                                     memstore.alice "01ADMIN").1)).
Proof.
  eassert (Hrun : Delete (gone_fixtures.goneDB (Some gone_fixtures.aliceUser))
                    memstore.okCrypto 1 memstore.alice "01ADMIN"
                    gone_fixtures.goneWorld = (_, _))
    by (vm_compute; reflexivity).
  destruct (Delete_updates_the_account_last _ _ _ _ _ _ _ _ _ Hrun)
    as (_ & calls & Hcalls & Hshape).
  eexists. eexists. exists calls. split; [exact Hrun|]. auto.
Defined.

(* ===================================================================== *)
(** * What the batches hold                                               *)
(* ===================================================================== *)

Section Batches.
Context {St E : Type}.

Lemma keepsQueue_fail {A} (e : E) : keepsQueue (St := St) (A := A) (fail e).
Proof. intros w r w' H. inversion H; subst. reflexivity. Qed.

Lemma keepsQueue_outOfFuel {A} :
  keepsQueue (St := St) (E := E) (A := A) outOfFuel.
Proof. intros w r w' H. inversion H; subst. reflexivity. Qed.

Lemma keepsQueue_mapErr {E' A} (f : E -> E') (m : M (World St) E A) :
  keepsQueue m -> keepsQueue (mapErr f m).
Proof.
  intros Hm w r w' H. unfold mapErr in H.
  destruct (m w) as [[a|e|] w1] eqn:Hmw; inversion H; subst;
    exact (Hm _ _ _ Hmw).
Qed.

(** What holds of the accumulator at the start and is kept by the body
    holds of the accumulator a loop returns. *)
Lemma forRange_invariant {A B} (Q : B -> Prop) (xs : list A)
  (body : B -> A -> M (World St) E B) :
  (forall acc x w acc' w', Q acc -> body acc x w = (Ok acc', w') -> Q acc') ->
  forall acc w acc' w',
    Q acc -> forRange xs acc body w = (Ok acc', w') -> Q acc'.
Proof.
  intros Hbody. induction xs as [|x xs IH]; intros acc w acc' w' Hacc H.
  - inversion H; subst. exact Hacc.
  - rewrite forRange_cons in H.
    apply bind_Ok_inv in H as (acc1 & w1 & Hx & Hrest).
    exact (IH _ _ _ _ (Hbody _ _ _ _ _ Hacc Hx) Hrest).
Qed.

(** A computation that collects events satisfying [Q] and keeps the
    queue, followed by the enqueuing of what it collected. *)
Lemma enqueuesOneBatch_collect (Q : FromClientAPI -> Prop)
  (m : M (World St) E (list FromClientAPI)) :
  keepsQueue m ->
  (forall w msgs w', m w = (Ok msgs, w') -> Forall Q msgs) ->
  enqueuesOneBatch Q (m ≫= EnqueueClientAPI).
Proof.
  intros Hkeep Hall w r w' H. rewrite bind_run in H.
  destruct (m w) as [[msgs|e|] w1] eqn:Hmw.
  - inversion H; subst. left. split; [reflexivity|].
    exists msgs. cbn. rewrite (Hkeep _ _ _ Hmw). eauto.
  - inversion H; subst. right. split; [discriminate | exact (Hkeep _ _ _ Hmw)].
  - inversion H; subst. right. split; [discriminate | exact (Hkeep _ _ _ Hmw)].
Qed.

End Batches.

Section StatusBatch.
Context {St : Type} (DB : db.DB St) (account : Account).

Lemma boostStep_keepsQueue status msgs boost :
  keepsQueue (boostStep DB account status msgs boost).
Proof.
  unfold boostStep. destruct (StatusAccount boost); [apply keepsQueue_ret|].
  apply keepsQueue_bind; [apply keepsQueue_dbRead|]. intros [err|boostAcc].
  - destruct (isErrNoEntries err); [apply keepsQueue_ret | apply keepsQueue_fail].
  - apply keepsQueue_ret.
Qed.

Lemma statusStep_keepsQueue msgs status :
  keepsQueue (statusStep DB account msgs status).
Proof.
  unfold statusStep. cbn zeta.
  apply keepsQueue_bind; [apply keepsQueue_dbRead|]. intros [boosts err].
  apply keepsQueue_bind; [apply keepsQueue_check|]. intros _.
  apply keepsQueue_forRange. intros msgs' boost. apply boostStep_keepsQueue.
Qed.

Lemma statusLoop_keepsQueue (fuel : nat) :
  forall maxID msgs, keepsQueue (statusLoop DB fuel account maxID msgs).
Proof.
  induction fuel as [|fuel IH]; intros maxID msgs.
  - apply keepsQueue_outOfFuel.
  - rewrite statusLoop_S.
    apply keepsQueue_bind; [apply keepsQueue_dbRead|]. intros [statuses err].
    apply keepsQueue_bind; [apply keepsQueue_check|]. intros _.
    destruct (last statuses); [|apply keepsQueue_ret].
    apply keepsQueue_bind; [|intros msgs'; apply IH].
    apply keepsQueue_forRange. intros msgs' status. apply statusStep_keepsQueue.
Qed.

Lemma boostStep_events status msgs boost w msgs' w' :
  StatusAccount status = Some account ->
  Forall (statusEvent account) msgs ->
  boostStep DB account status msgs boost w = (Ok msgs', w') ->
  Forall (statusEvent account) msgs'.
Proof.
  intros Hstatus Hmsgs H.
  assert (Hundo : forall boostAcc,
             statusEvent account (undoAnnounceMsg status (Some boostAcc) account)).
  { intros boostAcc. split; [reflexivity|]. split; [eauto|].
    right. split; [split; reflexivity | eauto]. }
  unfold boostStep in H. destruct (StatusAccount boost) as [boostAcc|].
  - inversion H; subst. apply Forall_app. auto.
  - apply bind_Ok_inv in H as (r & w1 & _ & H). destruct r as [err|boostAcc].
    + destruct (isErrNoEntries err); inversion H; subst. exact Hmsgs.
    + inversion H; subst. apply Forall_app. auto.
Qed.

Lemma statusStep_events msgs status w msgs' w' :
  Forall (statusEvent account) msgs ->
  statusStep DB account msgs status w = (Ok msgs', w') ->
  Forall (statusEvent account) msgs'.
Proof.
  intros Hmsgs H. unfold statusStep in H. cbn zeta in H.
  apply bind_Ok_inv in H as ([boosts err] & w1 & _ & H).
  apply bind_Ok_inv in H as ([] & w2 & _ & H).
  revert H. apply forRange_invariant.
  - intros acc boost w0 acc' w0'. apply boostStep_events. reflexivity.
  - apply Forall_app. split; [exact Hmsgs|].
    constructor; [|constructor].
    split; [reflexivity|]. split; [eexists; split; reflexivity|].
    left. split; [split; reflexivity | reflexivity].
Qed.

Lemma statusLoop_events (fuel : nat) :
  forall maxID msgs w msgs' w',
    Forall (statusEvent account) msgs ->
    statusLoop DB fuel account maxID msgs w = (Ok msgs', w') ->
    Forall (statusEvent account) msgs'.
Proof.
  induction fuel as [|fuel IH]; intros maxID msgs w msgs' w' Hmsgs H.
  - inversion H.
  - rewrite statusLoop_S in H.
    apply bind_Ok_inv in H as ([statuses err] & w1 & _ & H).
    apply bind_Ok_inv in H as ([] & w2 & _ & H).
    destruct (last statuses) as [lastStatus|].
    + apply bind_Ok_inv in H as (msgs1 & w3 & Hpage & H).
      refine (IH _ _ _ _ _ _ H).
      revert Hpage. apply forRange_invariant; [|exact Hmsgs].
      intros acc status w0 acc' w0'. apply statusStep_events.
    + inversion H; subst. exact Hmsgs.
Qed.

Lemma deleteAccountStatuses_enqueuesOneBatch (fuel : nat) :
  enqueuesOneBatch (statusEvent account) (deleteAccountStatuses DB fuel account).
Proof.
  unfold deleteAccountStatuses. apply enqueuesOneBatch_collect.
  - apply statusLoop_keepsQueue.
  - intros w msgs w'. apply statusLoop_events. constructor.
Qed.

End StatusBatch.



Section BatchOrder.
Context {St E : Type}.

Lemma enqueuesOneBatch_bind {A} (Q : FromClientAPI -> Prop) (R : A -> Prop)
  (m : M (World St) E A) (k : A -> M (World St) E unit) :
  keepsQueue m ->
  (forall w a w', m w = (Ok a, w') -> R a) ->
  (forall a, R a -> enqueuesOneBatch Q (k a)) ->
  enqueuesOneBatch Q (m ≫= k).
Proof.
  intros Hkeep HR Hk w r w' H. rewrite bind_run in H.
  destruct (m w) as [[a|e|] w1] eqn:Hmw.
  - rewrite <- (Hkeep _ _ _ Hmw). exact (Hk a (HR _ _ _ Hmw) _ _ _ H).
  - inversion H; subst. right. split; [discriminate | exact (Hkeep _ _ _ Hmw)].
  - inversion H; subst. right. split; [discriminate | exact (Hkeep _ _ _ Hmw)].
Qed.

Lemma enqueuesOneBatch_Enqueue (Q : FromClientAPI -> Prop)
  (msgs : list FromClientAPI) :
  Forall Q msgs -> enqueuesOneBatch (St := St) (E := E) Q (EnqueueClientAPI msgs).
Proof.
  intros Hall w r w' H. inversion H; subst. left. split; [reflexivity|].
  exists msgs. auto.
Qed.

Lemma enqueuesOneBatch_mapErr {E'} (Q : FromClientAPI -> Prop) (f : E -> E')
  (m : M (World St) E unit) :
  enqueuesOneBatch Q m -> enqueuesOneBatch Q (mapErr f m).
Proof.
  intros Hm w r w' H. unfold mapErr in H.
  destruct (m w) as [[[]|e|] w1] eqn:Hmw; inversion H; subst;
    destruct (Hm _ _ _ Hmw) as [[Hr Hq]|[Hr Hq]]; try discriminate;
    try congruence; [left; auto| right; split; [discriminate|exact Hq] ..].
Qed.

Lemma enqueuesBatches_keeps {A B} (Qs : list (FromClientAPI -> Prop))
  (m : M (World St) E A) (k : A -> M (World St) E B) :
  keepsQueue m -> (forall a, enqueuesBatches Qs (k a)) ->
  enqueuesBatches Qs (m ≫= k).
Proof.
  intros Hkeep Hk w r w' H. rewrite bind_run in H.
  destruct (m w) as [[a|e|] w1] eqn:Hmw.
  - rewrite <- (Hkeep _ _ _ Hmw). exact (Hk a _ _ _ H).
  - inversion H; subst. exists []. rewrite app_nil_r.
    split; [exact (Hkeep _ _ _ Hmw)|]. split; [constructor | discriminate].
  - inversion H; subst. exists []. rewrite app_nil_r.
    split; [exact (Hkeep _ _ _ Hmw)|]. split; [constructor | discriminate].
Qed.

Lemma enqueuesBatches_batch {B} (Q : FromClientAPI -> Prop)
  (Qs : list (FromClientAPI -> Prop))
  (m : M (World St) E unit) (k : unit -> M (World St) E B) :
  enqueuesOneBatch Q m -> (forall u, enqueuesBatches Qs (k u)) ->
  enqueuesBatches (Q :: Qs) (m ≫= k).
Proof.
  intros Hm Hk w r w' H. rewrite bind_run in H.
  destruct (m w) as [[[]|e|] w1] eqn:Hmw;
    destruct (Hm _ _ _ Hmw) as [[Hr (batch & Hq & Hall)]|[Hr Hq]];
    try discriminate; try congruence.
  - destruct (Hk tt _ _ _ H) as (batches & Hq' & Hall' & Hok).
    exists (batch :: batches). rewrite Hq', Hq, <- app_assoc.
    split; [reflexivity|]. split.
    + cbn. constructor; assumption.
    + intros a Ha. cbn. f_equal. exact (Hok a Ha).
  - inversion H; subst. exists []. rewrite app_nil_r.
    split; [exact Hq|]. split; [constructor | discriminate].
  - inversion H; subst. exists []. rewrite app_nil_r.
    split; [exact Hq|]. split; [constructor | discriminate].
Qed.

Lemma enqueuesBatches_none {A} (m : M (World St) E A) :
  keepsQueue m -> enqueuesBatches [] m.
Proof.
  intros Hkeep w r w' H. exists []. rewrite app_nil_r.
  split; [exact (Hkeep _ _ _ H)|]. split; [constructor | reflexivity].
Qed.

End BatchOrder.

Section FollowBatch.
Context {St : Type} (DB : db.DB St) (account : Account).

Lemma unfollowSideEffects_event (follow : Follow) (msg : FromClientAPI) :
  unfollowSideEffectsFunc account account follow = Some msg ->
  followEvent account msg.
Proof.
  unfold unfollowSideEffectsFunc.
  destruct (IsLocal account) eqn:Hlocal; cbn; [|discriminate].
  destruct (FollowTargetAccount follow) as [target|] eqn:Htarget; [|discriminate].
  destruct (IsLocal target) eqn:Htl; [discriminate|].
  intros H. inversion H; subst. unfold followEvent. cbn.
  split; [reflexivity|]. split; [reflexivity|]. split; [reflexivity|].
  split; [exact Hlocal|]. exists follow, target. auto.
Qed.

Lemma deleteAccountFollows_enqueuesOneBatch :
  enqueuesOneBatch (followEvent account) (deleteAccountFollows DB account).
Proof.
  unfold deleteAccountFollows.
  apply (enqueuesOneBatch_bind _ (fun _ => True));
    [apply keepsQueue_dbRead | auto |]. intros [followedBy e1] _.
  apply (enqueuesOneBatch_bind _ (fun _ => True));
    [apply keepsQueue_check | auto |]. intros _ _.
  apply (enqueuesOneBatch_bind _ (fun _ => True)); [|auto|].
  { apply keepsQueue_forRange. intros _ follow.
    apply keepsQueue_bind; [apply keepsQueue_dbWrite|]. intros err.
    apply keepsQueue_check. }
  intros _ _.
  apply (enqueuesOneBatch_bind _ (fun _ => True));
    [apply keepsQueue_dbRead | auto |]. intros [followRequestedBy e2] _.
  apply (enqueuesOneBatch_bind _ (fun _ => True));
    [apply keepsQueue_check | auto |]. intros _ _.
  apply (enqueuesOneBatch_bind _ (fun _ => True)); [|auto|].
  { apply keepsQueue_forRange. intros _ followRequest.
    apply keepsQueue_bind; [apply keepsQueue_dbWrite|]. intros err.
    apply keepsQueue_check. }
  intros _ _.
  apply (enqueuesOneBatch_bind _ (fun _ => True));
    [apply keepsQueue_dbRead | auto |]. intros [following e3] _.
  apply (enqueuesOneBatch_bind _ (fun _ => True));
    [apply keepsQueue_check | auto |]. intros _ _.
  apply (enqueuesOneBatch_bind _ (Forall (followEvent account))).
  { apply keepsQueue_forRange. intros msgs follow.
    apply keepsQueue_bind; [apply keepsQueue_dbWrite|]. intros err.
    apply keepsQueue_bind; [apply keepsQueue_check|]. intros _.
    destruct (unfollowSideEffectsFunc account account follow);
      apply keepsQueue_ret. }
  { intros w msgs w'. apply forRange_invariant; [|constructor].
    intros acc follow w0 acc' w0' Hacc H.
    apply bind_Ok_inv in H as (err & w1 & _ & H).
    apply bind_Ok_inv in H as ([] & w2 & _ & H).
    destruct (unfollowSideEffectsFunc account account follow) as [msg|] eqn:Hp;
      inversion H; subst; [|exact Hacc].
    apply Forall_app. split; [exact Hacc|].
    constructor; [exact (unfollowSideEffects_event _ _ Hp) | constructor]. }
  intros msgs1 Hmsgs1.
  apply (enqueuesOneBatch_bind _ (fun _ => True));
    [apply keepsQueue_dbRead | auto |]. intros [followRequesting e4] _.
  apply (enqueuesOneBatch_bind _ (fun _ => True));
    [apply keepsQueue_check | auto |]. intros _ _.
  apply (enqueuesOneBatch_bind _ (Forall (followEvent account))).
  { apply keepsQueue_forRange. intros msgs followRequest.
    apply keepsQueue_bind; [apply keepsQueue_dbWrite|]. intros err.
    apply keepsQueue_bind; [apply keepsQueue_check|]. intros _.
    destruct (unfollowSideEffectsFunc account account (dummyFollow followRequest));
      apply keepsQueue_ret. }
  { intros w msgs w'. apply forRange_invariant; [|exact Hmsgs1].
    intros acc followRequest w0 acc' w0' Hacc H.
    apply bind_Ok_inv in H as (err & w1 & _ & H).
    apply bind_Ok_inv in H as ([] & w2 & _ & H).
    destruct (unfollowSideEffectsFunc account account (dummyFollow followRequest))
      as [msg|] eqn:Hp; inversion H; subst; [|exact Hacc].
    apply Forall_app. split; [exact Hacc|].
    constructor; [exact (unfollowSideEffects_event _ _ Hp) | constructor]. }
  intros msgs2 Hmsgs2. apply enqueuesOneBatch_Enqueue. exact Hmsgs2.
Qed.

End FollowBatch.

Section OtherSteps.
Context {St : Type} (DB : db.DB St) (cr : Crypto) (account : Account).

Lemma deleteUserAndTokensForAccount_keepsQueue :
  keepsQueue (deleteUserAndTokensForAccount DB cr account).
Proof.
  unfold deleteUserAndTokensForAccount.
  apply keepsQueue_bind; [apply keepsQueue_dbRead|]. intros [err|user].
  { apply keepsQueue_fail. }
  apply keepsQueue_bind; [apply keepsQueue_dbRead|]. intros [tokens err].
  apply keepsQueue_bind; [apply keepsQueue_check|]. intros _.
  apply keepsQueue_bind.
  { apply keepsQueue_forRange. intros _ t. unfold deleteTokens.
    repeat (first [ apply keepsQueue_bind; [|intros ?]
                  | apply keepsQueue_dbWrite
                  | apply keepsQueue_check ]). }
  intros _. apply keepsQueue_bind.
  { intros w r w' H. inversion H; subst. reflexivity. }
  intros seed. destruct (stubbifyUser cr seed user) as [[user' columns] err'].
  apply keepsQueue_bind; [apply keepsQueue_check|]. intros _.
  apply keepsQueue_bind; [apply keepsQueue_dbWrite|]. intros err''.
  apply keepsQueue_check.
Qed.

Lemma deleteAccountBlocks_keepsQueue :
  keepsQueue (deleteAccountBlocks DB account).
Proof.
  unfold deleteAccountBlocks.
  apply keepsQueue_bind; [apply keepsQueue_dbWrite|]. intros err.
  apply keepsQueue_check.
Qed.

Lemma deleteAccountNotifications_keepsQueue :
  keepsQueue (deleteAccountNotifications DB account).
Proof.
  unfold deleteAccountNotifications.
  repeat (first [ apply keepsQueue_bind; [|intros ?]
                | apply keepsQueue_dbWrite
                | apply keepsQueue_check ]).
Qed.

Lemma deleteAccountPeripheral_keepsQueue :
  keepsQueue (deleteAccountPeripheral DB account).
Proof.
  unfold deleteAccountPeripheral.
  repeat (first [ apply keepsQueue_bind; [|intros ?]
                | apply keepsQueue_dbWrite
                | apply keepsQueue_check ]).
Qed.

Lemma Delete_enqueuesBatches (fuel : nat) (origin : string) :
  enqueuesBatches [followEvent account; statusEvent account]
                  (Delete DB cr fuel account origin).
Proof.
  unfold Delete.
  apply enqueuesBatches_keeps.
  { destruct (IsLocal account).
    - apply keepsQueue_mapErr, deleteUserAndTokensForAccount_keepsQueue.
    - apply keepsQueue_ret. }
  intros _. apply enqueuesBatches_batch.
  { apply enqueuesOneBatch_mapErr, deleteAccountFollows_enqueuesOneBatch. }
  intros _. apply enqueuesBatches_keeps.
  { apply keepsQueue_mapErr, deleteAccountBlocks_keepsQueue. }
  intros _. apply enqueuesBatches_batch.
  { apply enqueuesOneBatch_mapErr, deleteAccountStatuses_enqueuesOneBatch. }
  intros _. apply enqueuesBatches_keeps.
  { apply keepsQueue_mapErr, deleteAccountNotifications_keepsQueue. }
  intros _. apply enqueuesBatches_keeps.
  { apply keepsQueue_mapErr, deleteAccountPeripheral_keepsQueue. }
  intros _. apply enqueuesBatches_none.
  apply keepsQueue_bind.
  { intros w r w' H. inversion H; subst. reflexivity. }
  intros now. destruct (stubbifyAccount now account origin) as [account' columns].
  apply keepsQueue_bind; [apply keepsQueue_dbWrite|]. intros err.
  apply keepsQueue_bind; [apply keepsQueue_check|]. intros _.
  apply keepsQueue_ret.
Qed.

End OtherSteps.

(** X7. Whatever the store answers, Delete enqueues at most two batches:
    first the batch of the follow step, whose events are all "undo
    follow" events from the (local) deleted account to a non-local
    target, then the batch of the status step, whose events all target
    the deleted account; no other step enqueues anything.  When Delete
    returns nil it has enqueued both. *)
Theorem Delete_enqueues_follow_then_status_batch :
  forall (St : Type) (DB : db.DB St) (cr : Crypto) (fuel : nat)
         (account : Account) (origin : string) (w w' : World St)
         (r : Res WithCode Account),
    Delete DB cr fuel account origin w = (r, w') ->
    (queue w' = queue w /\ forall a, r <> Ok a) \/
    (exists followBatch,
       queue w' = queue w ++ [followBatch] /\
       Forall (followEvent account) followBatch /\
       forall a, r <> Ok a) \/
    (exists followBatch statusBatch,
       queue w' = queue w ++ [followBatch; statusBatch] /\
       Forall (followEvent account) followBatch /\
       Forall (statusEvent account) statusBatch).
Proof.
  intros St DB cr fuel account origin w w' r Hrun.
  destruct (Delete_enqueuesBatches DB cr account fuel origin w r w' Hrun)
    as (batches & Hq & Hall & Hok).
  destruct batches as [|fb [|sb [|extra batches]]]; cbn in Hall.
  - left. rewrite app_nil_r in Hq. split; [exact Hq|].
    intros a Ha. specialize (Hok a Ha). discriminate.
  - right. left. exists fb. split; [exact Hq|].
    inversion Hall; subst. split; [assumption|].
    intros a Ha. specialize (Hok a Ha). discriminate.
  - right. right. exists fb, sb. split; [exact Hq|].
    inversion Hall as [|? ? ? ? Hfb Hrest]; subst.
    inversion Hrest; subst. auto.
  - inversion Hall as [|? ? ? ? _ Hrest]; subst.
    inversion Hrest as [|? ? ? ? _ Hrest']; subst. inversion Hrest'.
Qed.

Lemma Delete_enqueues_follow_then_status_batch_witness :
  exists r w',
    Delete memstore.memDB memstore.okCrypto 3 memstore.alice "01ADMIN"
           (memstore.mkWorldOf retry_fixtures.fullStore) = (r, w') /\
    exists followBatch statusBatch,
      queue w' = queue (memstore.mkWorldOf retry_fixtures.fullStore)
                 ++ [followBatch; statusBatch] /\
      Forall (followEvent memstore.alice) followBatch /\
      Forall (statusEvent memstore.alice) statusBatch.
Proof.
  eassert (Hrun : Delete memstore.memDB memstore.okCrypto 3 memstore.alice
                    "01ADMIN" (memstore.mkWorldOf retry_fixtures.fullStore)
                  = (Ok _, _))
    by (vm_compute; reflexivity).
  eexists. eexists. split; [exact Hrun|].
  destruct (Delete_enqueues_follow_then_status_batch _ _ _ _ _ _ _ _ _ Hrun)
    as [[_ Hr]|[(fb & _ & _ & Hr)|Hboth]];
    [exfalso; eapply Hr; reflexivity | exfalso; eapply Hr; reflexivity
    | exact Hboth].
Defined.

(* ===================================================================== *)
(** * The status scan: how many pages, and when it ends                   *)
(* ===================================================================== *)

Lemma pageCursors_length (fuel : nat) :
  forall pre post,
    (length post <= 50 * fuel)%nat ->
    length (pageCursors fuel pre post) = ((length post + 49) / 50 + 1)%nat.
Proof.
  induction fuel as [|fuel IH]; intros pre post Hlen.
  - destruct post; [reflexivity | cbn in Hlen; lia].
  - destruct post as [|s post]; [reflexivity|].
    rewrite pageCursors_more by discriminate. cbn [length].
    rewrite IH by (rewrite length_drop; lia).
    rewrite length_drop. cbn [length].
    destruct (Nat.le_gt_cases 50 (S (length post))) as [Hge|Hlt].
    + replace (S (length post) + 49)%nat
        with ((S (length post) - 50 + 49) + 1 * 50)%nat by lia.
      rewrite Nat.div_add by lia. lia.
    + replace (S (length post) - 50)%nat with 0%nat by lia.
      change ((0 + 49) / 50)%nat with 0%nat.
      assert (H : ((S (length post) + 49) / 50 = 1)%nat).
      { symmetry. apply (Nat.div_unique _ 50 1 (length post)); lia. }
      rewrite H. reflexivity.
Qed.

(** X8. Against a store that pages over the account's statuses
    (descending ids, none empty) and whose reblogs can be read, for any
    number n of statuses the status step ends within one iteration per
    page of 50 and one more: it makes exactly ceil(n / 50) + 1 page
    queries (one for an account without statuses, two for exactly 50),
    leaves the store contents as they were, and enqueues one batch with
    the events of the n statuses in order, n "delete note" events among
    them (an empty batch when n is 0). *)
Theorem deleteAccountStatuses_scans_any_number :
  forall (St : Type) (DB : db.DB St) (account : Account) (rows : list Status)
         (fuel : nat) (w : World St),
    descending rows = true ->
    idsNonEmpty rows = true ->
    pagesOver DB (store w) account rows ->
    reblogsReadable DB (store w) account rows ->
    (length rows + 50 <= 50 * fuel)%nat ->
    exists w' batch,
      deleteAccountStatuses DB fuel account w = (Ok tt, w') /\
      queue w' = queue w ++ [batch] /\
      batch = rows ≫= statusEvents DB (store w) account /\
      length (filter isDeleteNote batch) = length rows /\
      length (pageCalls (trace w'))
        = (length (pageCalls (trace w)) + (length rows + 49) / 50 + 1)%nat /\
      store w' = store w.
Proof.
  intros St DB account rows fuel w Hdesc Hids Hpages Hreadable Hfuel.
  destruct fuel as [|fuel]; [lia|].
  destruct (statusLoop_run DB account fuel [] rows [] w)
    as (w1 & Hrun & Hs & Hq & Ht); try assumption; [lia|].
  change (cursorAfter []) with "" in Hrun.
  eexists. exists (rows ≫= statusEvents DB (store w) account).
  split.
  { unfold deleteAccountStatuses. rewrite bind_run, Hrun. reflexivity. }
  cbn [queue trace store]. rewrite Hq, Hs, Ht.
  split; [reflexivity|]. split; [reflexivity|].
  split; [apply batch_delete_notes|]. split; [|reflexivity].
  rewrite length_app, length_fmap, pageCursors_length by lia. lia.
Qed.

Lemma deleteAccountStatuses_scans_any_number_witness :
  exists w' batch,
    deleteAccountStatuses memstore.memDB 2 memstore.alice
      (memstore.mkWorldOf retry_fixtures.fullStore) = (Ok tt, w') /\
    queue w' = [batch] /\
    length (filter isDeleteNote batch) = 3%nat /\
    length (pageCalls (trace w')) = 2%nat.
Proof.
  destruct (deleteAccountStatuses_scans_any_number _ memstore.memDB
              memstore.alice
              (filter (fun st => StatusAccountID st = ID memstore.alice)
                      (memstore.statuses retry_fixtures.fullStore))
              2 (memstore.mkWorldOf retry_fixtures.fullStore))
    as (w' & batch & Hrun & Hq & _ & Hnotes & Hpages & _).
  - vm_compute. reflexivity.
  - vm_compute. reflexivity.
  - apply memDB_pagesOver.
  - apply memDB_reblogsReadable.
  - vm_compute. lia.
  - exists w', batch. auto.
Defined.

Section Stuck.
Context {St : Type} (DB : db.DB St) (account : Account).

(** The loop against a store that answers every page query with the same
    non-empty page. *)
Lemma statusLoop_stuck (page : list Status) (fuel : nat) :
  forall (maxID : string) (msgs : list FromClientAPI) (w : World St),
    page <> [] ->
    (forall maxID,
       (GetAccountStatuses DB (ID account) deleteSelectLimit
                           false false maxID "" false false (store w)).1 = page /\
       realError (GetAccountStatuses DB (ID account) deleteSelectLimit
                                     false false maxID "" false false (store w)).2
         = None) ->
    reblogsReadable DB (store w) account page ->
    exists w',
      statusLoop DB fuel account maxID msgs w = (OutOfFuel, w') /\
      store w' = store w /\ queue w' = queue w.
Proof.
  induction fuel as [|fuel IH]; intros maxID msgs w Hne Hsame Hreadable.
  - exists w. auto.
  - rewrite statusLoop_S, bind_run, dbRead_run.
    destruct (Hsame maxID) as [Hpage Herr].
    destruct (GetAccountStatuses DB (ID account) deleteSelectLimit false false
                maxID "" false false (store w)) as [statuses err].
    cbn [fst snd] in Hpage, Herr. subst statuses.
    rewrite bind_run, Herr, check_None. lazy beta match.
    destruct (last page) as [lastStatus|] eqn:Hlast.
    2:{ apply last_None in Hlast. contradiction. }
    rewrite bind_run.
    destruct (pageLoop_run DB account page page msgs
                (logged w [CGetAccountStatuses (ID account) deleteSelectLimit maxID]))
      as (w1 & Hrun1 & Hs1 & Hq1 & _); [exact Hreadable | reflexivity |].
    rewrite Hrun1. lazy beta match. cbn [store queue logged] in Hs1, Hq1.
    destruct (IH (StatusID lastStatus)
                 (msgs ++ (page ≫= statusEvents DB (store w) account)) w1 Hne)
      as (w' & Hrun & Hs & Hq).
    { rewrite Hs1. exact Hsame. }
    { rewrite Hs1. exact Hreadable. }
    cbn [store logged]. rewrite Hrun.
    exists w'. split; [reflexivity|]. split; congruence.
Qed.

End Stuck.

(** X9. The scan ends only by an empty page or an error: against a store
    that answers every page query with the same non-empty page, whatever
    the cursor, the status step does not end within any number of
    iterations, and it never dispatches the events it collects. *)
Theorem deleteAccountStatuses_needs_the_store_to_advance :
  forall (St : Type) (DB : db.DB St) (account : Account) (page : list Status)
         (fuel : nat) (w : World St),
    page <> [] ->
    (forall maxID,
       (GetAccountStatuses DB (ID account) deleteSelectLimit
                           false false maxID "" false false (store w)).1 = page /\
       realError (GetAccountStatuses DB (ID account) deleteSelectLimit
                                     false false maxID "" false false (store w)).2
         = None) ->
    reblogsReadable DB (store w) account page ->
    exists w',
      deleteAccountStatuses DB fuel account w = (OutOfFuel, w') /\
      queue w' = queue w.
Proof.
  intros St DB account page fuel w Hne Hsame Hreadable.
  destruct (statusLoop_stuck DB account page fuel "" [] w Hne Hsame Hreadable)
    as (w' & Hrun & _ & Hq).
  exists w'. unfold deleteAccountStatuses. rewrite bind_run, Hrun. auto.
Qed.

Lemma deleteAccountStatuses_needs_the_store_to_advance_witness :
  exists w',
    deleteAccountStatuses stuck_fixtures.stuckDB 1000 memstore.alice
      gone_fixtures.goneWorld = (OutOfFuel, w') /\
    queue w' = queue gone_fixtures.goneWorld.
Proof.
  apply (deleteAccountStatuses_needs_the_store_to_advance unit
           stuck_fixtures.stuckDB memstore.alice stuck_fixtures.stuckPage
           1000 gone_fixtures.goneWorld).
  - discriminate.
  - intros maxID. split; reflexivity.
  - intros status _. split; [reflexivity|]. intros boost Hin. inversion Hin.
Defined.

(* ===================================================================== *)
(** * The user step                                                       *)
(* ===================================================================== *)

Section UserStep.
Context {St : Type} (DB : db.DB St) (cr : Crypto).

(** One token: on a nil return the three deletions were made, in order;
    however it ends, nothing but the trace and the store changed and the
    user was not updated. *)
Lemma deleteTokens_run (t : Token) (w : World St) :
  exists r w' calls,
    deleteTokens DB t w = (r, w') /\
    trace w' = trace w ++ calls /\
    queue w' = queue w /\ entropy w' = entropy w /\
    (r = Ok tt -> calls = tokenDeletions t) /\
    Forall (fun c => isUpdateUser c = false) calls.
Proof.
  unfold deleteTokens. rewrite bind_run, dbWrite_run.
  destruct (DeleteByID_Client DB (TokenClientID t) (store w)) as [[e1|] s1].
  { do 2 eexists. exists [CDeleteByID_Client (TokenClientID t)].
    split; [reflexivity|]. split; [reflexivity|]. split; [reflexivity|].
    split; [reflexivity|]. split; [discriminate | repeat constructor]. }
  cbn [fst snd]. rewrite bind_run, check_None. lazy beta match.
  rewrite bind_run, dbWrite_run. cbn [store trace queue clock entropy].
  destruct (DeleteWhere_Application DB (TokenClientID t) s1) as [[e2|] s2].
  { do 2 eexists.
    exists [CDeleteByID_Client (TokenClientID t);
            CDeleteWhere_Application (TokenClientID t)].
    split; [reflexivity|]. split; [cbn; rewrite <- app_assoc; reflexivity|].
    split; [reflexivity|]. split; [reflexivity|].
    split; [discriminate | repeat constructor]. }
  cbn [fst snd]. rewrite bind_run, check_None. lazy beta match.
  rewrite bind_run, dbWrite_run. cbn [store trace queue clock entropy].
  destruct (DeleteByID_Token DB (TokenID t) s2) as [[e3|] s3];
    do 2 eexists; exists (tokenDeletions t);
    (split; [reflexivity|]); (split; [cbn; rewrite <- !app_assoc; reflexivity|]);
    (split; [reflexivity|]); (split; [reflexivity|]);
    (split; [intros _; reflexivity | repeat constructor]).
Qed.

Lemma deleteTokens_loop (tokens : list Token) :
  forall (w : World St),
  exists r w' calls,
    forRange tokens tt (fun _ t => deleteTokens DB t) w = (r, w') /\
    trace w' = trace w ++ calls /\
    queue w' = queue w /\ entropy w' = entropy w /\
    (r = Ok tt -> calls = tokens ≫= tokenDeletions) /\
    Forall (fun c => isUpdateUser c = false) calls.
Proof.
  induction tokens as [|t tokens IH]; intros w.
  - exists (Ok tt), w, []. rewrite app_nil_r. repeat split; auto.
  - rewrite forRange_cons, bind_run.
    destruct (deleteTokens_run t w) as (r1 & w1 & cs1 & Hrun1 & Ht1 & Hq1 & He1 & Hok1 & Hno1).
    rewrite Hrun1. destruct r1 as [[]|e|].
    + destruct (IH w1) as (r2 & w2 & cs2 & Hrun2 & Ht2 & Hq2 & He2 & Hok2 & Hno2).
      exists r2, w2, (cs1 ++ cs2). rewrite Hrun2.
      split; [reflexivity|]. split; [rewrite Ht2, Ht1, app_assoc; reflexivity|].
      split; [congruence|]. split; [congruence|]. split.
      * intros Hr. rewrite bind_cons, Hok1, Hok2 by auto. reflexivity.
      * apply Forall_app. auto.
    + exists (Fail e), w1, cs1. repeat split; auto. discriminate.
    + exists OutOfFuel, w1, cs1. repeat split; auto. discriminate.
Qed.

End UserStep.

(** X10. The user step updates the user only after every token of the
    user has been revoked: whenever the update of the user is issued, it
    is the last store call of the step, it carries the stub and the column
    list of stubbifyUser, and before it the step looked up the user,
    listed the user's tokens and deleted, for each token in listing order,
    the token's client, the applications of that client and the token.
    When the step returns nil this is the whole of what it did; in every
    other case it ended without a user update, and it never enqueues
    anything. *)
Theorem deleteUserAndTokensForAccount_revokes_then_stubs :
  forall (St : Type) (DB : db.DB St) (cr : Crypto) (account : Account)
         (w : World St) (r : Res error unit) (w' : World St),
    deleteUserAndTokensForAccount DB cr account w = (r, w') ->
    queue w' = queue w /\
    exists calls,
      trace w' = trace w ++ calls /\
      ((exists user user' columns,
          GetUserByAccountID DB (ID account) (store w) = inr user /\
          stubbifyUser cr (entropy w) user = (user', columns, None) /\
          calls = [CGetUserByAccountID (ID account); CGetWhere_Token (UserID user)]
                  ++ ((GetWhere_Token DB (UserID user) (store w)).1 ≫= tokenDeletions)
                  ++ [CUpdateUser user' columns])
       \/
       (r <> Ok tt /\ Forall (fun c => isUpdateUser c = false) calls)).
Proof.
  intros St DB cr account w r w'. unfold deleteUserAndTokensForAccount.
  rewrite bind_run, dbRead_run.
  destruct (GetUserByAccountID DB (ID account) (store w)) as [e|user] eqn:Huser.
  { intros H. inversion H; subst. split; [reflexivity|].
    exists [CGetUserByAccountID (ID account)]. split; [reflexivity|].
    right. split; [discriminate|]. repeat constructor. }
  rewrite bind_run, dbRead_run. cbn [store logged].
  destruct (GetWhere_Token DB (UserID user) (store w)) as [tokens err] eqn:Htokens.
  rewrite bind_run. destruct err as [e|].
  { rewrite check_Some. intros H. inversion H; subst. split; [reflexivity|].
    exists [CGetUserByAccountID (ID account); CGetWhere_Token (UserID user)].
    split; [cbn; rewrite <- app_assoc; reflexivity|].
    right. split; [discriminate|]. repeat constructor. }
  rewrite check_None. lazy beta match. rewrite bind_run.
  set (w0 := logged (logged w [CGetUserByAccountID (ID account)])
                    [CGetWhere_Token (UserID user)]).
  destruct (deleteTokens_loop DB tokens w0)
    as (r1 & w1 & cs & Hrun & Ht & Hq & He & Hok & Hno).
  rewrite Hrun.
  assert (Htrace : trace w1 = trace w ++
            [CGetUserByAccountID (ID account); CGetWhere_Token (UserID user)] ++ cs).
  { rewrite Ht. subst w0. cbn. rewrite <- !app_assoc. reflexivity. }
  assert (Hpre : Forall (fun c => isUpdateUser c = false)
            ([CGetUserByAccountID (ID account); CGetWhere_Token (UserID user)] ++ cs)).
  { apply Forall_app. split; [repeat constructor | exact Hno]. }
  destruct r1 as [[]|e|].
  2:{ intros H. inversion H; subst. split; [exact Hq|].
      eexists. split; [exact Htrace|]. right. split; [discriminate | exact Hpre]. }
  2:{ intros H. inversion H; subst. split; [exact Hq|].
      eexists. split; [exact Htrace|]. right. split; [discriminate | exact Hpre]. }
  rewrite bind_run. unfold drawEntropy at 1. lazy beta match.
  rewrite He. change (entropy w0) with (entropy w).
  destruct (stubbifyUser cr (entropy w) user) as [[user' columns] serr] eqn:Hstub.
  rewrite bind_run. destruct serr as [e|].
  { rewrite check_Some. intros H. inversion H; subst. split; [exact Hq|].
    eexists. split; [exact Htrace|]. right. split; [discriminate | exact Hpre]. }
  rewrite check_None. lazy beta match. rewrite bind_run, dbWrite_run.
  cbn [store trace queue clock entropy fst snd].
  intros H.
  assert (Hq' : queue w' = queue w).
  { destruct (UpdateUser DB user' columns (store w1)) as [[e|] s']; cbn in H;
      inversion H; subst; exact Hq. }
  assert (Ht' : trace w' = trace w1 ++ [CUpdateUser user' columns]).
  { destruct (UpdateUser DB user' columns (store w1)) as [[e|] s']; cbn in H;
      inversion H; subst; reflexivity. }
  split; [exact Hq'|].
  eexists. split.
  { rewrite Ht', Htrace, <- app_assoc. reflexivity. }
  left. exists user, user', columns. split; [reflexivity|]. split; [exact Hstub|].
  rewrite Htokens. cbn [fst]. rewrite <- (Hok eq_refl), <- app_assoc. reflexivity.
Qed.

Lemma deleteUserAndTokensForAccount_revokes_then_stubs_witness :
  exists w',
    deleteUserAndTokensForAccount memstore.memDB memstore.okCrypto memstore.alice
      (memstore.mkWorldOf retry_fixtures.fullStore) = (Ok tt, w') /\
    queue w' = [] /\
    exists calls, trace w' = calls /\ last calls <> None.
Proof.
  eassert (Hrun : deleteUserAndTokensForAccount memstore.memDB memstore.okCrypto
                    memstore.alice (memstore.mkWorldOf retry_fixtures.fullStore)
                  = (Ok tt, _)) by (vm_compute; reflexivity).
  eexists. split; [exact Hrun|].
  destruct (deleteUserAndTokensForAccount_revokes_then_stubs _ _ _ _ _ _ _ Hrun)
    as (Hq & calls & Ht & _).
  split; [exact Hq|]. exists calls. split; [exact Ht|].
  vm_compute in Ht. subst calls. discriminate.
Defined.

(* ===================================================================== *)
(** * Writes to the media table and the reads that follow them            *)
(* ===================================================================== *)

Section MediaReadBack.
Context {St : Type} (conn : DBConn St).

(** A read of an id that is cached: the cached value, no statement. *)
Lemma GetAttachmentByID_hit (id : string) (v : MediaAttachment) (w : MediaWorld St) :
  cache w !! ("ID", id) = Some v ->
  GetAttachmentByID conn id w =
  (Ok v, mkMediaWorld (contents w) (statements w) (cache w)
                      (loads w ++ [("ID", id)]) (wallclock w)).
Proof.
  intros Hhit. unfold GetAttachmentByID, getAttachment, Cache_Load.
  rewrite bind_run. unfold logLoad at 1. lazy beta match.
  rewrite bind_run. unfold cacheGet at 1. lazy beta match.
  cbn [cache]. rewrite Hhit. reflexivity.
Qed.

(** A read of an id that is not cached: one select, whose answer is
    returned, and cached when it is a row. *)
Lemma GetAttachmentByID_miss (id : string) (w : MediaWorld St) :
  cache w !! ("ID", id) = None ->
  GetAttachmentByID conn id w =
  match SelectByID conn id (contents w) with
  | inl e =>
    (Fail e, mkMediaWorld (contents w) (statements w ++ [QSelectByID id]) (cache w)
                          (loads w ++ [("ID", id)]) (wallclock w))
  | inr v =>
    (Ok v, mkMediaWorld (contents w) (statements w ++ [QSelectByID id])
                        (<[("ID", id) := v]> (cache w))
                        (loads w ++ [("ID", id)]) (wallclock w))
  end.
Proof.
  intros Hmiss. unfold GetAttachmentByID, getAttachment, Cache_Load.
  rewrite bind_run. unfold logLoad at 1. lazy beta match.
  rewrite bind_run. unfold cacheGet at 1. lazy beta match.
  cbn [cache]. rewrite Hmiss.
  rewrite !bind_run. unfold connRead at 1. lazy beta match.
  cbn [contents]. destruct (SelectByID conn id (contents w)); reflexivity.
Qed.

End MediaReadBack.

(** X11. PutAttachment issues one insert of the attachment.  When the
    insert succeeds the attachment is cached under its id, the other cache
    entries stay, and a GetAttachmentByID of that id that follows answers
    the attachment as it was put without a statement; when the insert
    fails its error is returned and the cache is as before. *)
Theorem PutAttachment_then_get_reads_back :
  forall (St : Type) (conn : DBConn St) (media : MediaAttachment)
         (w : MediaWorld St),
    exists r w1,
      PutAttachment conn media w = (r, w1) /\
      statements w1 = statements w ++ [QInsert media] /\
      contents w1 = (Insert conn media (contents w)).2 /\
      match (Insert conn media (contents w)).1 with
      | None =>
        r = Ok tt /\
        cache w1 = <[("ID", MediaID media) := media]> (cache w) /\
        exists w2,
          GetAttachmentByID conn (MediaID media) w1 = (Ok media, w2) /\
          statements w2 = statements w1 /\ contents w2 = contents w1 /\
          cache w2 = cache w1
      | Some e => r = Fail e /\ cache w1 = cache w
      end.
Proof.
  intros St conn media w. unfold PutAttachment, Cache_Store.
  rewrite !bind_run. unfold connExec at 1.
  destruct (Insert conn media (contents w)) as [[e|] s1]; cbn [fst snd].
  - do 2 eexists. split; [reflexivity|]. cbn. auto 10.
  - do 2 eexists. split; [reflexivity|]. cbn [statements contents cache].
    split; [reflexivity|]. split; [reflexivity|]. split; [reflexivity|].
    split; [reflexivity|].
    eexists. split.
    + apply GetAttachmentByID_hit. cbn [cache]. apply lookup_insert_eq.
    + cbn. auto 10.
Qed.

(** X12. UpdateAttachment caches what it was passed, not what the store
    holds: when the update succeeds, whatever the column list, a
    GetAttachmentByID of the attachment's id that follows answers the
    whole attachment as passed, with the new update time, without a
    statement.  When the update fails the cache is as before. *)
Theorem UpdateAttachment_then_get_reads_back :
  forall (St : Type) (conn : DBConn St) (media : MediaAttachment)
         (columns : list string) (w : MediaWorld St),
    let media' := setUpdatedAt media (wallclock w) in
    exists err persisted w1,
      UpdateAttachment conn media columns w = (Ok (media', err), w1) /\
      statements w1 = statements w ++ [QUpdate media' persisted] /\
      err = (Update conn media' persisted (contents w)).1 /\
      contents w1 = (Update conn media' persisted (contents w)).2 /\
      match err with
      | None =>
        cache w1 = <[("ID", MediaID media) := media']> (cache w) /\
        exists w2,
          GetAttachmentByID conn (MediaID media) w1 = (Ok media', w2) /\
          statements w2 = statements w1 /\ contents w2 = contents w1 /\
          cache w2 = cache w1
      | Some _ => cache w1 = cache w
      end.
Proof.
  intros St conn media columns w media'.
  unfold UpdateAttachment. rewrite bind_run. unfold media_time_Now at 1.
  lazy beta match. fold media'.
  set (persisted := if bool_decide (0 < length columns)%nat
                    then columns ++ ["updated_at"] else columns).
  rewrite bind_run. unfold try, Cache_Store. rewrite !bind_run.
  unfold connExec at 1.
  destruct (Update conn media' persisted (contents w)) as [[e|] s1] eqn:Hupd;
    cbn [fst snd].
  - exists (Some e), persisted. eexists. split; [reflexivity|].
    rewrite Hupd. cbn. auto 10.
  - exists None, persisted. eexists. split; [reflexivity|].
    rewrite Hupd. cbn [statements contents cache fst snd].
    split; [reflexivity|]. split; [reflexivity|]. split; [reflexivity|].
    split; [reflexivity|].
    eexists. split.
    + apply GetAttachmentByID_hit. cbn [cache].
      change (MediaID media) with (MediaID media'). apply lookup_insert_eq.
    + cbn. auto 10.
Qed.

(** X13. DeleteAttachment issues one delete for the id.  When it succeeds
    the id's cache entry is dropped and the others stay, so a
    GetAttachmentByID of the id that follows asks the store and answers
    what the store answers; when it fails its error is returned and the
    cache is as before, so an attachment cached under the id is still
    served, without a statement. *)
Theorem DeleteAttachment_then_get_asks_the_store :
  forall (St : Type) (conn : DBConn St) (id : string) (w : MediaWorld St),
    exists r w1,
      DeleteAttachment conn id w = (r, w1) /\
      statements w1 = statements w ++ [QDelete id] /\
      contents w1 = (DeleteRow conn id (contents w)).2 /\
      match (DeleteRow conn id (contents w)).1 with
      | None =>
        r = Ok tt /\
        cache w1 = delete ("ID", id) (cache w) /\
        exists w2,
          GetAttachmentByID conn id w1 =
            (match SelectByID conn id (contents w1) with
             | inl e => Fail e
             | inr v => Ok v
             end, w2) /\
          statements w2 = statements w1 ++ [QSelectByID id] /\
          contents w2 = contents w1
      | Some e =>
        r = Fail e /\
        cache w1 = cache w /\
        forall v, cache w !! ("ID", id) = Some v ->
          exists w2,
            GetAttachmentByID conn id w1 = (Ok v, w2) /\
            statements w2 = statements w1
      end.
Proof.
  intros St conn id w. unfold DeleteAttachment, Cache_Invalidate.
  rewrite !bind_run. unfold connExec at 1.
  destruct (DeleteRow conn id (contents w)) as [[e|] s1]; cbn [fst snd].
  - do 2 eexists. split; [reflexivity|]. cbn [statements contents cache].
    split; [reflexivity|]. split; [reflexivity|]. split; [reflexivity|].
    split; [reflexivity|]. intros v Hv.
    eexists. split; [apply GetAttachmentByID_hit; exact Hv | reflexivity].
  - do 2 eexists. split; [reflexivity|]. cbn [statements contents cache].
    split; [reflexivity|]. split; [reflexivity|]. split; [reflexivity|].
    split; [reflexivity|].
    match goal with
    | |- exists w2, GetAttachmentByID conn id ?w1 = _ /\ _ =>
      exists (GetAttachmentByID conn id w1).2;
      rewrite (GetAttachmentByID_miss conn id w1)
        by (cbn [cache]; apply lookup_delete_eq)
    end.
    cbn [contents]. destruct (SelectByID conn id s1); cbn; auto.
Qed.

(* ===================================================================== *)
(** * Reading the media table twice                                       *)
(* ===================================================================== *)

Section ReadTwice.
Context {St : Type} (conn : DBConn St).

Lemma loadOne_reads (id : string) (w : MediaWorld St) :
  contents (loadOne conn id w).2 = contents w /\
  cache w ⊆ cache (loadOne conn id w).2 /\
  (forall k v, cache (loadOne conn id w).2 !! k = Some v ->
     cache w !! k = Some v \/
     (k = ("ID", id) /\ SelectByID conn id (contents w) = inr v)) /\
  exists asked,
    statements (loadOne conn id w).2 = statements w ++ (QSelectByID <$> asked) /\
    forall id', id' ∈ asked -> id' = id /\ cache w !! ("ID", id) = None.
Proof.
  unfold loadOne. destruct (cache w !! ("ID", id)) as [v|] eqn:Hc.
  - cbn. split; [reflexivity|]. split; [reflexivity|]. split; [auto|].
    exists []. cbn. rewrite app_nil_r. split; [reflexivity|].
    intros id' Hin. inversion Hin.
  - destruct (SelectByID conn id (contents w)) as [e|v] eqn:Hsel; cbn.
    + split; [reflexivity|]. split; [reflexivity|]. split; [auto|].
      exists [id]. split; [reflexivity|].
      intros id' Hin. apply list_elem_of_singleton in Hin. auto.
    + split; [reflexivity|]. split; [apply insert_subseteq; exact Hc|]. split.
      * intros k v' Hk. destruct (decide (k = ("ID", id))) as [->|Hne].
        -- rewrite lookup_insert_eq in Hk. inversion Hk; subst. auto.
        -- rewrite lookup_insert_ne in Hk by congruence. auto.
      * exists [id]. split; [reflexivity|].
        intros id' Hin. apply list_elem_of_singleton in Hin. auto.
Qed.

Lemma loadEach_reads (ids : list string) :
  forall (w : MediaWorld St),
    contents (loadEach conn ids w).2 = contents w /\
    cache w ⊆ cache (loadEach conn ids w).2 /\
    (forall k v, cache (loadEach conn ids w).2 !! k = Some v ->
       cache w !! k = Some v \/
       exists id, id ∈ ids /\ k = ("ID", id) /\
                  SelectByID conn id (contents w) = inr v) /\
    exists asked,
      statements (loadEach conn ids w).2 = statements w ++ (QSelectByID <$> asked) /\
      forall id, id ∈ asked -> id ∈ ids /\ cache w !! ("ID", id) = None.
Proof.
  induction ids as [|id ids IH]; intros w.
  - cbn. split; [reflexivity|]. split; [reflexivity|]. split; [auto|].
    exists []. cbn. rewrite app_nil_r. split; [reflexivity|].
    intros id Hin. inversion Hin.
  - cbn [loadEach].
    destruct (loadOne_reads id w) as (Hs1 & Hc1 & Hfrom1 & asked1 & Hst1 & Hasked1).
    destruct (loadOne conn id w) as [out wa]. cbn [snd] in *.
    destruct (IH wa) as (Hs2 & Hc2 & Hfrom2 & asked2 & Hst2 & Hasked2).
    destruct (loadEach conn ids wa) as [outs w1]. cbn [snd] in *.
    split; [congruence|]. split; [transitivity (cache wa); assumption|]. split.
    + intros k v Hk. destruct (Hfrom2 k v Hk) as [Hwa|(id' & Hin & -> & Hsel)].
      * destruct (Hfrom1 k v Hwa) as [Hw|[-> Hsel]]; [auto|].
        right. exists id. split; [apply list_elem_of_here | auto].
      * right. exists id'. rewrite <- Hs1.
        split; [apply list_elem_of_further; exact Hin | auto].
    + exists (asked1 ++ asked2). split.
      * rewrite Hst2, Hst1, fmap_app, app_assoc. reflexivity.
      * intros id' Hin. apply elem_of_app in Hin. destruct Hin as [Hin|Hin].
        -- destruct (Hasked1 id' Hin) as [-> Hnone].
           split; [apply list_elem_of_here | exact Hnone].
        -- destruct (Hasked2 id' Hin) as [Hin' Hnone].
           split; [apply list_elem_of_further; exact Hin'|].
           destruct (cache w !! ("ID", id')) as [v|] eqn:Hw; [|reflexivity].
           rewrite (lookup_weaken _ _ _ _ Hw Hc1) in Hnone. discriminate.
Qed.

(** After a pass over [ids] each answer is what the cache now holds, or
    else the store's refusal; and the world is settled for [ids]. *)
Lemma loadEach_answers (ids : list string) :
  forall (w : MediaWorld St),
    (loadEach conn ids w).1
      = answerOf conn (cache (loadEach conn ids w).2) (contents w) <$> ids /\
    settled conn ids (loadEach conn ids w).2.
Proof.
  induction ids as [|id ids IH]; intros w.
  - split; [reflexivity|]. intros id Hin. inversion Hin.
  - cbn [loadEach].
    pose proof (loadOne_reads id w) as (Hs1 & Hc1 & _ & _).
    assert (Hone : (loadOne conn id w).1
                   = answerOf conn (cache (loadOne conn id w).2) (contents w) id
                   /\ (cache (loadOne conn id w).2 !! ("ID", id) = None ->
                       exists e, SelectByID conn id (contents w) = inl e)).
    { unfold loadOne, answerOf.
      destruct (cache w !! ("ID", id)) as [v|] eqn:Hc.
      - cbn. rewrite Hc. split; [reflexivity | discriminate].
      - destruct (SelectByID conn id (contents w)) as [e|v] eqn:Hsel; cbn.
        + rewrite Hc. split; [reflexivity | eauto].
        + rewrite lookup_insert_eq. split; [reflexivity | discriminate]. }
    destruct Hone as [Hout Hfail].
    destruct (loadOne conn id w) as [out wa]. cbn [fst snd] in *.
    destruct (IH wa) as [Houts Hsettled].
    destruct (loadEach_reads ids wa) as (Hs2 & Hc2 & Hfrom2 & _).
    destruct (loadEach conn ids wa) as [outs w1]. cbn [fst snd] in *.
    split.
    + rewrite fmap_cons. f_equal; [|rewrite Houts, Hs1; reflexivity].
      subst out. unfold answerOf.
      destruct (cache wa !! ("ID", id)) as [v|] eqn:Hwa.
      * rewrite (lookup_weaken _ _ _ _ Hwa Hc2). reflexivity.
      * destruct (cache w1 !! ("ID", id)) as [v'|] eqn:Hw1; [|reflexivity].
        destruct (Hfrom2 _ _ Hw1) as [Hin|(id' & _ & Hk & Hsel)]; [congruence|].
        inversion Hk; subst id'. rewrite Hs1 in Hsel. exact Hsel.
    + intros id' Hin Hnone. rewrite Hs2, Hs1.
      apply elem_of_cons in Hin. destruct Hin as [->|Hin].
      * apply Hfail.
        destruct (cache wa !! ("ID", id)) as [v|] eqn:Hwa; [|reflexivity].
        rewrite (lookup_weaken _ _ _ _ Hwa Hc2) in Hnone. discriminate.
      * destruct (Hsettled id' Hin Hnone) as [e He].
        rewrite Hs2, Hs1 in He. eauto.
Qed.

(** A pass over [ids] in a world settled for them: the cache answers or
    the store refuses again; nothing is cached, and the store is asked
    for the ids without a cache entry. *)
Lemma loadEach_settled (ids : list string) :
  forall (w : MediaWorld St),
    settled conn ids w ->
    loadEach conn ids w =
    (answerOf conn (cache w) (contents w) <$> ids,
     mkMediaWorld (contents w)
                  (statements w ++ (QSelectByID <$> uncachedIDs (cache w) ids))
                  (cache w)
                  (loads w ++ ((fun id => ("ID", id)) <$> ids))
                  (wallclock w)).
Proof.
  induction ids as [|id ids IH]; intros w Hsettled.
  - cbn. rewrite !app_nil_r. destruct w; reflexivity.
  - cbn [loadEach]. unfold uncachedIDs.
    assert (Hrest : forall wa, contents wa = contents w -> cache wa = cache w ->
                               settled conn ids wa).
    { intros wa Hs Hc id' Hin Hnone. rewrite Hs. rewrite Hc in Hnone.
      apply Hsettled; [apply list_elem_of_further; exact Hin | exact Hnone]. }
    rewrite !fmap_cons. unfold loadOne.
    destruct (cache w !! ("ID", id)) as [v|] eqn:Hc.
    + rewrite IH by (apply Hrest; reflexivity).
      cbn [contents cache statements loads wallclock].
      rewrite filter_cons_False by (rewrite Hc; discriminate).
      assert (Ha : answerOf conn (cache w) (contents w) id = inr v)
        by (unfold answerOf; rewrite Hc; reflexivity).
      rewrite Ha, <- app_assoc. reflexivity.
    + destruct (Hsettled id (list_elem_of_here _ _) Hc) as [e He]. rewrite He.
      rewrite IH by (apply Hrest; reflexivity).
      cbn [contents cache statements loads wallclock].
      rewrite filter_cons_True by exact Hc.
      assert (Ha : answerOf conn (cache w) (contents w) id = inl e)
        by (unfold answerOf; rewrite Hc; exact He).
      rewrite Ha, fmap_cons, <- !app_assoc. reflexivity.
Qed.

Lemma GetAttachmentsByIDs_run (ids : list string) (w : MediaWorld St) :
  GetAttachmentsByIDs conn ids w
  = (Ok (omap loaded (loadEach conn ids w).1), (loadEach conn ids w).2).
Proof. unfold GetAttachmentsByIDs. rewrite GetAttachmentsByIDs_acc. reflexivity. Qed.

End ReadTwice.

(** X14. GetAttachmentsByIDs only reads: it leaves the store contents as
    they were, asks the store only for requested ids that had no cache
    entry, and only adds to the cache.  Calling it again with the same ids
    right away gives the same attachments and leaves the cache as it is;
    the second call asks the store once more for exactly the ids that are
    still without a cache entry, which are the ids that failed: failures
    are not remembered. *)
Theorem GetAttachmentsByIDs_reads_only_and_repeats :
  forall (St : Type) (conn : DBConn St) (ids : list string) (w : MediaWorld St),
    exists attachments w1 w2,
      GetAttachmentsByIDs conn ids w = (Ok attachments, w1) /\
      GetAttachmentsByIDs conn ids w1 = (Ok attachments, w2) /\
      contents w1 = contents w /\ contents w2 = contents w /\
      cache w ⊆ cache w1 /\ cache w2 = cache w1 /\
      (exists asked,
         statements w1 = statements w ++ (QSelectByID <$> asked) /\
         forall id, id ∈ asked -> id ∈ ids /\ cache w !! ("ID", id) = None) /\
      statements w2
        = statements w1 ++ (QSelectByID <$> uncachedIDs (cache w1) ids) /\
      settled conn ids w1.
Proof.
  intros St conn ids w.
  pose proof (GetAttachmentsByIDs_run conn ids w) as Hrun1.
  destruct (loadEach_reads conn ids w) as (Hs1 & Hc1 & _ & Hasked).
  destruct (loadEach_answers conn ids w) as [Houts Hsettled].
  set (w1 := (loadEach conn ids w).2) in *.
  pose proof (GetAttachmentsByIDs_run conn ids w1) as Hrun2.
  rewrite (loadEach_settled conn ids w1 Hsettled) in Hrun2. cbn [fst snd] in Hrun2.
  do 3 eexists. split; [exact Hrun1|]. split.
  { rewrite Hrun2, Houts, Hs1. reflexivity. }
  cbn [contents cache statements]. auto 10.
Qed.

(* ===================================================================== *)
(** * The reads by condition and the counts                               *)
(* ===================================================================== *)

Section RangeFacts.
Context {St : Type} (conn : DBConn St) (sel : SelectConn St).

(** Ids that are all cached: a pass over them answers the cached values
    and asks the store nothing. *)
Lemma loadEach_all_cached (ids : list string) (cached : list MediaAttachment)
  (w : MediaWorld St) :
  Forall2 (fun id v => cache w !! ("ID", id) = Some v) ids cached ->
  omap loaded (loadEach conn ids w).1 = cached /\
  statements (loadEach conn ids w).2 = statements w.
Proof.
  intros Hall.
  assert (Hsettled : settled conn ids w).
  { intros id Hin Hnone. apply list_elem_of_lookup in Hin. destruct Hin as [i Hi].
    destruct (Forall2_lookup_l _ _ _ _ _ Hall Hi) as (v & _ & Hv). congruence. }
  rewrite (loadEach_settled conn ids w Hsettled). cbn [fst snd statements].
  assert (Hnone : uncachedIDs (cache w) ids = []
                  /\ omap loaded (answerOf conn (cache w) (contents w) <$> ids) = cached).
  { clear Hsettled. induction Hall as [|id v ids cached Hv Hall IH].
    - split; reflexivity.
    - destruct IH as [IH1 IH2]. unfold uncachedIDs in *. split.
      + rewrite filter_cons_False by (rewrite Hv; discriminate). exact IH1.
      + rewrite fmap_cons. unfold answerOf at 1. rewrite Hv. cbn.
        f_equal. exact IH2. }
  destruct Hnone as [-> ->]. cbn. rewrite app_nil_r. auto.
Qed.

(** The shape the three reads share: one scan, then the best-effort load
    of the scanned ids. *)
Lemma scan_then_load (q : bun.SelectQuery) (limit : Z) (P : bun.SelectQuery -> Prop) :
  bun.columns q = ["media_attachment.id"] ->
  P q ->
  bun.limit q = (if bool_decide (limit = 0) then None else Some limit) ->
  bestEffortRead conn sel limit P
    (r ← connScan sel q;
     match r with
     | inl err => fail err
     | inr attachmentIDs => inMedia (GetAttachmentsByIDs conn attachmentIDs)
     end).
Proof.
  intros Hcols HP Hlimit w. exists q.
  rewrite bind_run. unfold connScan at 1. lazy beta match.
  destruct (ScanIDs sel q (contents (media w))) as [e|ids] eqn:Hscan.
  - do 2 eexists. split; [reflexivity|]. cbn [selects media].
    split; [reflexivity|]. split; [exact Hcols|]. split; [exact HP|].
    split; [exact Hlimit|]. split; [reflexivity|]. split; [reflexivity|].
    auto.
  - unfold inMedia. cbn [media selects].
    rewrite GetAttachmentsByIDs_run.
    destruct (loadEach_reads conn ids (media w)) as (Hs & Hc & _ & _).
    destruct (loadEach_answers conn ids (media w)) as [Houts _].
    do 2 eexists. split; [reflexivity|]. cbn [selects media].
    split; [reflexivity|]. split; [exact Hcols|]. split; [exact HP|].
    split; [exact Hlimit|]. split; [exact Hs|]. split; [exact Hc|].
    eexists. split; [reflexivity|].
    split; [rewrite Houts; reflexivity|]. split.
    + rewrite <- (loadEach_length conn ids (media w)). apply omap_loaded_length.
    + intros cached Hall. apply loadEach_all_cached. exact Hall.
Qed.

End RangeFacts.

(** X15. GetRemoteOlderThan, GetAvatarsAndHeaders and
    GetLocalUnattachedOlderThan are best-effort reads.  Each runs one scan
    of ids, newest first (GetAvatarsAndHeaders: highest id first, with
    the id bounded by maxID exactly when maxID is not empty), with a limit
    clause exactly when the limit is not 0.  A failed scan is the only
    error, and then nothing is loaded.  Otherwise the call returns nil
    with the attachments of the scanned ids in scan order as the cache
    holds them afterwards, leaving out the ids the store refuses; when
    every scanned id was cached already, these are the cached attachments
    and no statement follows the scan. *)
Theorem reads_by_condition_are_best_effort :
  forall (St : Type) (conn : DBConn St) (sel : SelectConn St)
         (olderThan : Time) (maxID : string) (limit : Z),
    bestEffortRead conn sel limit
      (fun q => bun.orders q = ["media_attachment.created_at DESC"])
      (GetRemoteOlderThan conn sel olderThan limit) /\
    bestEffortRead conn sel limit
      (fun q => bun.orders q = ["media_attachment.id DESC"] /\
                (bun.ClauseWhere (bun.CondLt "media_attachment.id"
                                             (bun.ArgString maxID))
                   ∈ bun.wheres q <-> maxID <> ""))
      (GetAvatarsAndHeaders conn sel maxID limit) /\
    bestEffortRead conn sel limit
      (fun q => bun.orders q = ["media_attachment.created_at DESC"])
      (GetLocalUnattachedOlderThan conn sel olderThan limit).
Proof.
  intros St conn sel olderThan maxID limit.
  split; [|split].
  - unfold GetRemoteOlderThan. apply scan_then_load;
      destruct (decide (limit = 0)) as [H0|H0];
      rewrite ?(bool_decide_eq_false_2 (limit ≠ 0)) by auto;
      rewrite ?(bool_decide_eq_true_2 (limit ≠ 0)) by auto;
      rewrite ?(bool_decide_eq_true_2 (limit = 0)) by auto;
      rewrite ?(bool_decide_eq_false_2 (limit = 0)) by auto;
      reflexivity.
  - unfold GetAvatarsAndHeaders. apply scan_then_load;
      destruct (decide (limit = 0)) as [H0|H0];
      rewrite ?(bool_decide_eq_false_2 (limit ≠ 0)) by auto;
      rewrite ?(bool_decide_eq_true_2 (limit ≠ 0)) by auto;
      rewrite ?(bool_decide_eq_true_2 (limit = 0)) by auto;
      rewrite ?(bool_decide_eq_false_2 (limit = 0)) by auto;
      destruct (decide (maxID = "")) as [Hm|Hm];
      rewrite ?(bool_decide_eq_false_2 (maxID ≠ "")) by auto;
      rewrite ?(bool_decide_eq_true_2 (maxID ≠ "")) by auto;
      try reflexivity;
      (split; [reflexivity|]); cbn;
      (split; [intros Hin | intros Hne]).
    + apply list_elem_of_singleton in Hin. discriminate.
    + contradiction.
    + exact Hm.
    + apply elem_of_cons. right. apply list_elem_of_singleton. reflexivity.
    + apply list_elem_of_singleton in Hin. discriminate.
    + contradiction.
    + exact Hm.
    + apply elem_of_cons. right. apply list_elem_of_singleton. reflexivity.
  - unfold GetLocalUnattachedOlderThan. apply scan_then_load;
      destruct (decide (limit = 0)) as [H0|H0];
      rewrite ?(bool_decide_eq_false_2 (limit ≠ 0)) by auto;
      rewrite ?(bool_decide_eq_true_2 (limit ≠ 0)) by auto;
      rewrite ?(bool_decide_eq_true_2 (limit = 0)) by auto;
      rewrite ?(bool_decide_eq_false_2 (limit = 0)) by auto;
      reflexivity.
Qed.

Section CountFacts.
Context {St : Type} (conn : DBConn St) (sel : SelectConn St).

(** A count statement and the unlimited read whose scan has its table,
    column and conditions. *)
Lemma count_bounds_read (q : bun.SelectQuery) (w : RangeWorld St) :
  countsWhatItScans sel (contents (media w)) ->
  bun.limit q = None ->
  let qc := bun.mkSelectQuery (bun.tableExpr q) (bun.columns q)
                              (bun.wheres q) [] None in
  forall n w1 l w2,
    (r ← connCount sel qc;
     match r with
     | inl err => fail err
     | inr count => mret count
     end) w = (Ok n, w1) ->
    (r ← connScan sel q;
     match r with
     | inl err => fail (E := error) err
     | inr attachmentIDs => inMedia (GetAttachmentsByIDs conn attachmentIDs)
     end) w1 = (Ok l, w2) ->
    media w1 = media w /\ selects w1 = selects w ++ [bun.Count qc] /\
    Z.of_nat (length l) <= n.
Proof.
  intros Hcounts Hlimit qc n w1 l w2.
  rewrite bind_run. unfold connCount at 1. lazy beta match.
  destruct (CountRows sel qc (contents (media w))) as [e|n'] eqn:Hcount;
    [discriminate|].
  intros H. inversion H; subst n' w1. clear H.
  rewrite bind_run. unfold connScan at 1. lazy beta match. cbn [media selects].
  destruct (ScanIDs sel q (contents (media w))) as [e|ids] eqn:Hscan;
    [discriminate|].
  unfold inMedia. cbn [media selects]. rewrite GetAttachmentsByIDs_run.
  intros H. inversion H; subst l. clear H.
  split; [reflexivity|]. split; [reflexivity|].
  rewrite (Hcounts q ids n Hlimit Hscan Hcount).
  apply Nat2Z.inj_le. rewrite <- (loadEach_length conn ids (media w)).
  apply omap_loaded_length.
Qed.

End CountFacts.

Lemma insertBy_length (before : range_fixtures.MediaRow -> range_fixtures.MediaRow -> bool)
  (x : range_fixtures.MediaRow) (l : list range_fixtures.MediaRow) :
  length (range_fixtures.insertBy before x l) = S (length l).
Proof.
  induction l as [|y l IH]; [reflexivity|]. cbn.
  destruct (before x y); cbn; congruence.
Qed.

Lemma ordered_length (orders : list string) (l : list range_fixtures.MediaRow) :
  length (range_fixtures.ordered orders l) = length l.
Proof.
  assert (Hsort : forall before, length (range_fixtures.sortBy before l) = length l).
  { intros before. induction l as [|x l IH]; [reflexivity|].
    cbn. rewrite insertBy_length. f_equal. exact IH. }
  unfold range_fixtures.ordered.
  destruct orders as [|order [|? ?]]; try reflexivity.
  destruct (String.eqb order "media_attachment.created_at DESC"); [apply Hsort|].
  destruct (String.eqb order "media_attachment.id DESC"); [apply Hsort|].
  reflexivity.
Qed.

Lemma rowSel_countsWhatItScans (rows : list range_fixtures.MediaRow) :
  countsWhatItScans range_fixtures.rowSel rows.
Proof.
  intros q ids n Hlimit Hscan Hcount. cbn in Hscan, Hcount.
  inversion Hscan; subst ids. inversion Hcount; subst n.
  rewrite Hlimit. cbn [range_fixtures.limited].
  rewrite length_fmap, ordered_length. reflexivity.
Qed.

(** X16. The counts count what the reads scan: CountRemoteOlderThan runs
    one count statement with the table, the column and the conditions of
    the scan of GetRemoteOlderThan, without order and limit, and leaves
    the media state untouched; so on a store whose counts agree with its
    scans, GetRemoteOlderThan with limit 0 returns at most as many
    attachments as CountRemoteOlderThan counted just before.  The same
    holds of CountLocalUnattachedOlderThan and
    GetLocalUnattachedOlderThan. *)
Theorem counts_bound_the_unlimited_reads :
  forall (St : Type) (conn : DBConn St) (sel : SelectConn St)
         (olderThan : Time) (w : RangeWorld St),
    countsWhatItScans sel (contents (media w)) ->
    (forall n w1 l w2,
       CountRemoteOlderThan sel olderThan w = (Ok n, w1) ->
       GetRemoteOlderThan conn sel olderThan 0 w1 = (Ok l, w2) ->
       media w1 = media w /\
       (exists qc, selects w1 = selects w ++ [bun.Count qc] /\
                   selects w2 = selects w1
                     ++ [bun.Scan (qc |> bun.Order "media_attachment.created_at DESC")]) /\
       Z.of_nat (length l) <= n) /\
    (forall n w1 l w2,
       CountLocalUnattachedOlderThan sel olderThan w = (Ok n, w1) ->
       GetLocalUnattachedOlderThan conn sel olderThan 0 w1 = (Ok l, w2) ->
       media w1 = media w /\
       (exists qc, selects w1 = selects w ++ [bun.Count qc] /\
                   selects w2 = selects w1
                     ++ [bun.Scan (qc |> bun.Order "media_attachment.created_at DESC")]) /\
       Z.of_nat (length l) <= n).
Proof.
  intros St conn sel olderThan w Hcounts. split.
  - intros n w1 l w2 Hcount Hget.
    pose proof Hget as Hsel.
    unfold GetRemoteOlderThan in Hget, Hsel. unfold CountRemoteOlderThan in Hcount.
    rewrite bool_decide_eq_false_2 in Hget, Hsel by (intros H; apply H; reflexivity).
    match type of Hget with
    | (connScan sel ?q ≫= _) _ = _ =>
      destruct (count_bounds_read conn sel q w Hcounts eq_refl n w1 l w2 Hcount Hget)
        as (Hm & Hs & Hle)
    end.
    split; [exact Hm|]. split; [|exact Hle].
    eexists. split; [exact Hs|].
    rewrite bind_run in Hsel. unfold connScan at 1 in Hsel. lazy beta match in Hsel.
    destruct (ScanIDs sel _ (contents (media w1))); [discriminate|].
    unfold inMedia in Hsel. cbn [media selects] in Hsel.
    destruct (GetAttachmentsByIDs conn l0 (media w1)) as [r mw].
    inversion Hsel; subst. reflexivity.
  - intros n w1 l w2 Hcount Hget.
    pose proof Hget as Hsel.
    unfold GetLocalUnattachedOlderThan in Hget, Hsel.
    unfold CountLocalUnattachedOlderThan in Hcount.
    rewrite bool_decide_eq_false_2 in Hget, Hsel by (intros H; apply H; reflexivity).
    match type of Hget with
    | (connScan sel ?q ≫= _) _ = _ =>
      destruct (count_bounds_read conn sel q w Hcounts eq_refl n w1 l w2 Hcount Hget)
        as (Hm & Hs & Hle)
    end.
    split; [exact Hm|]. split; [|exact Hle].
    eexists. split; [exact Hs|].
    rewrite bind_run in Hsel. unfold connScan at 1 in Hsel. lazy beta match in Hsel.
    destruct (ScanIDs sel _ (contents (media w1))); [discriminate|].
    unfold inMedia in Hsel. cbn [media selects] in Hsel.
    destruct (GetAttachmentsByIDs conn l0 (media w1)) as [r mw].
    inversion Hsel; subst. reflexivity.
Qed.

Lemma counts_bound_the_unlimited_reads_witness :
  exists n w1 l w2,
    CountRemoteOlderThan range_fixtures.rowSel 450
      (range_fixtures.rangeWorld range_fixtures.table) = (Ok n, w1) /\
    GetRemoteOlderThan range_fixtures.rowConn range_fixtures.rowSel 450 0 w1
      = (Ok l, w2) /\
    n = 2 /\ Z.of_nat (length l) <= n.
Proof.
  eassert (Hcount : CountRemoteOlderThan range_fixtures.rowSel 450
                      (range_fixtures.rangeWorld range_fixtures.table)
                    = (Ok 2, _)) by (vm_compute; reflexivity).
  match type of Hcount with
  | _ = (_, ?w1) =>
    eassert (Hget : GetRemoteOlderThan range_fixtures.rowConn range_fixtures.rowSel
                      450 0 w1 = (Ok _, _)) by (vm_compute; reflexivity)
  end.
  do 4 eexists. split; [exact Hcount|]. split; [exact Hget|].
  split; [reflexivity|].
  destruct (counts_bound_the_unlimited_reads _ range_fixtures.rowConn
              range_fixtures.rowSel 450
              (range_fixtures.rangeWorld range_fixtures.table)
              (rowSel_countsWhatItScans _)) as [Hremote _].
  destruct (Hremote _ _ _ _ Hcount Hget) as (_ & _ & Hle). exact Hle.
Defined.

(** Three remote attachments, two of them older than the cutoff: the
    read lists them newest first, and with limit 1 the newest only. *)
Example remote_older_than_newest_first :
  (GetRemoteOlderThan range_fixtures.rowConn range_fixtures.rowSel
     450 0 (range_fixtures.rangeWorld range_fixtures.table)).1
  = Ok [range_fixtures.attachment (range_fixtures.remote "01C" 300);
        range_fixtures.attachment (range_fixtures.remote "01A" 100)] /\
  (GetRemoteOlderThan range_fixtures.rowConn range_fixtures.rowSel
     450 1 (range_fixtures.rangeWorld range_fixtures.table)).1
  = Ok [range_fixtures.attachment (range_fixtures.remote "01C" 300)].
Proof. split; vm_compute; reflexivity. Qed.
